(** * spots: a shallow embedding of the proof-number search core

    The development follows the C++ sources under
    [modules/spots_cpp/include/spots/solver] header by header.  Machine
    integers are natural numbers of [N] with their width written out,
    exceptions are values of an error monad, hash maps are [gmap]s, and
    every loop whose termination is not structural carries fuel. *)

From Stdlib Require Import NArith ZArith List Bool Lia String Ascii Sorting.Permutation Sorting.Sorted.
From Stdlib Require OrderedTypeEx.
From stdpp Require Import base option list gmap strings.

Local Open Scope N_scope.
Set Warnings "-register-all".

(** ** Results of computations that may throw *)

(** The exceptions the core raises: [std::overflow_error] and
    [std::underflow_error] from proof_numbers.hpp, and a failed [assert]. *)
Inductive exn : Set :=
| overflow_error
| underflow_error
| assertion_failure.

Inductive Res (A : Type) : Type :=
| Ok (a : A)
| Throw (e : exn)
| OutOfFuel.
Arguments Ok {A} a.
Arguments Throw {A} e.
Arguments OutOfFuel {A}.

#[global] Instance Res_ret : MRet Res := fun A a => Ok a.
#[global] Instance Res_bind : MBind Res := fun A B f m =>
  match m with
  | Ok a => f a
  | Throw e => Throw e
  | OutOfFuel => OutOfFuel
  end.

Definition isOk {A} (r : Res A) : bool :=
  match r with Ok _ => true | _ => false end.

(** global.hpp *)
Inductive Outcome : Set := Win | Loss | Unknown.

Definition Outcome_eqb (a b : Outcome) : bool :=
  match a, b with
  | Win, Win | Loss, Loss | Unknown, Unknown => true
  | _, _ => false
  end.

(** Width of [size_t] and of [ProofNumbers::simple_value_type]. *)
Definition SIZE_MAX : N := 2 ^ 64 - 1.
Definition wrap64 (n : N) : N := n mod 2 ^ 64.

(** [utils::hash_combine]: [seed ^= h + 0x9e3779b9 + (seed << 6) + (seed >> 2)]. *)
Definition hash_combine (seed h : N) : N :=
  N.lxor seed (wrap64 (h + 2654435769 + wrap64 (N.shiftl seed 6) + N.shiftr seed 2)).

(** ** nimber.hpp *)
Module Nimber.
  (** [value_type = uint8_t]. *)
Definition t := N.
Definition wrap8 (n : N) : t := n mod 256.

Definition isLoss (x : t) : bool := x =? 0.
Definition isWin (x : t) : bool := negb (x =? 0).
Definition add (x : t) (v : N) : t := wrap8 (x + v).
Definition incr (x : t) : t := wrap8 (x + 1).
Definition lt (x y : t) : bool := x <? y.
Definition eqb (x y : t) : bool := x =? y.
Definition mergeNimbers (x y : t) : t := wrap8 (N.lxor x y).
End Nimber.

(** ** proof_numbers.hpp *)
Module PN.
  (** [Value<uint64_t>]: the largest value stands for infinity. *)
Definition value_type := N.
Definition MAX : N := SIZE_MAX.
Definition INF : value_type := MAX.

Definition is_inf (v : value_type) : bool := v =? MAX.
  (** [a >= max - b] *)
Definition will_addition_overflow (a b : N) : bool := MAX - b <=? a.

Definition add (a b : value_type) : Res value_type :=
    if is_inf a || is_inf b then Ok INF
    else if will_addition_overflow a b then Throw overflow_error
    else Ok (a + b).

Definition sub (a b : value_type) : Res value_type :=
    if is_inf a then
      if is_inf b then Throw underflow_error else Ok INF
    else if a <? b then Throw underflow_error
    else Ok (a - b).

Definition eqb (a b : value_type) : bool := (is_inf a && is_inf b) || (a =? b).
Definition ltb (a b : value_type) : bool :=
    if is_inf a then false else if is_inf b then true else a <? b.

  (** [std::min(a, b)] is [(b < a) ? b : a]; [std::max(a, b)] is [(a < b) ? b : a]. *)
Definition min (a b : value_type) : value_type := if ltb b a then b else a.
Definition max (a b : value_type) : value_type := if ltb a b then b else a.

  (** A value that fits the 64-bit representation. *)
Definition wf (v : value_type) : Prop := v <= MAX.

  (** [a != 0 && b >= max / a] *)
Definition will_multiplication_overflow (a b : N) : bool := negb (a =? 0) && (MAX / a <=? b).

Definition mul (a b : value_type) : Res value_type :=
    if is_inf a || is_inf b then Ok INF
    else if will_multiplication_overflow a b then Throw overflow_error
    else Ok (a * b).

Definition div (a b : value_type) : Res value_type :=
    if b =? 0 then Throw overflow_error
    else if is_inf b then Throw overflow_error
    else if is_inf a then Ok INF
    else Ok (a / b).
End PN.

Record ProofNumbers : Set := mkPN { proof : PN.value_type; disproof : PN.value_type }.

Module ProofNumbers.
Definition default : ProofNumbers := mkPN 1 1.
Definition isWin (p : ProofNumbers) : bool := PN.eqb (proof p) 0.
Definition isLoss (p : ProofNumbers) : bool := PN.eqb (disproof p) 0.
Definition isProved (p : ProofNumbers) : bool := isWin p || isLoss p.
Definition toOutcome (p : ProofNumbers) : Outcome :=
    if PN.eqb (proof p) 0 then Win else if PN.eqb (disproof p) 0 then Loss else Unknown.
End ProofNumbers.

(** ** The position capability (games/sprouts/position.hpp)

    A position is a [Structure<Position, Land>]: a vector of lands.  What
    happens inside a land (regions, boundaries, vertices, canonisation) is
    the game layer; the search core only sees the operations below. *)
Class Game : Type := {
  Land : Type;
  (** [static constexpr bool isNormalImpartial] *)
  isNormalImpartial : bool;
  (** [Structure::getLives], a [uint] *)
  getLives : list Land -> N;
  (** [Land::estimateChildrenNumber] *)
  landEstimateChildrenNumber : Land -> N;
  (** [Position::to_string], the text of [Position::Compact] *)
  to_string : list Land -> string;
  (** [Position(const Compact &)] *)
  of_string : string -> list Land;
  (** [Position::computeChildren] *)
  positionChildren : list Land -> list (list Land);
  (** [std::hash<std::string>] behind [std::hash<Position::Compact>] *)
  strHash : string -> N
}.

Module Position.
Section WithGame.
  Context `{G : Game}.

Definition t := list Land.

Definition empty (p : t) : bool := Nat.eqb (length p) 0.
Definition isTerminal (p : t) : bool := Nat.eqb (length p) 0.
Definition isMultiLand (p : t) : bool := Nat.ltb 1 (length p).
Definition getSubgamesNumber (p : t) : N := N.of_nat (length p).
  (** One single-land position per land. *)
Definition getSubgames (p : t) : list t := map (fun l => [l]) p.
  (** [Position(std::vector<Position> &&)] collects the lands of all parts. *)
Definition ofPositions (ps : list t) : t := concat ps.
Definition getOutcome (p : t) : Outcome := if isTerminal p then Loss else Unknown.
Definition estimateChildrenNumber (p : t) : N :=
    fold_left (fun acc l => wrap64 (acc + landEstimateChildrenNumber l)) p 0.
Definition estimateProofDepth (p : t) : N := getLives p.
Definition estimateDisproofDepth (p : t) : N := getLives p.
Definition to_compact (p : t) : string := to_string p.
End WithGame.
End Position.

(** ** nimber_database.hpp (the map; the file format comes further down) *)
Module NimberDatabase.
Record t : Type := mk {
    data : gmap string Nimber.t;
    trackNew : bool;
    trackedData : gmap string Nimber.t
  }.

Definition create (trackNew : bool) : t := mk ∅ trackNew ∅.
Definition size (db : t) : nat := base.size (data db).
Definition clear (db : t) : t := mk ∅ (trackNew db) ∅.
Definition clearTracked (db : t) : t := mk (data db) (trackNew db) ∅.

Definition get (db : t) (compactPosition : string) : option Nimber.t :=
    data db !! compactPosition.

Definition insert (db : t) (compactPosition : string) (nimber : Nimber.t) : t :=
    mk (<[compactPosition := nimber]> (data db))
       (trackNew db)
       (if trackNew db then <[compactPosition := nimber]> (trackedData db) else trackedData db).

  (** [data.insert({k, v}).second]: only an absent key is written. *)
Definition insertIfAbsent (m : gmap string Nimber.t) (k : string) (v : Nimber.t)
    : gmap string Nimber.t * bool :=
    match m !! k with
    | Some _ => (m, false)
    | None => (<[k := v]> m, true)
    end.

Definition addNimbers (db : t) (nimbers : list (string * Nimber.t)) : t * N :=
    let '(m, inserted) :=
      fold_left (fun '(m, inserted) '(k, v) =>
                   let '(m', fresh) := insertIfAbsent m k v in
                   (m', if fresh then inserted + 1 else inserted))
                nimbers (data db, 0) in
    (mk m (trackNew db) (trackedData db), inserted).

Definition setTrackNew (db : t) (b : bool) : t := mk (data db) b (trackedData db).

  (** [getTrackedNimbers(clearTracked)]: the copy handed out and the database
      as it is left. *)
Definition getTrackedNimbers (db : t) (clearTracked : bool)
    : gmap string Nimber.t * t :=
    (trackedData db, if clearTracked then mk (data db) (trackNew db) ∅ else db).
End NimberDatabase.

(** ** couple.hpp *)
Record Compact : Set := mkCompact { compactPosition : string; compactNimber : Nimber.t }.

Module Compact.
Definition default : Compact := mkCompact EmptyString 0.
Definition eqb (a b : Compact) : bool :=
    Nimber.eqb (compactNimber a) (compactNimber b)
    && String.eqb (compactPosition a) (compactPosition b).
  (** [Couple::to_string(positionStr, nimberStr)] is given with the file format. *)
End Compact.

Record Couple `{G : Game} : Type := mkCouple { position : list Land; nimber : Nimber.t }.
Arguments mkCouple {G} position nimber.

(** Machine-integer conversions used by the comparers of heuristics.hpp. *)
Definition wrap32 (n : N) : N := n mod 2 ^ 32.
Definition toInt32 (n : N) : Z :=
  let w := wrap32 n in
  if w <? 2 ^ 31 then Z.of_N w else (Z.of_N w - 2 ^ 32)%Z.

(** [std::sort(first, last, comp)], modelled as a sort by insertion: the
    element goes in front of the first one it is less than. *)
Section Sort.
  Context {A : Type} (comp : A -> A -> bool).

Fixpoint sortInsert (x : A) (l : list A) : list A :=
    match l with
    | [] => [x]
    | y :: l' => if comp x y then x :: y :: l' else y :: sortInsert x l'
    end.

Definition sort (l : list A) : list A := fold_right sortInsert [] l.

  (** The order a sorted vector is in: no element is less than the one
      before it. *)
Definition inOrder (a b : A) : Prop := comp b a = false.
End Sort.

Module Heuristics.
Section WithGame.
  Context `{G : Game}.

Definition DefaultGameComparer (first second : list Land) : bool :=
    let firstLives := toInt32 (getLives first) in
    let secondLives := toInt32 (getLives second) in
    if negb (firstLives =? secondLives)%Z then (firstLives <? secondLives)%Z
    else
      let firstChildrenEstimation := Position.estimateChildrenNumber first in
      let secondChildrenEstimation := Position.estimateChildrenNumber second in
      if negb (firstChildrenEstimation =? secondChildrenEstimation)
      then firstChildrenEstimation <? secondChildrenEstimation
      else String.ltb (to_string first) (to_string second).
End WithGame.
End Heuristics.

Module Couple.
Section WithGame.
  Context `{G : Game}.

Definition to_compact (c : Couple) : Compact :=
    mkCompact (Position.to_compact (position c)) (nimber c).
  (** [Couple(const Compact &)] *)
Definition ofCompact (c : Compact) : Couple :=
    mkCouple (of_string (compactPosition c)) (compactNimber c).

Definition estimateProofDepth (c : Couple) : N :=
    wrap64 (Position.estimateProofDepth (position c) + nimber c).
Definition estimateDisproofDepth (c : Couple) : N :=
    wrap64 (Position.estimateDisproofDepth (position c) + nimber c).

Definition getOutcome (c : Couple) : Outcome :=
    if Position.isTerminal (position c) then
      if isNormalImpartial then (if Nimber.isWin (nimber c) then Win else Loss)
      else Position.getOutcome (position c)
    else Unknown.

  (** The body of the loop of [mergeComputedLands] over [position.getSubgames()]:
      the state is the carried nimber, the [modified] flag and
      [uncomputedSubgames]. *)
Definition mergeStep (database : NimberDatabase.t)
      (st : Nimber.t * bool * list (list Land)) (subgame : list Land)
    : Nimber.t * bool * list (list Land) :=
    let '(n, modified, uncomputedSubgames) := st in
    match NimberDatabase.get database (Position.to_compact subgame) with
    | Some storedNimber => (Nimber.mergeNimbers n storedNimber, true, uncomputedSubgames)
    | None => (n, modified, uncomputedSubgames ++ [subgame])
    end.

  (** Returns the [modified] flag and the couple as it is left. *)
Definition mergeComputedLands (database : NimberDatabase.t) (c : Couple) : bool * Couple :=
    if negb isNormalImpartial || Position.empty (position c) then (false, c)
    else
      let '(n, modified, uncomputedSubgames) :=
        fold_left (mergeStep database) (Position.getSubgames (position c))
                  (nimber c, false, []) in
      (modified, mkCouple (Position.ofPositions uncomputedSubgames) n).

  (** The Nim children: [(position, k)] for [k = 0 .. nimber - 1]. *)
Definition nimChildren (c : Couple) : list Couple :=
    map (fun k => mkCouple (position c) (N.of_nat k)) (seq 0 (N.to_nat (nimber c))).

  (** The loop over the position children.  [None] means the loop ran to its
      end; [Some o] that it returned [o] from inside, leaving [children] as
      it was at that moment. *)
Fixpoint positionChildrenLoop (database : option NimberDatabase.t) (n : Nimber.t)
      (pcs : list (list Land)) (children : list Couple) : option Outcome * list Couple :=
    match pcs with
    | [] => (None, children)
    | positionChild :: rest =>
        if match database with
           | Some db => negb isNormalImpartial && negb (Position.isTerminal positionChild)
                        && bool_decide (is_Some (NimberDatabase.get db (Position.to_compact positionChild)))
           | None => false
           end
        then (Some Win, children)
        else
          let coupleChild := mkCouple positionChild n in
          match database with
          | Some db =>
              let coupleChild := snd (mergeComputedLands db coupleChild) in
              if Position.isTerminal (position coupleChild) then
                if Outcome_eqb (getOutcome coupleChild) Loss then (Some Win, children)
                else positionChildrenLoop database n rest children
              else positionChildrenLoop database n rest (children ++ [coupleChild])
          | None => positionChildrenLoop database n rest (children ++ [coupleChild])
          end
    end.

Definition DefaultCoupleComparer (first second : Couple) : bool :=
    let nimberWeight := 4 in
    let firstLives := toInt32 (getLives (position first) + nimberWeight * nimber first) in
    let secondLives := toInt32 (getLives (position second) + nimberWeight * nimber second) in
    if negb (firstLives =? secondLives)%Z then (firstLives <? secondLives)%Z
    else
      let firstLandsNumber := Position.getSubgamesNumber (position first) in
      let secondLandsNumber := Position.getSubgamesNumber (position second) in
      if isNormalImpartial && negb (firstLandsNumber =? secondLandsNumber)
      then secondLandsNumber <? firstLandsNumber
      else
        let firstChildrenEstimation := Position.estimateChildrenNumber (position first) in
        let secondChildrenEstimation := Position.estimateChildrenNumber (position second) in
        if negb (firstChildrenEstimation =? secondChildrenEstimation)
        then firstChildrenEstimation <? secondChildrenEstimation
        else String.ltb (to_string (position first)) (to_string (position second)).

  (** [Couple::computeChildren(const NimberDatabase *, std::vector<Couple> &)],
      fed with the position children it iterates over: the outcome and the
      vector [children] as the call leaves it. *)
Definition computeChildrenFrom (database : option NimberDatabase.t) (c : Couple)
      (positionChildren : list (list Land)) : Outcome * list Couple :=
    match getOutcome c with
    | Unknown =>
        match positionChildrenLoop database (nimber c) positionChildren (nimChildren c) with
        | (Some o, children) => (o, children)
        | (None, children) =>
            if Nat.eqb (length children) 0 then (Loss, children)
            else (Unknown, sort DefaultCoupleComparer children)
        end
    | o => (o, [])
    end.

  (** The public overload [computeChildren(database, children)]. *)
Definition computeChildren (database : NimberDatabase.t) (c : Couple) : Outcome * list Couple :=
    computeChildrenFrom (Some database) c (positionChildren (position c)).

  (** [computeChildren()] without a database. *)
Definition computeChildrenNoDb (c : Couple) : list Couple :=
    snd (computeChildrenFrom None c (positionChildren (position c))).
End WithGame.
End Couple.

(** ** bucket_table.hpp

    The locks only serialise accesses, so a call is modelled as one atomic
    step on the table. *)

(** What [BucketTable<Key, Value, Hash>] asks of its parameters. *)
Class TTKey (Key : Type) : Type := {
  keyDefault : Key;
  keyEqb : Key -> Key -> bool;
  keyHash : Key -> N
}.

Class TTValue (Value : Type) : Type := {
  valueDefault : Value;
  valueUpdate : Value -> Value -> Value;     (* [stored.update(other)] *)
  valueMark : Value -> Z -> Value;
  valueUnmark : Value -> Z -> Value;
  valueLt : Value -> Value -> bool           (* [a < b] *)
}.

Module BucketTable.
Section WithTypes.
  Context {Key Value : Type} `{KO : TTKey Key} `{VO : TTValue Value}.

Definition BUCKET_SIZE : nat := 4.

Record TTEntry : Type := mkEntry { key : Key; value : Value; occupied : bool }.
Definition emptyEntry : TTEntry := mkEntry keyDefault valueDefault false.
Definition newEntry (k : Key) (v : Value) : TTEntry := mkEntry k v true.

  (** [TTEntry entries[BUCKET_SIZE]] *)
Definition Bucket := list TTEntry.
Definition emptyBucket : Bucket := replicate BUCKET_SIZE emptyEntry.

Record t : Type := mk { data : list Bucket; _size : N }.

  (** [BucketTable(capacity)]: [data.resize(capacity / BUCKET_SIZE)]. *)
Definition create (capacity : N) : t :=
    mk (replicate (N.to_nat (capacity / N.of_nat BUCKET_SIZE)) emptyBucket) 0.

Definition size (tb : t) : N := _size tb.
Definition clear (tb : t) : t := mk (map (fun _ => emptyBucket) (data tb)) 0.

Definition entryAt (b : Bucket) (i : nat) : TTEntry := nth i b emptyEntry.
Definition bucketIdx (tb : t) (k : Key) : nat :=
    N.to_nat (keyHash k mod N.of_nat (length (data tb))).
Definition bucketAt (tb : t) (k : Key) : Bucket := nth (bucketIdx tb k) (data tb) emptyBucket.

  (** The scan of [insert]: [n] iterations are left, [i] is the loop index. *)
Fixpoint scan (b : Bucket) (k : Key) (n i replaceIdx : nat) : nat :=
    match n with
    | O => replaceIdx
    | S n' =>
        if negb (occupied (entryAt b i)) || keyEqb (key (entryAt b i)) k then i
        else
          let replaceIdx' :=
            if negb (Nat.eqb i 0) && valueLt (value (entryAt b i)) (value (entryAt b replaceIdx))
            then i else replaceIdx in
          scan b k n' (S i) replaceIdx'
    end.

Definition replaceIdx (b : Bucket) (k : Key) : nat := scan b k BUCKET_SIZE 0 0.

  (** What [insert] does to the chosen bucket: the new bucket, the returned
      [originalValue], and whether [_size] grows. *)
Definition insertBucket (b : Bucket) (k : Key) (v : Value) : Bucket * option Value * bool :=
    let r := replaceIdx b k in
    let e := entryAt b r in
    if negb (occupied e) then (<[r := newEntry k v]> b, None, true)
    else if keyEqb (key e) k then
      (<[r := mkEntry (key e) (valueUpdate (value e) v) true]> b, Some (value e), false)
    else (<[r := newEntry k v]> b, None, false).

Definition insert (tb : t) (k : Key) (v : Value) : t * option Value :=
    match data tb with
    | [] => (tb, None)
    | _ =>
        let '(b', originalValue, grown) := insertBucket (bucketAt tb k) k v in
        (mk (<[bucketIdx tb k := b']> (data tb)) (if grown then _size tb + 1 else _size tb),
         originalValue)
    end.

  (** The first of the [BUCKET_SIZE] entries whose key is [k]. *)
Fixpoint findFrom (b : Bucket) (k : Key) (n i : nat) : option TTEntry :=
    match n with
    | O => None
    | S n' => if keyEqb (key (entryAt b i)) k then Some (entryAt b i)
              else findFrom b k n' (S i)
    end.

Definition find (tb : t) (k : Key) : option TTEntry :=
    match data tb with
    | [] => None
    | _ => findFrom (bucketAt tb k) k BUCKET_SIZE 0
    end.

  (** [mark] and [unmark]: [f] is applied to the value of the first occupied
      entry with key [k]. *)
Fixpoint touchFrom (f : Value -> Value) (b : Bucket) (k : Key) (n i : nat) : Bucket :=
    match n with
    | O => b
    | S n' =>
        let e := entryAt b i in
        if occupied e && keyEqb (key e) k
        then <[i := mkEntry (key e) (f (value e)) (occupied e)]> b
        else touchFrom f b k n' (S i)
    end.

Definition touch (f : Value -> Value) (tb : t) (k : Key) : t :=
    match data tb with
    | [] => tb
    | _ => mk (<[bucketIdx tb k := touchFrom f (bucketAt tb k) k BUCKET_SIZE 0]> (data tb))
              (_size tb)
    end.

Definition mark (tb : t) (k : Key) (threadId : Z) : t :=
    touch (fun v => valueMark v threadId) tb k.
Definition unmark (tb : t) (k : Key) (threadId : Z) : t :=
    touch (fun v => valueUnmark v threadId) tb k.

  (** Iteration visits the occupied slots, bucket by bucket. *)
Definition entries (tb : t) : list TTEntry :=
    filter (fun e => occupied e = true) (concat (data tb)).
End WithTypes.
Arguments TTEntry Key Value : clear implicits.
Arguments Bucket Key Value : clear implicits.
Arguments t Key Value : clear implicits.
End BucketTable.

(** The key of the transposition table: [Couple::Compact] with
    [Couple::Compact::Hash]. *)
#[global] Instance Compact_TTKey `{G : Game} : TTKey Compact := {
  keyDefault := Compact.default;
  keyEqb := Compact.eqb;
  keyHash := fun c => hash_combine (hash_combine 0 (strHash (compactPosition c))) (compactNimber c)
}.

(** ** pns_database.hpp *)
Module PnsDatabase.
Section WithTypes.
  Context `{G : Game} {NodeInfo : Type} `{VO : TTValue NodeInfo}.

Definition DEFAULT_TABLE_CAPACITY : N := 50000000.
Definition t := BucketTable.t Compact NodeInfo.

Definition create (capacity : N) : t := BucketTable.create capacity.
Definition size (pns : t) : N := BucketTable.size pns.
Definition clear (pns : t) : t := BucketTable.clear pns.
Definition find (pns : t) (c : Compact) : option NodeInfo :=
    match BucketTable.find pns c with
    | Some e => Some (BucketTable.value e)
    | None => None
    end.
Definition insert (pns : t) (c : Compact) (info : NodeInfo) : t * option NodeInfo :=
    BucketTable.insert pns c info.
Definition mark (pns : t) (c : Compact) (threadId : Z) : t := BucketTable.mark pns c threadId.
Definition unmark (pns : t) (c : Compact) (threadId : Z) : t := BucketTable.unmark pns c threadId.
End WithTypes.
End PnsDatabase.

(** ** pns_node.hpp *)
Record State : Set := mkState { compactCouple : Compact; lives : N; isMultiLand : bool }.

Record Info : Set := mkInfo {
  proofNumbers : ProofNumbers;
  iterations : N;
  locked : bool;
  expanded : bool;
  overestimated : bool;
  mergedNimber : Nimber.t     (* used only for multi-land nodes *)
}.

(** [PnsNode<Game, Child>] *)
Record PnsNode (Child : Type) : Type := mkNode {
  state : State;
  info : Info;
  children : list Child
}.
Arguments mkNode {Child} state info children.
Arguments state {Child} p.
Arguments info {Child} p.
Arguments children {Child} p.

(** What a node reads from its children, whatever their storage. *)
Class ChildOps (Child : Type) : Type := {
  childCompactState : Child -> Compact;
  childProofNumbers : Child -> ProofNumbers;
  childIsLocked : Child -> bool
}.

Module PnsNode.
Section WithGame.
  Context `{G : Game}.

Definition mkStateOf (c : Couple) : State :=
    mkState (Couple.to_compact c) (getLives (position c)) (Position.isMultiLand (position c)).

  (** [Info(proofNumbers, iterations, locked)] *)
Definition mkInfoOf (pn : ProofNumbers) (its : N) (lk : bool) : Info :=
    mkInfo pn its lk false false 0.

Definition setProofNumbersField (i : Info) (pn : ProofNumbers) : Info :=
    mkInfo pn (iterations i) (locked i) (expanded i) (overestimated i) (mergedNimber i).
Definition setLocked (i : Info) (b : bool) : Info :=
    mkInfo (proofNumbers i) (iterations i) b (expanded i) (overestimated i) (mergedNimber i).
Definition setExpanded (i : Info) (b : bool) : Info :=
    mkInfo (proofNumbers i) (iterations i) (locked i) b (overestimated i) (mergedNimber i).
Definition setOverestimated (i : Info) (b : bool) : Info :=
    mkInfo (proofNumbers i) (iterations i) (locked i) (expanded i) b (mergedNimber i).
Definition setMergedNimber (i : Info) (n : Nimber.t) : Info :=
    mkInfo (proofNumbers i) (iterations i) (locked i) (expanded i) (overestimated i) n.
Definition setIterations (i : Info) (n : N) : Info :=
    mkInfo (proofNumbers i) n (locked i) (expanded i) (overestimated i) (mergedNimber i).

  Section WithChild.
    Context {Child : Type} `{CO : ChildOps Child}.

    Abbreviation Node := (PnsNode Child).

    (** [PnsNode(c, proofNumbers, iterations, locked)]; the shorter
        constructors default to [(1, 1)], [0] and [false]. *)
Definition create (c : Couple) (pn : ProofNumbers) (its : N) (lk : bool) : Node :=
      mkNode (mkStateOf c) (mkInfoOf pn its lk) [].

Definition withInfo (n : Node) (i : Info) : Node := mkNode (state n) i (children n).
Definition withChildren (n : Node) (cs : list Child) : Node := mkNode (state n) (info n) cs.

Definition getState (n : Node) : Couple := Couple.ofCompact (compactCouple (state n)).
Definition getCompactState (n : Node) : Compact := compactCouple (state n).
Definition getProofNumbers (n : Node) : ProofNumbers := proofNumbers (info n).
Definition isMultiLandNode (n : Node) : bool := isMultiLand (state n).
Definition isExpanded (n : Node) : bool := expanded (info n).
Definition isProved (n : Node) : bool :=
      ProofNumbers.isLoss (getProofNumbers n) || ProofNumbers.isWin (getProofNumbers n).
Definition isLocked (n : Node) : bool := locked (info n).
Definition hasUpdated (n : Node) (previousInfo : Info) : bool :=
      negb (PN.eqb (proof (getProofNumbers n)) (proof (proofNumbers previousInfo)))
      || negb (PN.eqb (disproof (getProofNumbers n)) (disproof (proofNumbers previousInfo)))
      || negb (Bool.eqb (locked (info n)) (locked previousInfo)).

Definition lock (n : Node) : Node := withInfo n (setLocked (info n) true).
Definition unlock (n : Node) : Node := withInfo n (setLocked (info n) false).
Definition addIterations (n : Node) (newIterations : N) : Node :=
      withInfo n (setIterations (info n) (wrap64 (iterations (info n) + newIterations))).

    (** [getChild(idx)] asserts [idx < children.size()]. *)
Definition getChild (n : Node) (idx : nat) : Res Child :=
      match children n !! idx with
      | Some c => Ok c
      | None => Throw assertion_failure
      end.

    (** The base [getChildComplexity]. *)
Definition getChildComplexity (n : Node) (childIdx : nat) : Res PN.value_type :=
      c ← getChild n childIdx;
      let childProofNumbers := childProofNumbers c in
      if isMultiLandNode n
      then Ok (PN.min (proof childProofNumbers) (disproof childProofNumbers))
      else Ok (disproof childProofNumbers).

Definition close (n : Node) : Node :=
      mkNode (state n) (setMergedNimber (setExpanded (info n) false) 0) [].

Definition setToWin (n : Node) : Node :=
      let n := close n in
      withInfo n (setProofNumbersField (setLocked (info n) false) (mkPN 0 PN.INF)).

Definition setToLoss (n : Node) : Node :=
      let n := close n in
      withInfo n (setProofNumbersField (setLocked (info n) false) (mkPN PN.INF 0)).

Definition setProofNumbers (n : Node) (pn : ProofNumbers) : Node :=
      if ProofNumbers.isWin pn then setToWin n
      else if ProofNumbers.isLoss pn then setToLoss n
      else withInfo n (setProofNumbersField (info n) pn).

    (** [expand(std::vector<Child> &&children, Nimber mergedNimber)] *)
Definition expandWith (n : Node) (cs : list Child) (merged : Nimber.t) : Res Node :=
      if isExpanded n then Throw assertion_failure
      else Ok (mkNode (state n) (setMergedNimber (setExpanded (info n) true) merged) cs).

    (** A [ChildFactory] builds a child from its couple.  The parent pointer
        it also receives serves the back-links of [PnsTree] only. *)
Definition ChildFactory := Couple -> Child.

Definition expandLands (factory : ChildFactory) (n : Node) : Node :=
      let st := getState n in
      let subgames := sort Heuristics.DefaultGameComparer (Position.getSubgames (position st)) in
      mkNode (state n) (setMergedNimber (info n) (nimber st))
             (children n ++ map (fun subgame => factory (mkCouple subgame 0)) subgames).

Definition expandSingleLandChildren (factory : ChildFactory)
        (nimberDatabase : NimberDatabase.t) (cs : option (list Couple)) (n : Node) : Node :=
      match cs with
      | None =>
          match Couple.computeChildren nimberDatabase (getState n) with
          | (Unknown, computedChildren) =>
              withChildren n (children n ++ map factory computedChildren)
          | (Win, _) => setToWin n
          | (Loss, _) => setToLoss n
          end
      | Some cs => withChildren n (children n ++ map factory cs)
      end.

Definition _expand (factory : ChildFactory) (nimberDatabase : NimberDatabase.t)
        (cs : option (list Couple)) (n : Node) : Res Node :=
      if isExpanded n then Throw assertion_failure
      else
        let n := withInfo n (setExpanded (info n) true) in
        if isMultiLandNode n then Ok (expandLands factory n)
        else Ok (expandSingleLandChildren factory nimberDatabase cs n).

Definition expand (factory : ChildFactory) (nimberDatabase : NimberDatabase.t) (n : Node)
      : Res Node := _expand factory nimberDatabase None n.

    (** *** Updating a node from its children *)

Definition updateLock (n : Node) : Node :=
      withInfo n (setLocked (info n) (forallb childIsLocked (children n))).

    (** [children.size() - 1] as the [size_t] it is, turned into a [Value]. *)
Definition sizeMinusOne (n : Node) : PN.value_type :=
      wrap64 (N.of_nat (length (children n)) + (2 ^ 64 - 1)).

    (** [getChildComplexity] is virtual; the update below and the selection
        of the most-proving child go through the override of the node type. *)
    Section WithComplexity.
      Variable complexity : Node -> nat -> Res PN.value_type.

Fixpoint multiLandLoop (n : Node) (count i : nat) (acc : PN.value_type)
        : Res PN.value_type :=
        match count with
        | O => Ok acc
        | S count' =>
            c ← complexity n i;
            acc' ← (if negb (overestimated (info n)) then PN.add acc c
                    else Ok (PN.max acc c));
            multiLandLoop n count' (S i) acc'
        end.

Definition updateMultiLandProofNumbers (n : Node) : Res Node :=
        match children n with
        | [c] => Ok (withInfo n (setProofNumbersField (info n) (childProofNumbers c)))
        | _ =>
            p ← multiLandLoop n (length (children n)) 0 0;
            p ← (if overestimated (info n) then PN.add p (sizeMinusOne n) else Ok p);
            Ok (withInfo n (setProofNumbersField (info n) (mkPN p p)))
        end.

Fixpoint singleLandLoop (n : Node) (cs : list Child) (pn : ProofNumbers)
        : Res ProofNumbers :=
        match cs with
        | [] => Ok pn
        | child :: rest =>
            d ← (if negb (overestimated (info n))
                 then PN.add (disproof pn) (proof (childProofNumbers child))
                 else Ok (PN.max (disproof pn) (proof (childProofNumbers child))));
            let p :=
              if isLocked n then PN.max (proof pn) (disproof (childProofNumbers child))
              else if negb (childIsLocked child)
                   then PN.min (proof pn) (disproof (childProofNumbers child))
                   else proof pn in
            singleLandLoop n rest (mkPN p d)
        end.

Definition updateSingleLandProofNumbers (n : Node) : Res Node :=
        pn ← singleLandLoop n (children n)
               (mkPN (if negb (isLocked n) then PN.INF else 0) 0);
        d ← (if overestimated (info n) then PN.add (disproof pn) (sizeMinusOne n)
             else Ok (disproof pn));
        Ok (withInfo n (setProofNumbersField (info n) (mkPN (proof pn) d))).

Definition updateInfo (n : Node) : Res Node :=
        if isProved n || negb (isExpanded n) then Ok n
        else
          let n := updateLock n in
          if isMultiLandNode n then updateMultiLandProofNumbers n
          else updateSingleLandProofNumbers n.
    End WithComplexity.

    (** The walk of [updateSingleLandChildren]: [Some kept] are the children
        that stay, [None] says a lost child was met. *)
Fixpoint singleLandWalk (cs : list Child) : option (list Child) :=
      match cs with
      | [] => Some []
      | child :: rest =>
          if ProofNumbers.isLoss (childProofNumbers child) then None
          else if ProofNumbers.isWin (childProofNumbers child) then singleLandWalk rest
          else cons child <$> singleLandWalk rest
      end.

Definition updateSingleLandChildren (n : Node) : Node :=
      match singleLandWalk (children n) with
      | None => setToWin n
      | Some [] => setToLoss n
      | Some kept => withChildren n kept
      end.

    (** The [while] loop of [updateLands]: [done] are the lands already
        passed, [todo] starts at the iterator.  Replacing a won land by the
        same land with the next nimber looks at that slot again, so the loop
        is driven by fuel. *)
Fixpoint updateLandsLoop (fuel : nat) (factory : ChildFactory)
        (nimberDatabase : NimberDatabase.t) (merged : Nimber.t) (done todo : list Child)
      : Res (Nimber.t * list Child) :=
      match fuel with
      | O => OutOfFuel
      | S fuel' =>
          match todo with
          | [] => Ok (merged, done)
          | land :: rest =>
              let landCompactCouple := childCompactState land in
              let landProofNumbers := childProofNumbers land in
              match NimberDatabase.get nimberDatabase (compactPosition landCompactCouple) with
              | Some storedNimber =>
                  updateLandsLoop fuel' factory nimberDatabase
                    (Nimber.mergeNimbers merged storedNimber) done rest
              | None =>
                  if ProofNumbers.isLoss landProofNumbers then
                    updateLandsLoop fuel' factory nimberDatabase
                      (Nimber.mergeNimbers merged (compactNimber landCompactCouple)) done rest
                  else if ProofNumbers.isWin landProofNumbers then
                    updateLandsLoop fuel' factory nimberDatabase merged done
                      (factory (mkCouple (of_string (compactPosition landCompactCouple))
                                         (Nimber.add (compactNimber landCompactCouple) 1))
                       :: rest)
                  else updateLandsLoop fuel' factory nimberDatabase merged (done ++ [land]) rest
              end
          end
      end.

Definition updateLands (fuel : nat) (factory : ChildFactory)
        (nimberDatabase : NimberDatabase.t) (n : Node) : Res Node :=
      n ← (if Nat.ltb 1 (length (children n)) then
             '(merged, cs) ← updateLandsLoop fuel factory nimberDatabase
                               (mergedNimber (info n)) [] (children n);
             Ok (mkNode (state n) (setMergedNimber (info n) merged) cs)
           else Ok n);
      match children n with
      | [lastChild] =>
          let lastChild :=
            if negb (Nimber.eqb (compactNimber (childCompactState lastChild))
                                (mergedNimber (info n)))
            then factory (mkCouple (of_string (compactPosition (childCompactState lastChild)))
                                   (mergedNimber (info n)))
            else lastChild in
          let n := withChildren n [lastChild] in
          if ProofNumbers.isWin (childProofNumbers lastChild) then Ok (setToWin n)
          else if ProofNumbers.isLoss (childProofNumbers lastChild) then Ok (setToLoss n)
          else Ok n
      | [] => if Nimber.isWin (mergedNimber (info n)) then Ok (setToWin n) else Ok (setToLoss n)
      | _ => Ok n
      end.

Definition updateChildren (fuel : nat) (factory : ChildFactory)
        (nimberDatabase : NimberDatabase.t) (n : Node) : Res Node :=
      if isProved n || negb (isExpanded n) then Ok n
      else if isMultiLandNode n then updateLands fuel factory nimberDatabase n
      else Ok (updateSingleLandChildren n).

Definition update (complexity : Node -> nat -> Res PN.value_type) (fuel : nat)
        (factory : ChildFactory) (nimberDatabase : NimberDatabase.t) (n : Node) : Res Node :=
      n ← updateChildren fuel factory nimberDatabase n;
      updateInfo complexity n.

    (** *** Choosing the most-proving child *)

    (** The generator [std::mt19937 *rng] is a draw for each bound, if there
        is one at all. *)
Definition Rng := option (nat -> nat).

    Section WithComplexity.
      Variable complexity : Node -> nat -> Res PN.value_type.

      (** The loop of [getMpnIdx]; its state is [bestIndices], [mpn2Idx] and
          [bestComplexity]. *)
Fixpoint mpnLoop (n : Node) (landSwitching : bool) (count i : nat)
          (st : list nat * option nat * PN.value_type)
        : Res (list nat * option nat * PN.value_type) :=
        match count with
        | O => Ok st
        | S count' =>
            child ← getChild n i;
            if negb (childIsLocked child) then
              let '(bestIndices, mpn2Idx, bestComplexity) := st in
              childComplexity ← complexity n i;
              st' ← (if Nat.eqb (length bestIndices) 0 || PN.ltb childComplexity bestComplexity
                     then Ok ([i], match bestIndices with b :: _ => Some b | [] => mpn2Idx end,
                              childComplexity)
                     else if PN.eqb childComplexity bestComplexity
                     then Ok (bestIndices ++ [i], mpn2Idx, bestComplexity)
                     else match mpn2Idx with
                          | None => Ok (bestIndices, Some i, bestComplexity)
                          | Some j =>
                              c2 ← complexity n j;
                              if PN.ltb childComplexity c2
                              then Ok (bestIndices, Some i, bestComplexity)
                              else Ok (bestIndices, mpn2Idx, bestComplexity)
                          end);
              if negb landSwitching && isMultiLandNode n then Ok st'
              else mpnLoop n landSwitching count' (S i) st'
            else mpnLoop n landSwitching count' (S i) st
        end.

Definition getMpnIdx (rng : Rng) (landSwitching : bool) (n : Node)
        : Res (nat * option nat) :=
        '(bestIndices, mpn2Idx, _) ←
          mpnLoop n landSwitching (length (children n)) 0 ([], None, PN.INF);
        match bestIndices with
        | [] => Throw assertion_failure
        | first :: others =>
            let mpnIdx :=
              match rng, others with
              | Some draw, _ :: _ =>
                  nth (draw (length bestIndices) mod length bestIndices)%nat bestIndices first
              | _, _ => first
              end in
            let mpn2Idx :=
              match others with
              | [] => mpn2Idx
              | _ => match List.find (fun idx => negb (Nat.eqb idx mpnIdx)) bestIndices with
                     | Some idx => Some idx
                     | None => mpn2Idx
                     end
              end in
            Ok (mpnIdx, mpn2Idx)
        end.
    End WithComplexity.
  End WithChild.
End WithGame.
End PnsNode.

(** ** dfpn.hpp: the thresholds of df-pn *)
Record Thresholds : Set := mkThresholds {
  proofTh : PN.value_type;
  disproofTh : PN.value_type;
  pShift : PN.value_type;
  dShift : PN.value_type;
  minTh : PN.value_type
}.

Module Thresholds.
Section WithChild.
  Context {Child : Type} `{CO : ChildOps Child}.

Definition default : Thresholds := mkThresholds PN.INF PN.INF 0 0 PN.INF.

Definition areHolding (th : Thresholds) (n : PnsNode Child) : Res bool :=
    let pn := proofNumbers (info n) in
    if PN.ltb (proof pn) (proofTh th) && PN.ltb (disproof pn) (disproofTh th) then
      a ← PN.add (proof pn) (pShift th);
      b ← PN.add (disproof pn) (dShift th);
      Ok (PN.ltb (PN.min a b) (minTh th))
    else Ok false.

  (** [getSwitchingThreshold] belongs to the node type. *)
  Section WithSwitching.
    Variable getSwitchingThreshold : PnsNode Child -> nat -> nat -> Res PN.value_type.

Definition switchingThOf (n : PnsNode Child) (mpnIdx : nat) (mpn2Idx : option nat)
      : Res PN.value_type :=
      match mpn2Idx with
      | Some i => getSwitchingThreshold n mpnIdx i
      | None => Ok PN.INF
      end.

Definition toLandMpnThresholds (th : Thresholds) (n : PnsNode Child)
        (mpnIdx : nat) (mpn2Idx : option nat) : Res Thresholds :=
      if Nat.eqb (length (children n)) 1 then Ok th
      else
        mpn ← PnsNode.getChild n mpnIdx;
        switchingTh ← switchingThOf n mpnIdx mpn2Idx;
        let parentProof := proof (proofNumbers (info n)) in
        let mpnProof := proof (childProofNumbers mpn) in
        let mpnDisproof := disproof (childProofNumbers mpn) in
        a ← PN.sub (minTh th) (PN.min (pShift th) (dShift th));
        b ← PN.sub (PN.min (PN.min (proofTh th) (disproofTh th)) a) parentProof;
        c ← PN.add b (PN.min mpnProof mpnDisproof);
        Ok (mkThresholds PN.INF PN.INF 0 0 (PN.min switchingTh c)).

    (** For [epsilon <= 1], which is what every caller passes (the default
        [1.0f]). *)
Definition toPlainMpnThresholds (th : Thresholds) (n : PnsNode Child)
        (mpnIdx : nat) (mpn2Idx : option nat) : Res Thresholds :=
      mpn ← PnsNode.getChild n mpnIdx;
      switchingTh ← switchingThOf n mpnIdx mpn2Idx;
      let parentDisproof := disproof (PnsNode.getProofNumbers n) in
      let mpnProof := proof (childProofNumbers mpn) in
      a ← PN.sub (disproofTh th) parentDisproof;
      mpnProofTh ← PN.add a mpnProof;
      let mpnDisproofTh := PN.min (proofTh th) switchingTh in
      b ← PN.add (dShift th) parentDisproof;
      mpnPShift ← PN.sub b mpnProof;
      Ok (mkThresholds mpnProofTh mpnDisproofTh mpnPShift (pShift th) (minTh th)).

Definition toMpnThresholds (th : Thresholds) (n : PnsNode Child)
        (mpnIdx : nat) (mpn2Idx : option nat) : Res Thresholds :=
      if PnsNode.isMultiLandNode n then toLandMpnThresholds th n mpnIdx mpn2Idx
      else toPlainMpnThresholds th n mpnIdx mpn2Idx.
  End WithSwitching.
End WithChild.
End Thresholds.

(** ** Text: what the sources take from [<string>] *)
Module Text.

Definition digitChar (d : N) : ascii := ascii_of_N (48 + d).

  (** [std::to_string] of a non-negative integer. *)
Fixpoint decimalAux (fuel : nat) (n : N) (acc : string) : string :=
    match fuel with
    | O => acc
    | S fuel' =>
        let acc' := String (digitChar (n mod 10)) acc in
        if n <? 10 then acc' else decimalAux fuel' (n / 10) acc'
    end.
Definition decimal (n : N) : string := decimalAux (S (N.to_nat (N.log2 n))) n EmptyString.

  (** [isspace] of the C locale. *)
Definition isspace (c : ascii) : bool :=
    let k := N_of_ascii c in (k =? 32) || ((9 <=? k) && (k <=? 13)).
Definition isdigit (c : ascii) : bool :=
    let k := N_of_ascii c in (48 <=? k) && (k <=? 57).
Definition digitValue (c : ascii) : N := N_of_ascii c - 48.

Fixpoint skipSpaces (s : string) : string :=
    match s with
    | String c s' => if isspace c then skipSpaces s' else s
    | EmptyString => s
    end.

  (** The digits a number starts with, folded from the left. *)
Fixpoint digitsValue (s : string) (acc : N) : N :=
    match s with
    | String c s' => if isdigit c then digitsValue s' (acc * 10 + digitValue c) else acc
    | EmptyString => acc
    end.

Definition startsWithDigit (s : string) : bool :=
    match s with String c _ => isdigit c | EmptyString => false end.

  (** [std::stoul(str)] in base 10: [None] stands for [std::invalid_argument]
      (no digits) and [std::out_of_range] alike. *)
Definition stoul (s : string) : option N :=
    let s := skipSpaces s in
    let '(negative, s) :=
      match s with
      | String "-"%char s' => (true, s')
      | String "+"%char s' => (false, s')
      | _ => (false, s)
      end in
    if startsWithDigit s then
      let v := digitsValue s 0 in
      if SIZE_MAX <? v then None
      else Some (if negative then wrap64 (2 ^ 64 - v) else v)
    else None.

  (** [s.find_first_of(" ")] cuts [s] in the text before the first space and,
      if there is one, the text after it. *)
Fixpoint splitAtSpace (s : string) : string * option string :=
    match s with
    | EmptyString => (EmptyString, None)
    | String c s' =>
        if Ascii.eqb c " "%char then (EmptyString, Some s')
        else let '(before, after) := splitAtSpace s' in (String c before, after)
    end.

  (** The lines [getline] hands out: a line ends at ["\n"], and what is left
      at the end of the file is a line only if it is not empty. *)
Fixpoint getlines (cur : string) (s : string) : list string :=
    match s with
    | EmptyString => match cur with EmptyString => [] | _ => [cur] end
    | String c s' =>
        if Ascii.eqb c "010"%char then cur :: getlines EmptyString s'
        else getlines (cur ++ String c EmptyString)%string s'
    end.

  (** [f << line << std::endl] for every line. *)
Definition writeLines (ls : list string) : string :=
    fold_right (fun l acc => (l ++ String "010"%char acc)%string) EmptyString ls.
End Text.

(** [Couple::to_string(positionStr, nimberStr)] with the separator [' ']. *)
Definition Compact_to_string (c : Compact) : string :=
  (compactPosition c ++ " " ++ Text.decimal (compactNimber c))%string.

(** ** nimber_database.hpp: the file *)
Module NimberDatabaseFile.
Section WithGame.
  Context `{G : Game}.

Definition header : string :=
    (if isNormalImpartial then "[Positions+Nimber]" else "[WinLoss_Misere:Losing_Position]")%string.

Definition entryLine (e : string * Nimber.t) : string :=
    if isNormalImpartial then (fst e ++ " " ++ Text.decimal (snd e))%string else fst e.

  (** [store] writes the header and one line per entry.  The entries come in
      the iteration order of the [unordered_map], which the caller of
      [storeFrom] supplies. *)
Definition storeFrom (entries : list (string * Nimber.t)) (sorted : bool) : string :=
    let outputStrings := map entryLine entries in
    Text.writeLines (header :: (if sorted then sort String.ltb outputStrings else outputStrings)).

Definition store (db : NimberDatabase.t) (sorted : bool) : string :=
    storeFrom (map_to_list (NimberDatabase.data db)) sorted.

  (** [parseLine]: [None] when the line is reported as invalid. *)
Definition parseLine (line : string) : option (string * Nimber.t) :=
    let '(positionStr, after) := Text.splitAtSpace line in
    let nimberStr :=
      if isNormalImpartial then match after with Some r => r | None => line end
      else "0"%string in
    match Text.stoul nimberStr with
    | Some v => Some (positionStr, Nimber.wrap8 v)
    | None => None
    end.

Definition loadLine (st : gmap string Nimber.t * N) (line : string)
    : gmap string Nimber.t * N :=
    let '(m, inserted) := st in
    if String.eqb line "[Positions+Nimber]"%string
       || String.eqb line "[WinLoss_Misere:Losing_Position]"%string
       || String.eqb line EmptyString
    then st
    else match parseLine line with
         | Some (compactPosition, nimber) =>
             let '(m', fresh) := NimberDatabase.insertIfAbsent m compactPosition nimber in
             (m', if fresh then inserted + 1 else inserted)
         | None => st
         end.

  (** [load(filePath)] on the text of the file: the database and the number
      of insertions. *)
Definition load (db : NimberDatabase.t) (file : string) : NimberDatabase.t * N :=
    let '(m, inserted) :=
      fold_left loadLine (Text.getlines EmptyString file) (NimberDatabase.data db, 0) in
    (NimberDatabase.mk m (NimberDatabase.trackNew db) (NimberDatabase.trackedData db), inserted).
End WithGame.
End NimberDatabaseFile.

(** [PnsNodeExpansionInfo] *)
Record PnsNodeExpansionInfo : Type := mkExpansionInfo {
  parentStr : string;
  expansionProofNumbers : ProofNumbers;
  expansionMergedNimber : Nimber.t;
  expansionChildren : list (string * ProofNumbers)
}.

Definition getExpansionInfo {Child : Type} `{CO : ChildOps Child} (n : PnsNode Child)
  : PnsNodeExpansionInfo :=
  mkExpansionInfo (Compact_to_string (compactCouple (state n)))
                  (proofNumbers (info n))
                  (mergedNimber (info n))
                  (map (fun c => (Compact_to_string (childCompactState c), childProofNumbers c))
                       (children n)).

(** ** heuristics.hpp: the estimators *)
Module Estimator.
Section WithGame.
  Context `{G : Game}.
Definition t := Couple -> ProofNumbers.
Definition DefaultProofNumberEstimator : t := fun _ => mkPN 1 1.
Definition DepthProofNumberEstimator : t := fun c =>
    mkPN (wrap64 (1 + Couple.estimateProofDepth c)) (wrap64 (1 + Couple.estimateDisproofDepth c)).
End WithGame.
End Estimator.

(** ** solver.hpp: what all PNS solvers share *)
Definition NO_LIMIT : N := 0.

(** ** dfpn.hpp: the sequential df-pn *)
Module StoredNodeInfo.
Record t : Set := mk { proofNumbers : ProofNumbers; iterations : N }.
Definition default : t := mk ProofNumbers.default 0.
Definition update (self other : t) : t :=
    if ProofNumbers.isProved (proofNumbers self) then self
    else mk (proofNumbers other) (N.max (iterations self) (iterations other)).
Definition lt (self other : t) : bool :=
    ProofNumbers.isProved (proofNumbers self) || (iterations self <? iterations other).
End StoredNodeInfo.

#[global] Instance StoredNodeInfo_TTValue : TTValue StoredNodeInfo.t := {
  valueDefault := StoredNodeInfo.default;
  valueUpdate := StoredNodeInfo.update;
  valueMark := fun v _ => v;
  valueUnmark := fun v _ => v;
  valueLt := StoredNodeInfo.lt
}.

Module DfpnSolver.
  (** A node stores its children in itself. *)
Inductive Node : Type := MkNode (n : PnsNode Node).
Definition unNode (x : Node) : PnsNode Node := match x with MkNode n => n end.

#[global] Instance Node_ChildOps : ChildOps Node := {
    childCompactState := fun c => compactCouple (state (unNode c));
    childProofNumbers := fun c => proofNumbers (info (unNode c));
    childIsLocked := fun c => locked (info (unNode c))
  }.

Section WithGame.
  Context `{G : Game}.

Definition getSwitchingThreshold (n : PnsNode Node) (_ mpn2Idx : nat) : Res PN.value_type :=
    c ← PnsNode.getChildComplexity n mpn2Idx;
    PN.add c 1.

  (** The state of the solver.  The logger and the timed backup of the nimber
      database to a file only observe it and are left out. *)
Record t : Type := mk {
    nimberDatabase : NimberDatabase.t;
    pnsDatabase : BucketTable.t Compact StoredNodeInfo.t;
    iterations : N;
    maxIterations : N;
    currentTreeSize : N;
    maxTreeSize : N
  }.

Record Config : Type := mkConfig { estimator : Estimator.t; rng : PnsNode.Rng }.

Definition create (db : NimberDatabase.t) (ttCapacity : N) : t :=
    mk db (PnsDatabase.create ttCapacity) 0 NO_LIMIT 0 0.

Definition maxIterationsReached (s : t) : bool :=
    negb (maxIterations s =? NO_LIMIT) && (maxIterations s <=? iterations s).

  (** [initChildFactory]: a fresh node with the numbers of the table, or the
      estimate. *)
Definition childFactory (cfg : Config) (s : t) : PnsNode.ChildFactory (Child := Node) :=
    fun couple =>
      match PnsDatabase.find (pnsDatabase s) (Couple.to_compact couple) with
      | Some i => MkNode (PnsNode.create couple (StoredNodeInfo.proofNumbers i)
                                         (StoredNodeInfo.iterations i) false)
      | None => MkNode (PnsNode.create couple (estimator cfg couple) 0 false)
      end.

Definition updateDatabases (s : t) (node : PnsNode Node) : t :=
    let compactCouple := PnsNode.getCompactState node in
    let '(mkInfo nodeProofNumbers nodeIterations _ _ _ _) := info node in
    let ndb :=
      if ProofNumbers.isLoss nodeProofNumbers && negb (PnsNode.isMultiLandNode node)
      then NimberDatabase.insert (nimberDatabase s) (compactPosition compactCouple)
                                 (compactNimber compactCouple)
      else nimberDatabase s in
    let table := fst (PnsDatabase.insert (pnsDatabase s) compactCouple
                     (StoredNodeInfo.mk nodeProofNumbers nodeIterations)) in
    mk ndb table (iterations s) (maxIterations s) (currentTreeSize s) (maxTreeSize s).

Definition nodeUpdate (fuel : nat) (cfg : Config) (s : t) (node : PnsNode Node)
    : Res (PnsNode Node) :=
    PnsNode.update PnsNode.getChildComplexity fuel (childFactory cfg s) (nimberDatabase s) node.

Definition enterNode (s : t) (children_num : N) : t :=
    let cur := wrap64 (currentTreeSize s + children_num) in
    let total := wrap64 (cur + PnsDatabase.size (pnsDatabase s)) in
    mk (nimberDatabase s) (pnsDatabase s) (wrap64 (iterations s + 1)) (maxIterations s)
       cur (if maxTreeSize s <? total then total else maxTreeSize s).

Definition leaveNode (s : t) (children_num : N) : t :=
    mk (nimberDatabase s) (pnsDatabase s) (iterations s) (maxIterations s)
       (wrap64 (currentTreeSize s + (2 ^ 64 - children_num))) (maxTreeSize s).

  (** [dfpn(node, thresholds)] and its [while] loop.  The result is the
      solver, the node as the call leaves it, and [localIterations]. *)
Fixpoint dfpn (fuel : nat) (cfg : Config) (s : t) (node : PnsNode Node) (th : Thresholds)
    : Res (t * PnsNode Node * N) :=
    match fuel with
    | O => OutOfFuel
    | S fuel' =>
        node ← PnsNode.expand (childFactory cfg s) (nimberDatabase s) node;
        node ← nodeUpdate fuel' cfg s node;
        let children_num := N.of_nat (length (children node)) in
        let s := enterNode s children_num in
        '(s, node, localIterations) ← dfpnLoop fuel' cfg s node th 1;
        let node := PnsNode.addIterations node localIterations in
        let s := updateDatabases s node in
        let s := leaveNode s children_num in
        Ok (s, PnsNode.close node, localIterations)
    end
  with dfpnLoop (fuel : nat) (cfg : Config) (s : t) (node : PnsNode Node) (th : Thresholds)
      (localIterations : N) : Res (t * PnsNode Node * N) :=
    match fuel with
    | O => OutOfFuel
    | S fuel' =>
        holding ← Thresholds.areHolding th node;
        if holding && negb (maxIterationsReached s) then
          '(mpnIdx, mpn2Idx) ← PnsNode.getMpnIdx PnsNode.getChildComplexity (rng cfg) false node;
          mpn ← PnsNode.getChild node mpnIdx;
          mpnTh ← Thresholds.toMpnThresholds getSwitchingThreshold th node mpnIdx mpn2Idx;
          '(s, mpn, mpnIterations) ← dfpn fuel' cfg s (unNode mpn) mpnTh;
          let node := PnsNode.withChildren node (<[mpnIdx := MkNode mpn]> (children node)) in
          let localIterations := wrap64 (localIterations + mpnIterations) in
          node ← nodeUpdate fuel' cfg s node;
          dfpnLoop fuel' cfg s node th localIterations
        else Ok (s, node, localIterations)
    end.

  (** [_expandCouple] *)
Definition _expandCouple (fuel : nat) (cfg : Config) (s : t) (couple : Couple)
    : Res (t * PnsNodeExpansionInfo) :=
    let s := mk (nimberDatabase s) (pnsDatabase s) (iterations s) (maxIterations s) 0 0 in
    let root := PnsNode.create couple (mkPN 1 1) 0 false in
    '(s, root, _) ← dfpn fuel cfg s root Thresholds.default;
    root ← PnsNode.expand (childFactory cfg s) (nimberDatabase s) root;
    root ← nodeUpdate fuel cfg s root;
    Ok (s, getExpansionInfo root).

  (** [PnsSolver::expandCouple] *)
Definition expandCouple (fuel : nat) (cfg : Config) (s : t) (couple : Couple)
      (maxIterations : N) : Res (t * PnsNodeExpansionInfo) :=
    let s := mk (nimberDatabase s) (pnsDatabase s) 0 maxIterations
                (currentTreeSize s) (maxTreeSize s) in
    _expandCouple fuel cfg s couple.

  (** [PnsSolver::solveCouple] *)
Definition solveCouple (fuel : nat) (cfg : Config) (s : t) (couple : Couple)
    : Res (t * Outcome) :=
    '(s, i) ← expandCouple fuel cfg s couple NO_LIMIT;
    Ok (s, ProofNumbers.toOutcome (expansionProofNumbers i)).
End WithGame.
End DfpnSolver.

(** ** parallel_dfpn.hpp *)
Module StoredParallelNodeInfo.
Record t : Type := mk { proofNumbers : ProofNumbers; iterations : N; threadIds : gset Z }.
Definition default : t := mk ProofNumbers.default 0 ∅.
Definition update (self other : t) : t :=
    if ProofNumbers.isProved (proofNumbers self) then self
    else mk (proofNumbers other) (N.max (iterations self) (iterations other)) (threadIds self).
Definition mark (self : t) (threadId : Z) : t :=
    mk (proofNumbers self) (iterations self) ({[threadId]} ∪ threadIds self).
Definition unmark (self : t) (threadId : Z) : t :=
    mk (proofNumbers self) (iterations self) (threadIds self ∖ {[threadId]}).
Definition lt (self other : t) : bool :=
    ProofNumbers.isProved (proofNumbers self) || (iterations self <? iterations other).
End StoredParallelNodeInfo.

#[global] Instance StoredParallelNodeInfo_TTValue : TTValue StoredParallelNodeInfo.t := {
  valueDefault := StoredParallelNodeInfo.default;
  valueUpdate := StoredParallelNodeInfo.update;
  valueMark := StoredParallelNodeInfo.mark;
  valueUnmark := StoredParallelNodeInfo.unmark;
  valueLt := StoredParallelNodeInfo.lt
}.

(** mailbox.hpp: a set of compact couples. *)
Module Mailbox.
Definition t := list Compact.
Definition contains (m : t) (c : Compact) : bool := existsb (Compact.eqb c) m.
Definition notify (m : t) (c : Compact) : t := if contains m c then m else m ++ [c].
  (** [extract_all] hands out the messages and leaves the box empty. *)
Definition extract_all (m : t) : t * t := (m, []).
Definition clear (m : t) : t := [].
End Mailbox.

Module ParallelDfpn.
Inductive Node : Type := MkNode (n : PnsNode Node) (workingThreadsNum : N).
Definition unNode (x : Node) : PnsNode Node := match x with MkNode n _ => n end.
Definition getWorkingThreadsNum (x : Node) : N := match x with MkNode _ w => w end.

#[global] Instance Node_ChildOps : ChildOps Node := {
    childCompactState := fun c => compactCouple (state (unNode c));
    childProofNumbers := fun c => proofNumbers (info (unNode c));
    childIsLocked := fun c => locked (info (unNode c))
  }.

Section WithGame.
  Context `{G : Game}.

  (** The override of [getChildComplexity]. *)
Definition getChildComplexity (n : PnsNode Node) (childIdx : nat) : Res PN.value_type :=
    c ← PnsNode.getChild n childIdx;
    let childProofNumbers := childProofNumbers c in
    let childThreadsNum := getWorkingThreadsNum c in
    if PnsNode.isMultiLandNode n
    then PN.add (PN.min (proof childProofNumbers) (disproof childProofNumbers)) childThreadsNum
    else PN.add (disproof childProofNumbers) childThreadsNum.

Definition getSwitchingThreshold (n : PnsNode Node) (mpnIdx mpn2Idx : nat)
    : Res PN.value_type :=
    mpn2Complexity ← getChildComplexity n mpn2Idx;
    if PN.is_inf mpn2Complexity then Ok PN.INF
    else
      mpn ← PnsNode.getChild n mpnIdx;
      a ← PN.add mpn2Complexity 1;
      PN.sub a (getWorkingThreadsNum mpn).

  (** [Node::updateInfo(proofNumbers, iterations, workingThreadsNum)] *)
Definition childUpdateInfo (c : Node) (pn : ProofNumbers) (its w : N) : Node :=
    let n := unNode c in
    MkNode (PnsNode.withInfo n
              (PnsNode.setIterations (PnsNode.setProofNumbersField (info n) pn) its)) w.

Record Config : Type := mkConfig {
    workersNum : N;
    estimator : Estimator.t;
    rng : PnsNode.Rng;              (* the generator of the solver *)
    rngs : Z -> PnsNode.Rng         (* one generator per worker *)
  }.

Record t : Type := mk {
    nimberDatabase : NimberDatabase.t;
    pnsDatabase : BucketTable.t Compact StoredParallelNodeInfo.t;
    iterations : N;
    maxIterations : N;
    terminate : bool;
    mailboxes : list Mailbox.t
  }.

Definition create (cfg : Config) (db : NimberDatabase.t) (ttCapacity : N) : t :=
    mk db (PnsDatabase.create ttCapacity) 0 NO_LIMIT false
       (replicate (N.to_nat (workersNum cfg)) []).

Definition childFactory (cfg : Config) (s : t) : PnsNode.ChildFactory (Child := Node) :=
    fun couple =>
      match PnsDatabase.find (pnsDatabase s) (Couple.to_compact couple) with
      | Some i => MkNode (PnsNode.create couple (StoredParallelNodeInfo.proofNumbers i)
                                         (StoredParallelNodeInfo.iterations i) false)
                         (N.of_nat (size (StoredParallelNodeInfo.threadIds i)))
      | None => MkNode (PnsNode.create couple (estimator cfg couple) 0 false) 0
      end.

Definition notifyOthers (boxes : list Mailbox.t) (ids : list Z) (threadId : Z) (c : Compact)
    : list Mailbox.t :=
    fold_left (fun boxes computingThreadId =>
                 if negb (computingThreadId =? threadId)%Z
                 then alter (fun m => Mailbox.notify m c) (Z.to_nat computingThreadId) boxes
                 else boxes)
              ids boxes.

Definition updateDatabases (s : t) (node : PnsNode Node) (threadId : Z) : t :=
    let compactCouple := PnsNode.getCompactState node in
    let '(mkInfo nodeProofNumbers nodeIterations _ _ _ _) := info node in
    let ndb :=
      if ProofNumbers.isLoss nodeProofNumbers && negb (PnsNode.isMultiLandNode node)
      then NimberDatabase.insert (nimberDatabase s) (compactPosition compactCouple)
                                 (compactNimber compactCouple)
      else nimberDatabase s in
    let '(table, originalNodeInfo) :=
      PnsDatabase.insert (pnsDatabase s) compactCouple
        (StoredParallelNodeInfo.mk nodeProofNumbers nodeIterations ∅) in
    let boxes :=
      match originalNodeInfo with
      | Some o =>
          if negb (ProofNumbers.isProved (StoredParallelNodeInfo.proofNumbers o))
             && ProofNumbers.isProved nodeProofNumbers
          then notifyOthers (mailboxes s) (elements (StoredParallelNodeInfo.threadIds o))
                            threadId compactCouple
          else mailboxes s
      | None => mailboxes s
      end in
    mk ndb table (iterations s) (maxIterations s) (terminate s) boxes.

Definition updateChildrenInfo (s : t) (node : PnsNode Node) : PnsNode Node :=
    PnsNode.withChildren node
      (map (fun child =>
              match PnsDatabase.find (pnsDatabase s) (childCompactState child) with
              | Some i => childUpdateInfo child (StoredParallelNodeInfo.proofNumbers i)
                            (StoredParallelNodeInfo.iterations i)
                            (N.of_nat (size (StoredParallelNodeInfo.threadIds i)))
              | None => child
              end)
           (children node)).

Definition withPnsDatabase (s : t) (table : BucketTable.t Compact StoredParallelNodeInfo.t) : t :=
    mk (nimberDatabase s) table (iterations s) (maxIterations s) (terminate s) (mailboxes s).

Definition nodeUpdate (fuel : nat) (cfg : Config) (s : t) (node : PnsNode Node)
    : Res (PnsNode Node) :=
    PnsNode.update getChildComplexity fuel (childFactory cfg s) (nimberDatabase s) node.

Definition openNode (fuel : nat) (cfg : Config) (s : t) (node : PnsNode Node) (threadId : Z)
    : Res (t * PnsNode Node) :=
    let node := PnsNode.addIterations node 1 in
    node ← PnsNode.expand (childFactory cfg s) (nimberDatabase s) node;
    node ← nodeUpdate fuel cfg s node;
    let s := updateDatabases s node threadId in
    Ok (withPnsDatabase s (PnsDatabase.mark (pnsDatabase s) (PnsNode.getCompactState node) threadId),
        node).

Definition closeNode (s : t) (node : PnsNode Node) (threadId : Z) (unexpandNode : bool)
    : t * PnsNode Node :=
    let node := if unexpandNode then PnsNode.close node else node in
    (withPnsDatabase s (PnsDatabase.unmark (pnsDatabase s) (PnsNode.getCompactState node) threadId),
     node).

  (** [checkMailbox]: the stack holds the states of the nodes from the root of
      the search down to the current one; a node is named by its depth. *)
Definition checkMailbox (s : t) (threadId : Z) (stack : list Compact) : t * option nat :=
    let '(messages, emptied) := Mailbox.extract_all (nth (Z.to_nat threadId) (mailboxes s) []) in
    (mk (nimberDatabase s) (pnsDatabase s) (iterations s) (maxIterations s) (terminate s)
        (<[Z.to_nat threadId := emptied]> (mailboxes s)),
     fst <$> list_find (Mailbox.contains messages) stack).

  (** [dfpn(stack, thresholds, remainingIterations, threadId, unexpandNode)]
      as one thread runs it; [node] is [*stack.back()].  The result is the
      solver, the node as the call leaves it, [localIterations] and the node
      to backtrack to. *)
Fixpoint dfpn (fuel : nat) (cfg : Config) (s : t) (stack : list Compact)
      (node : PnsNode Node) (th : Thresholds) (remainingIterations : N) (threadId : Z)
      (unexpandNode : bool) : Res (t * PnsNode Node * N * option nat) :=
    match fuel with
    | O => OutOfFuel
    | S fuel' =>
        if remainingIterations =? 0 then Ok (s, node, 0, None)
        else
          '(s, node) ← openNode fuel' cfg s node threadId;
          dfpnLoop fuel' cfg s stack node th remainingIterations threadId unexpandNode 1
    end
  with dfpnLoop (fuel : nat) (cfg : Config) (s : t) (stack : list Compact)
      (node : PnsNode Node) (th : Thresholds) (remainingIterations : N) (threadId : Z)
      (unexpandNode : bool) (localIterations : N) : Res (t * PnsNode Node * N * option nat) :=
    match fuel with
    | O => OutOfFuel
    | S fuel' =>
        holding ← Thresholds.areHolding th node;
        if holding && (localIterations <? remainingIterations) && negb (terminate s) then
          '(mpnIdx, mpn2Idx) ←
            (if 1 <? workersNum cfg
             then PnsNode.getMpnIdx getChildComplexity (rngs cfg threadId) true node
             else PnsNode.getMpnIdx getChildComplexity (rng cfg) false node);
          mpn ← PnsNode.getChild node mpnIdx;
          mpnTh ← Thresholds.toMpnThresholds getSwitchingThreshold th node mpnIdx mpn2Idx;
          '(s, mpnNode, mpnIterations, nodeToBacktrack) ←
            dfpn fuel' cfg s (stack ++ [childCompactState mpn]) (unNode mpn) mpnTh
                 (remainingIterations - localIterations) threadId true;
          let node := PnsNode.withChildren node
                        (<[mpnIdx := MkNode mpnNode (getWorkingThreadsNum mpn)]> (children node)) in
          let localIterations := wrap64 (localIterations + mpnIterations) in
          let node := PnsNode.addIterations node mpnIterations in
          let node := if 1 <? workersNum cfg then updateChildrenInfo s node else node in
          node ← nodeUpdate fuel' cfg s node;
          let s := updateDatabases s node threadId in
          let '(s, nodeToBacktrack) :=
            match nodeToBacktrack with
            | None => checkMailbox s threadId stack
            | Some _ => (s, nodeToBacktrack)
            end in
          match nodeToBacktrack with
          | Some d =>
              let '(s, node) := closeNode s node threadId unexpandNode in
              Ok (s, node, localIterations,
                  if Nat.eqb d (length stack - 1) then None else Some d)
          | None =>
              dfpnLoop fuel' cfg s stack node th remainingIterations threadId unexpandNode
                       localIterations
          end
        else
          let '(s, node) := closeNode s node threadId unexpandNode in
          Ok (s, node, localIterations, None)
    end.

Definition setTerminate (s : t) (b : bool) : t :=
    mk (nimberDatabase s) (pnsDatabase s) (iterations s) (maxIterations s) b (mailboxes s).

  (** [kaneko_pdfpn(root, threadId)] *)
Definition kaneko_pdfpn (fuel : nat) (cfg : Config) (s : t) (root : Couple) (threadId : Z)
    : Res t :=
    let rootNode := PnsNode.create root (mkPN 1 1) 0 false in
    let remainingIterations :=
      if negb (maxIterations s =? NO_LIMIT) then maxIterations s else SIZE_MAX in
    '(s, _, threadIterations, _) ←
      dfpn fuel cfg s [PnsNode.getCompactState rootNode] rootNode Thresholds.default
           remainingIterations threadId true;
    Ok (mk (nimberDatabase s) (pnsDatabase s) (wrap64 (iterations s + threadIterations))
           (maxIterations s) true (mailboxes s)).

  (** The workers of [_expandCouple], one after the other.  With one worker
      there is no other schedule. *)
Fixpoint runWorkers (fuel : nat) (cfg : Config) (s : t) (root : Couple) (threadIds : list Z)
    : Res t :=
    match threadIds with
    | [] => Ok s
    | threadId :: rest =>
        s ← kaneko_pdfpn fuel cfg s root threadId;
        runWorkers fuel cfg s root rest
    end.

  (** [_expandCouple] for [branchingDepth = 0], where every worker runs
      [kaneko_pdfpn] and the result is read back from the table. *)
Definition _expandCouple (fuel : nat) (cfg : Config) (s : t) (root : Couple)
    : Res (t * PnsNodeExpansionInfo) :=
    let s := mk (nimberDatabase s) (pnsDatabase s) (iterations s) (maxIterations s) false
                (map Mailbox.clear (mailboxes s)) in
    s ← runWorkers fuel cfg s root (map Z.of_nat (seq 0 (N.to_nat (workersNum cfg))));
    let rootNode := PnsNode.create root (mkPN 1 1) 0 false in
    rootNode ← PnsNode.expand (childFactory cfg s) (nimberDatabase s) rootNode;
    rootNode ← nodeUpdate fuel cfg s rootNode;
    Ok (s, getExpansionInfo rootNode).

Definition expandCouple (fuel : nat) (cfg : Config) (s : t) (couple : Couple)
      (maxIterations : N) : Res (t * PnsNodeExpansionInfo) :=
    let s := mk (nimberDatabase s) (pnsDatabase s) 0 maxIterations (terminate s) (mailboxes s) in
    _expandCouple fuel cfg s couple.

Definition solveCouple (fuel : nat) (cfg : Config) (s : t) (couple : Couple)
    : Res (t * Outcome) :=
    '(s, i) ← expandCouple fuel cfg s couple NO_LIMIT;
    Ok (s, ProofNumbers.toOutcome (expansionProofNumbers i)).
End WithGame.
End ParallelDfpn.

(** ** dfs.hpp *)
Module DfsSolver.
Section WithGame.
  Context `{G : Game}.

  (** The logger and the tree-size statistics only observe the search. *)
Record t : Type := mk { nimberDatabase : NimberDatabase.t; iterations : N }.

Definition insertNimber (s : t) (c : Couple) : t :=
    mk (NimberDatabase.insert (nimberDatabase s) (Position.to_compact (position c)) (nimber c))
       (iterations s).

  (** The loop of [computeSingleLandCoupleOutcome] over the children, with
      [solve] for [computeCoupleOutcome]: it stops at the first lost child. *)
Fixpoint childrenLoop (solve : t -> Couple -> Res (t * Outcome)) (s : t)
      (cs : list Couple) (outcome : Outcome) : Res (t * Outcome) :=
    match cs with
    | [] => Ok (s, outcome)
    | child :: rest =>
        '(s, outcome) ← solve s child;
        if Outcome_eqb outcome Loss then Ok (s, outcome)
        else childrenLoop solve s rest outcome
    end.

  (** The loop of [computeAndMergeExtraLands] over all subgames but the last. *)
Fixpoint landsLoop (nimberOf : t -> list Land -> Res (t * Nimber.t)) (s : t)
      (subgames : list (list Land)) (mergedNimber : Nimber.t)
    : Res (t * Nimber.t * list Land) :=
    match subgames with
    | [] => Throw assertion_failure
    | [final] => Ok (s, mergedNimber, final)
    | subgame :: rest =>
        '(s, n) ← nimberOf s subgame;
        landsLoop nimberOf s rest (Nimber.mergeNimbers mergedNimber n)
    end.

  (** The [while (true)] of [computeNimber]; [tries] bounds its turns. *)
Fixpoint nimberLoop (solve : t -> Couple -> Res (t * Outcome)) (tries : nat) (s : t)
      (position : list Land) (nimber : Nimber.t) : Res (t * Nimber.t) :=
    match tries with
    | O => OutOfFuel
    | S tries' =>
        '(s, outcome) ← solve s (mkCouple position nimber);
        if Outcome_eqb outcome Loss then Ok (s, nimber)
        else nimberLoop solve tries' s position (Nimber.incr nimber)
    end.

Definition computeNimberWith (solve : t -> Couple -> Res (t * Outcome)) (tries : nat) (s : t)
      (position : list Land) : Res (t * Nimber.t) :=
    match NimberDatabase.get (nimberDatabase s) (Position.to_compact position) with
    | Some storedNimber => Ok (s, storedNimber)
    | None => nimberLoop solve tries s position 0
    end.

Definition computeAndMergeExtraLandsWith (solve : t -> Couple -> Res (t * Outcome))
      (tries : nat) (s : t) (couple : Couple) : Res (t * Couple) :=
    if negb (Position.isMultiLand (position couple)) then Ok (s, couple)
    else
      let subgames := sort Heuristics.DefaultGameComparer
                           (Position.getSubgames (position couple)) in
      let s := mk (nimberDatabase s) (wrap64 (iterations s + 1)) in
      '(s, mergedNimber, final) ←
        landsLoop (computeNimberWith solve tries) s subgames (nimber couple);
      Ok (s, mkCouple final mergedNimber).

Definition computeSingleLandCoupleOutcomeWith (solve : t -> Couple -> Res (t * Outcome))
      (s : t) (couple : Couple) : Res (t * Outcome) :=
    match Couple.computeChildren (nimberDatabase s) couple with
    | (Unknown, children) =>
        let s := mk (nimberDatabase s) (wrap64 (iterations s + 1)) in
        '(s, outcome) ← childrenLoop solve s children Unknown;
        if Outcome_eqb outcome Loss then Ok (s, Win)
        else Ok (insertNimber s couple, Loss)
    | (Loss, _) => Ok (insertNimber s couple, Loss)
    | (Win, _) => Ok (s, Win)
    end.

  (** [computeCoupleOutcome]; the recursive calls of [computeNimber] and of
      [computeSingleLandCoupleOutcome] come back to it with less fuel. *)
Fixpoint computeCoupleOutcome (fuel : nat) (s : t) (couple : Couple) : Res (t * Outcome) :=
    match fuel with
    | O => OutOfFuel
    | S fuel' =>
        let couple := snd (Couple.mergeComputedLands (nimberDatabase s) couple) in
        '(s, couple) ← computeAndMergeExtraLandsWith (computeCoupleOutcome fuel') fuel' s couple;
        let couple := snd (Couple.mergeComputedLands (nimberDatabase s) couple) in
        match Couple.getOutcome couple with
        | Unknown => computeSingleLandCoupleOutcomeWith (computeCoupleOutcome fuel') s couple
        | outcome => Ok (s, outcome)
        end
    end.

Definition computeNimber (fuel : nat) (s : t) (position : list Land) : Res (t * Nimber.t) :=
    computeNimberWith (computeCoupleOutcome fuel) fuel s position.

Definition solveCouple (fuel : nat) (s : t) (couple : Couple) : Res (t * Outcome) :=
    computeCoupleOutcome fuel s couple.
End WithGame.
End DfsSolver.

(** ** A small instance of the position capability

    A land is a chain of [k] moves: a move in a chain of [S (S k)] leaves a
    chain of [S k], a move in a chain of [1] removes it, and there is no chain
    of [0].  The text of a position writes a chain of [k] as [k] strokes and
    joins the lands with ['+']; the empty position is ["!"], as
    [Position::to_string] writes it. *)
Module ChainGame.
Definition land := nat.

Definition landMoves (l : land) : list (list land) :=
    match l with
    | O => []
    | S O => [[]]
    | S (S k) => [[S k]]
    end.

  (** A move is made in one land and leaves the others as they are. *)
Fixpoint moves (before after : list land) : list (list land) :=
    match after with
    | [] => []
    | l :: rest => map (fun m => before ++ m ++ rest) (landMoves l) ++ moves (before ++ [l]) rest
    end.

Fixpoint strokes (k : nat) (tl : string) : string :=
    match k with
    | O => tl
    | S k' => String "I"%char (strokes k' tl)
    end.

Fixpoint landsText (p : list land) : string :=
    match p with
    | [] => EmptyString
    | [l] => strokes l EmptyString
    | l :: rest => strokes l (String "+"%char (landsText rest))
    end.

Definition text (p : list land) : string :=
    match p with
    | [] => "!"%string
    | _ => landsText p
    end.

  (** [cur] counts the strokes of the land being read. *)
Fixpoint parse (cur : nat) (s : string) : list land :=
    match s with
    | EmptyString => match cur with O => [] | _ => [cur] end
    | String c s' =>
        if Ascii.eqb c "I"%char then parse (S cur) s'
        else if Ascii.eqb c "+"%char then match cur with O => parse O s' | _ => cur :: parse O s' end
        else parse cur s'
    end.

#[global] Instance game : Game := {
    Land := land;
    isNormalImpartial := true;
    getLives := fun p => N.of_nat (list_sum p);
    landEstimateChildrenNumber := fun _ => 1;
    to_string := text;
    of_string := parse O;
    positionChildren := moves [];
    strHash := fun s => N.of_nat (String.length s)
  }.

  (** One chain of two moves and an empty Nim heap. *)
Definition root : Couple := mkCouple [2%nat] 0.

Definition dfpnConfig : DfpnSolver.Config :=
    DfpnSolver.mkConfig Estimator.DefaultProofNumberEstimator None.
Definition parallelConfig (workers : N) : ParallelDfpn.Config :=
    ParallelDfpn.mkConfig workers Estimator.DefaultProofNumberEstimator None (fun _ => None).
End ChainGame.


(** ** Sequences of table operations *)
Module TableOps.
Section WithTypes.
  Context {Key Value : Type} `{KO : TTKey Key} `{VO : TTValue Value}.

Inductive op : Type :=
  | OpInsert (k : Key) (v : Value)
  | OpMark (k : Key) (threadId : Z)
  | OpUnmark (k : Key) (threadId : Z)
  | OpClear.

Definition step (tb : BucketTable.t Key Value) (o : op) : BucketTable.t Key Value :=
    match o with
    | OpInsert k v => fst (BucketTable.insert tb k v)
    | OpMark k threadId => BucketTable.mark tb k threadId
    | OpUnmark k threadId => BucketTable.unmark tb k threadId
    | OpClear => BucketTable.clear tb
    end.

Definition run (tb : BucketTable.t Key Value) (ops : list op) : BucketTable.t Key Value :=
    fold_left step ops tb.
End WithTypes.
Arguments op Key Value : clear implicits.
End TableOps.

(** ** Vocabulary of the statements about couples *)
Module CoupleSpec.
Section WithGame.
  Context `{G : Game}.

  (** What the database holds for the position made of the land [l] alone. *)
Definition storedNimber (db : NimberDatabase.t) (l : Land) : option Nimber.t :=
    NimberDatabase.get db (Position.to_compact [l]).

Definition isComputed (db : NimberDatabase.t) (l : Land) : bool :=
    match storedNimber db l with Some _ => true | None => false end.

  (** The nimber with the stored nimbers of the lands XORed in, in order. *)
Definition mergedNimber (db : NimberDatabase.t) (lands : list Land) (n : Nimber.t) : Nimber.t :=
    fold_left (fun acc l => match storedNimber db l with
                            | Some stored => Nimber.mergeNimbers acc stored
                            | None => acc
                            end) lands n.

  (** A position child with the nimber [n], folded through the database. *)
Definition foldedChild (db : NimberDatabase.t) (n : Nimber.t) (positionChild : list Land)
    : Couple :=
    snd (Couple.mergeComputedLands db (mkCouple positionChild n)).

  (** The folded child decides the parent at once: it is terminal and lost. *)
Definition isLostChild (c : Couple) : bool :=
    Position.isTerminal (position c) && Outcome_eqb (Couple.getOutcome c) Loss.

Definition survives (c : Couple) : bool := negb (Position.isTerminal (position c)).

  (** The shortcut of the games that are not normal impartial. *)
Definition isStoredChild (db : NimberDatabase.t) (positionChild : list Land) : bool :=
    negb isNormalImpartial && negb (Position.isTerminal positionChild)
    && bool_decide (is_Some (NimberDatabase.get db (Position.to_compact positionChild))).
End WithGame.
End CoupleSpec.

(** ** Vocabulary of the statements about the database file *)
Module FileSpec.

Fixpoint noChar (x : ascii) (s : string) : bool :=
    match s with
    | EmptyString => true
    | String c s' => negb (Ascii.eqb c x) && noChar x s'
    end.

  (** The text of a position holds neither the separator of a line nor the
      end of one. *)
Definition cleanKey (k : string) : bool := noChar " "%char k && noChar "010"%char k.

  (** An entry as the database holds it: the text of a position and a
      [uint8_t]. *)
Definition storableEntry (e : string * Nimber.t) : bool := cleanKey (fst e) && (snd e <? 256).

Definition storable (db : NimberDatabase.t) : bool :=
    forallb storableEntry (map_to_list (NimberDatabase.data db)).
End FileSpec.

(** ** Concrete couples over the chain game *)
Module CoupleExamples.
Import ChainGame.

  (** A database that knows the chain of one move, of nimber one. *)
Definition chainDb : NimberDatabase.t :=
    NimberDatabase.insert (NimberDatabase.create false) (text [1%nat]) 1.

  (** A database with a key that is not the text of a position. *)
Definition spacedDb : NimberDatabase.t :=
    NimberDatabase.insert (NimberDatabase.create false) "a b"%string 1.

Definition singleLand : Couple := mkCouple [1%nat] 0.
Definition twoLands : Couple := mkCouple [1%nat; 2%nat] 0.
Definition threeLands : Couple := mkCouple [3%nat; 2%nat; 2%nat] 1.
End CoupleExamples.

(** ** Concrete nodes over the chain game *)
Module NodeExamples.
Import ChainGame.

Definition solver : DfpnSolver.t := DfpnSolver.create (NimberDatabase.create false) 0.

(** The node of a chain of three moves beside a Nim heap of two. *)
Definition freshNode : PnsNode DfpnSolver.Node :=
  PnsNode.create (mkCouple [3%nat] 2) (mkPN 1 1) 0 false.

(** The same node expanded: two Nim children and one position child. *)
Definition expandedNode : PnsNode DfpnSolver.Node :=
  match PnsNode.expand (DfpnSolver.childFactory dfpnConfig solver)
                       (DfpnSolver.nimberDatabase solver) freshNode with
  | Ok n => n
  | _ => freshNode
  end.

Definition updatedNode : PnsNode DfpnSolver.Node :=
  match PnsNode.updateInfo PnsNode.getChildComplexity expandedNode with
  | Ok n => n
  | _ => expandedNode
  end.
End NodeExamples.

(** ** Runs of the solvers over the chain game *)
Module SolverRuns.
Import ChainGame.

  (** What a run reports, if it returns. *)
Definition reported {S : Type} (r : Res (S * Outcome)) : option Outcome :=
    match r with
    | Ok (_, o) => Some o
    | _ => None
    end.

Definition chain (k : nat) : Couple := mkCouple [k] 0.

Definition dfsRun (k : nat) : Res (DfsSolver.t * Outcome) :=
    DfsSolver.solveCouple 100 (DfsSolver.mk (NimberDatabase.create false) 0) (chain k).

Definition dfpnRun (ttCapacity : N) (k : nat) : Res (DfpnSolver.t * Outcome) :=
    DfpnSolver.solveCouple 100 dfpnConfig
      (DfpnSolver.create (NimberDatabase.create false) ttCapacity) (chain k).

  (** One worker, [branchingDepth = 0]. *)
Definition parallelRun (ttCapacity : N) (k : nat) : Res (ParallelDfpn.t * Outcome) :=
    ParallelDfpn.solveCouple 100 (parallelConfig 1)
      (ParallelDfpn.create (parallelConfig 1) (NimberDatabase.create false) ttCapacity)
      (chain k).

  (** The budget the run was given, the iterations it counted and what its
      nimber database holds for the root at the end. *)
Definition parallelTrace (ttCapacity : N) (k : nat) : option (Outcome * N * N * option Nimber.t) :=
    match parallelRun ttCapacity k with
    | Ok (s, o) => Some (o, ParallelDfpn.maxIterations s, ParallelDfpn.iterations s,
                         NimberDatabase.get (ParallelDfpn.nimberDatabase s) (text [k]))
    | _ => None
    end.
End SolverRuns.

(** ** Vocabulary of the statements about the table *)
Module BucketSpec.
Section WithTypes.
  Context {Key Value : Type} `{KO : TTKey Key} `{VO : TTValue Value}.

  (** The slot is in use and holds the key. *)
Definition holdsKey (k : Key) (e : BucketTable.TTEntry Key Value) : bool :=
    BucketTable.occupied e && keyEqb (BucketTable.key e) k.

  (** No slot in use comes after a free one: this is how [insert] fills a
      bucket that [create] or [clear] left empty. *)
Definition prefixOccupied (b : BucketTable.Bucket Key Value) : Prop :=
    forall i j, (i < j)%nat -> BucketTable.occupied (BucketTable.entryAt b j) = true ->
                BucketTable.occupied (BucketTable.entryAt b i) = true.

Definition wellFormed (b : BucketTable.Bucket Key Value) : Prop :=
    length b = BucketTable.BUCKET_SIZE /\ prefixOccupied b.
End WithTypes.
End BucketSpec.

(** ** Concrete tables over the chain game *)
Module TableExamples.
  Import ChainGame.

Definition unproved (its : N) : StoredNodeInfo.t := StoredNodeInfo.mk (mkPN 1 1) its.
Definition provedWin (its : N) : StoredNodeInfo.t := StoredNodeInfo.mk (mkPN 0 PN.INF) its.
Definition chainKey (k : nat) : Compact := Couple.to_compact (mkCouple [k] 0).
Definition slot (k : nat) (v : StoredNodeInfo.t) : BucketTable.TTEntry Compact StoredNodeInfo.t :=
    BucketTable.newEntry (chainKey k) v.

  (** A full bucket without a proved entry. *)
Definition plainBucket : BucketTable.Bucket Compact StoredNodeInfo.t :=
    [slot 1 (unproved 5); slot 2 (unproved 3); slot 3 (unproved 3); slot 4 (unproved 7)].

  (** A full bucket whose second slot is proved and has more iterations than
      the unproved first slot. *)
Definition mixedBucket : BucketTable.Bucket Compact StoredNodeInfo.t :=
    [slot 1 (unproved 1); slot 2 (provedWin 5); slot 3 (unproved 9); slot 4 (unproved 9)].

Definition parallelInfo (pn : ProofNumbers) (its : N) : StoredParallelNodeInfo.t :=
    StoredParallelNodeInfo.mk pn its ∅.

  (** A full bucket of the parallel solver: the proved slot 1 is followed by
      a slot with fewer iterations. *)
Definition rankedBucket : BucketTable.Bucket Compact StoredParallelNodeInfo.t :=
    [BucketTable.newEntry (chainKey 1) (parallelInfo (mkPN 1 1) 5);
     BucketTable.newEntry (chainKey 2) (parallelInfo (mkPN 0 PN.INF) 5);
     BucketTable.newEntry (chainKey 3) (parallelInfo (mkPN 1 1) 1);
     BucketTable.newEntry (chainKey 4) (parallelInfo (mkPN 1 1) 9)].

  (** Tables of a single bucket. *)
Definition rankedTable : BucketTable.t Compact StoredParallelNodeInfo.t :=
    BucketTable.mk [rankedBucket] 4.
Definition plainTable : BucketTable.t Compact StoredNodeInfo.t :=
    BucketTable.mk [plainBucket] 4.
Definition mixedTable : BucketTable.t Compact StoredNodeInfo.t :=
    BucketTable.mk [mixedBucket] 4.
End TableExamples.

(** ** Vocabulary of the statements about the choice of the most-proving child *)
Section MpnSpec.
Context `{G : Game} {Child : Type} `{CO : ChildOps Child}.
Variable complexity : PnsNode Child -> nat -> Res PN.value_type.

(** The invariant of the loop of [getMpnIdx]. *)
Definition mpnInv (n : PnsNode Child) (st : list nat * option nat * PN.value_type) : Prop :=
  let '(bestIndices, mpn2Idx, bestComplexity) := st in
  Forall (fun b => exists cb, complexity n b = Ok cb /\ PN.eqb cb bestComplexity = true) bestIndices
  /\ (forall j, mpn2Idx = Some j ->
        bestIndices <> [] /\ exists cj, complexity n j = Ok cj /\ PN.ltb cj bestComplexity = false).

End MpnSpec.

(** ** Proof automation *)
Ltac split_keys k0 k1 k2 k3 k :=
    destruct (keyEqb k0 k) eqn:E0; destruct (keyEqb k1 k) eqn:E1;
    destruct (keyEqb k2 k) eqn:E2; destruct (keyEqb k3 k) eqn:E3.

Ltac pn_solve :=
  unfold PN.add, PN.sub, PN.min, PN.max, PN.ltb, PN.is_inf, PN.will_addition_overflow, PN.INF in *;
  repeat (simpl in *; simplify_eq;
          try discriminate; try lia; try reflexivity;
          match goal with
          | H : context [if ?c then _ else _] |- _ =>
              lazymatch c with
              | N.eqb ?a ?b => destruct (N.eqb_spec a b)
              | N.ltb ?a ?b => destruct (N.ltb_spec a b)
              | N.leb ?a ?b => destruct (N.leb_spec a b)
              | orb ?a ?b => destruct a eqn:?
              end
          | |- context [if ?c then _ else _] =>
              lazymatch c with
              | N.eqb ?a ?b => destruct (N.eqb_spec a b)
              | N.ltb ?a ?b => destruct (N.ltb_spec a b)
              | N.leb ?a ?b => destruct (N.leb_spec a b)
              | orb ?a ?b => destruct a eqn:?
              end
          | H : N.ltb ?a ?b = _ |- _ => destruct (N.ltb_spec a b)
          | |- N.ltb ?a ?b = _ => destruct (N.ltb_spec a b)
          | H : N.eqb ?a ?b = _ |- _ => destruct (N.eqb_spec a b)
          end).

(** ** Vocabulary of the statements about nodes *)
Module NodeSpec.
Section WithChild.
Context `{G : Game} {Child : Type} `{CO : ChildOps Child}.

(** The calls that refresh a node. *)
Inductive nodeOp : Type :=
| OpUpdate (complexity : PnsNode Child -> nat -> Res PN.value_type) (fuel : nat)
           (factory : PnsNode.ChildFactory (Child := Child)) (nimberDatabase : NimberDatabase.t)
| OpUpdateChildren (fuel : nat) (factory : PnsNode.ChildFactory (Child := Child))
                   (nimberDatabase : NimberDatabase.t)
| OpUpdateInfo (complexity : PnsNode Child -> nat -> Res PN.value_type).

Definition applyOp (o : nodeOp) (n : PnsNode Child) : Res (PnsNode Child) :=
  match o with
  | OpUpdate complexity fuel factory db => PnsNode.update complexity fuel factory db n
  | OpUpdateChildren fuel factory db => PnsNode.updateChildren fuel factory db n
  | OpUpdateInfo complexity => PnsNode.updateInfo complexity n
  end.

Fixpoint applyOps (ops : list nodeOp) (n : PnsNode Child) : Res (PnsNode Child) :=
  match ops with
  | [] => Ok n
  | o :: rest => n' ← applyOp o n; applyOps rest n'
  end.

(** The sum of proof numbers, where one infinite term makes the sum infinite. *)
Definition sumOf (vs : list PN.value_type) : PN.value_type :=
  if existsb PN.is_inf vs then PN.INF else fold_right N.add 0 vs.

(** The same with a start value. *)
Definition sumFrom (acc : PN.value_type) (vs : list PN.value_type) : PN.value_type :=
  if PN.is_inf acc || existsb PN.is_inf vs then PN.INF else acc + fold_right N.add 0 vs.

(** The greatest of [vs] and [0], and the least of [vs] and [INF], in the
    order of [Value::operator<]. *)
Definition maxOf (vs : list PN.value_type) : PN.value_type := fold_left PN.max vs 0.
Definition minOf (vs : list PN.value_type) : PN.value_type := fold_left PN.min vs PN.INF.

(** [v + k] for a count [k], infinite when [v] is. *)
Definition plusCount (v : PN.value_type) (k : N) : PN.value_type :=
  if PN.is_inf v then PN.INF else v + k.

Definition childProofs (cs : list Child) : list PN.value_type :=
  map (fun c => proof (childProofNumbers c)) cs.
Definition childDisproofs (cs : list Child) : list PN.value_type :=
  map (fun c => disproof (childProofNumbers c)) cs.
Definition unlockedChildren (cs : list Child) : list Child :=
  List.filter (fun c => negb (childIsLocked c)) cs.
End WithChild.
End NodeSpec.

(** ** Sequences of database operations *)
Module DatabaseOps.
Section WithGame.
  Context `{G : Game}.

Inductive op : Type :=
  | OpInsert (compactPosition : string) (nimber : Nimber.t)
  | OpAddNimbers (nimbers : list (string * Nimber.t))
  | OpLoad (file : string)
  | OpClear
  | OpClearTracked
  | OpGetTracked (clearTracked : bool)
  | OpSetTrackNew (trackNew : bool).

Definition step (db : NimberDatabase.t) (o : op) : NimberDatabase.t :=
    match o with
    | OpInsert k v => NimberDatabase.insert db k v
    | OpAddNimbers nimbers => fst (NimberDatabase.addNimbers db nimbers)
    | OpLoad file => fst (NimberDatabaseFile.load db file)
    | OpClear => NimberDatabase.clear db
    | OpClearTracked => NimberDatabase.clearTracked db
    | OpGetTracked clearTracked => snd (NimberDatabase.getTrackedNimbers db clearTracked)
    | OpSetTrackNew b => NimberDatabase.setTrackNew db b
    end.

Definition run (db : NimberDatabase.t) (ops : list op) : NimberDatabase.t :=
    fold_left step ops db.

Definition switchesTracking (o : op) : bool :=
    match o with OpSetTrackNew _ => true | _ => false end.
End WithGame.
End DatabaseOps.

(** ** Vocabulary of the statements about the nimber database *)
Module DatabaseSpec.
  (** What a pass of insertions that never overwrite keeps: the entries it
      started from, and a count of the entries it added. *)
Definition grownFrom (m0 : gmap string Nimber.t) (st : gmap string Nimber.t * N) : Prop :=
    m0 ⊆ fst st /\ N.of_nat (size (fst st)) = N.of_nat (size m0) + snd st.

  (** The tracked entries are entries of the database, and there is none
      while tracking is off. *)
Definition trackedInv (db : NimberDatabase.t) : Prop :=
    NimberDatabase.trackedData db ⊆ NimberDatabase.data db
    /\ (NimberDatabase.trackNew db = false -> NimberDatabase.trackedData db = ∅).
End DatabaseSpec.

(** ** Vocabulary of the statements about whole tables *)
Module TableSpec.
Section WithTypes.
  Context {Key Value : Type} `{KO : TTKey Key} `{VO : TTValue Value}.

  (** The slots in use of a bucket. *)
Definition occupiedCount (b : BucketTable.Bucket Key Value) : nat :=
    length (List.filter BucketTable.occupied b).

  (** Every bucket has its [BUCKET_SIZE] entries. *)
Definition fullBuckets (tb : BucketTable.t Key Value) : Prop :=
    Forall (fun b => length b = BucketTable.BUCKET_SIZE) (BucketTable.data tb).

Definition occupiedTotal (tb : BucketTable.t Key Value) : nat :=
    list_sum (map occupiedCount (BucketTable.data tb)).

  (** What every operation keeps. *)
Definition sizeInv (tb : BucketTable.t Key Value) : Prop :=
    fullBuckets tb /\ BucketTable._size tb = N.of_nat (occupiedTotal tb).
End WithTypes.
End TableSpec.

(** ** Vocabulary of the statements about the children of a node *)
Module ChildrenSpec.
Section WithChild.
Context {Child : Type} `{CO : ChildOps Child}.

Definition childIsLost (c : Child) : bool := ProofNumbers.isLoss (childProofNumbers c).
Definition childIsWon (c : Child) : bool := ProofNumbers.isWin (childProofNumbers c).
Definition childIsProved (c : Child) : bool := childIsLost c || childIsWon c.

  (** The children a single-land node keeps: those that are not won. *)
Definition openChildren (cs : list Child) : list Child :=
    List.filter (fun c => negb (childIsWon c)) cs.

End WithChild.
End ChildrenSpec.

(** ** Vocabulary of the statements about the selected child *)
Module SelectionSpec.
Section WithChild.
Context {Child : Type} `{CO : ChildOps Child}.

  (** There is a child at [k] and it is not locked. *)
Definition isUnlockedAt (n : PnsNode Child) (k : nat) : bool :=
    match children n !! k with
    | Some c => negb (childIsLocked c)
    | None => false
    end.

  (** The invariant of the loop of [getMpnIdx] once the children before [i]
      are seen: [bestIndices] are the unlocked children of the least
      complexity, and [mpn2Idx] is least among the others. *)
Definition selInv (cval : nat -> PN.value_type) (n : PnsNode Child) (i : nat)
      (st : list nat * option nat * PN.value_type) : Prop :=
    let '(best, m2, bc) := st in
    List.NoDup best
    /\ (forall b, In b best ->
          (b < i)%nat /\ isUnlockedAt n b = true /\ PN.eqb (cval b) bc = true)
    /\ (best = [] -> m2 = None /\ forall k, (k < i)%nat -> isUnlockedAt n k = false)
    /\ (forall k, (k < i)%nat -> isUnlockedAt n k = true ->
          PN.ltb (cval k) bc = false /\ (PN.eqb (cval k) bc = true -> In k best))
    /\ match m2 with
       | Some j =>
           (j < i)%nat /\ isUnlockedAt n j = true /\ ~ In j best
           /\ forall k, (k < i)%nat -> isUnlockedAt n k = true -> ~ In k best ->
                        PN.ltb (cval k) (cval j) = false
       | None => forall k, (k < i)%nat -> isUnlockedAt n k = true -> In k best
       end.
End WithChild.
End SelectionSpec.

Ltac pn_order :=
  unfold PN.eqb, PN.ltb, PN.is_inf in *;
  repeat match goal with
         | H : context [N.eqb ?a ?b] |- _ => destruct (N.eqb_spec a b); simpl in H
         | |- context [N.eqb ?a ?b] => destruct (N.eqb_spec a b); simpl
         | H : context [N.ltb ?a ?b] |- _ => destruct (N.ltb_spec a b); simpl in H
         | |- context [N.ltb ?a ?b] => destruct (N.ltb_spec a b); simpl
         end;
  simpl in *; try discriminate; try reflexivity; try lia; try congruence.

(** ** Vocabulary of the statements about the comparers *)
Module ComparerSpec.
  (** The fields the comparers look at, in the order they look at them. *)
Definition SortKey : Type := (Z * N * N * string)%type.

Definition keyLt (a b : SortKey) : bool :=
    let '(lives1, lands1, estimate1, text1) := a in
    let '(lives2, lands2, estimate2, text2) := b in
    if negb (lives1 =? lives2)%Z then (lives1 <? lives2)%Z
    else if negb (lands1 =? lands2) then lands2 <? lands1
    else if negb (estimate1 =? estimate2) then estimate1 <? estimate2
    else String.ltb text1 text2.

  (** The same fields, nested from the first one. *)
Definition nested (a : SortKey) : Z * (N * (N * string)) :=
    let '(lives, lands, estimate, text) := a in (lives, (lands, (estimate, text))).

  (** Decide by the first component unless it is equal. *)
Definition lexLt {A B : Type} (eqbA ltA : A -> A -> bool) (ltB : B -> B -> bool)
      (p q : A * B) : bool :=
    if negb (eqbA (fst p) (fst q)) then ltA (fst p) (fst q) else ltB (snd p) (snd q).

  (** What [std::sort] asks of a comparison. *)
Definition strictWeak {A : Type} (lt : A -> A -> bool) : Prop :=
    (forall a, lt a a = false)
    /\ (forall a b, lt a b = true -> lt b a = false)
    /\ (forall a b c, lt a b = true -> lt b c = true -> lt a c = true)
    /\ (forall a b c, lt a b = false -> lt b c = false -> lt a c = false).

Section WithGame.
  Context `{G : Game}.

Definition gameKey (p : list Land) : SortKey :=
    (toInt32 (getLives p), 0, Position.estimateChildrenNumber p, to_string p).

Definition coupleKey (c : Couple) : SortKey :=
    (toInt32 (getLives (position c) + 4 * nimber c),
     if isNormalImpartial then Position.getSubgamesNumber (position c) else 0,
     Position.estimateChildrenNumber (position c),
     to_string (position c)).
End WithGame.
End ComparerSpec.

(** ** Vocabulary of the statements about the depth-first solver *)
Module DfsSpec.
Section WithGame.
  Context `{G : Game}.

  (** Every stored position is still stored, and tracking is as it was. *)
Definition keeps (s s' : DfsSolver.t) : Prop :=
    dom (NimberDatabase.data (DfsSolver.nimberDatabase s))
      ⊆ dom (NimberDatabase.data (DfsSolver.nimberDatabase s'))
    /\ NimberDatabase.trackNew (DfsSolver.nimberDatabase s')
       = NimberDatabase.trackNew (DfsSolver.nimberDatabase s).

  (** A search that answers [Win] or [Loss] and forgets nothing. *)
Definition decides (solve : DfsSolver.t -> Couple -> Res (DfsSolver.t * Outcome)) : Prop :=
    forall s c s' o, solve s c = Ok (s', o) -> o <> Unknown /\ keeps s s'.
End WithGame.
End DfsSpec.

(** ** More concrete tables and nodes over the chain game *)
Module MoreExamples.
Import ChainGame TableExamples NodeExamples.

  (** A table of two buckets that holds the chain of one move. *)
Definition smallTable : BucketTable.t Compact StoredNodeInfo.t :=
    fst (BucketTable.insert (BucketTable.create 8) (chainKey 1) (unproved 5)).

  (** A table of the parallel solver with one entry, marked by worker 7. *)
Definition markedTable : BucketTable.t Compact StoredParallelNodeInfo.t :=
    BucketTable.mark
      (fst (BucketTable.insert (BucketTable.create 4) (chainKey 1)
              (StoredParallelNodeInfo.mk (mkPN 1 1) 0 ∅)))
      (chainKey 1) 7.


Definition complexityOf (n : PnsNode DfpnSolver.Node) (k : nat) : PN.value_type :=
  match PnsNode.getChildComplexity n k with
  | Ok v => v
  | _ => 0
  end.
End MoreExamples.

(** * Properties *)

(** ** BucketTable *)
Section BucketTableFacts.
  Context {Key Value : Type} `{KO : TTKey Key} `{VO : TTValue Value}.

Lemma create_small_data (capacity : N) :
    capacity < 4 -> BucketTable.data (BucketTable.create (Key := Key) (Value := Value) capacity) = [].
  Proof.
    intros Hc. unfold BucketTable.create, BucketTable.BUCKET_SIZE.
    change (N.of_nat 4) with 4. rewrite (N.div_small capacity 4 Hc). reflexivity.
  Qed.

Lemma step_no_buckets (tb : BucketTable.t Key Value) (o : TableOps.op Key Value) :
    BucketTable.data tb = [] -> BucketTable._size tb = 0 -> TableOps.step tb o = tb.
  Proof.
    intros Hd Hs. destruct tb as [d sz]. simpl in *. subst.
    destruct o; reflexivity.
  Qed.

  (** C10.  A table built with a capacity below [BUCKET_SIZE] has no bucket,
      and nothing can be done to it: [insert] hands back the table and no
      value, [find] finds nothing, [mark] and [unmark] hand back the table,
      [size] is [0], and this stays so after any sequence of operations.  No
      operation has an error among its results. *)
Theorem small_table_is_inert (capacity : N) (Hsmall : capacity < N.of_nat BucketTable.BUCKET_SIZE) :
    let tb := BucketTable.create (Key := Key) (Value := Value) capacity in
    BucketTable.data tb = []
    /\ BucketTable.size tb = 0
    /\ (forall k v, BucketTable.insert tb k v = (tb, None))
    /\ (forall k, BucketTable.find tb k = None)
    /\ (forall k threadId, BucketTable.mark tb k threadId = tb)
    /\ (forall k threadId, BucketTable.unmark tb k threadId = tb)
    /\ (forall ops, TableOps.run tb ops = tb).
  Proof.
    intros tb.
    assert (Hd : BucketTable.data tb = []) by (apply create_small_data; exact Hsmall).
    assert (Hs : BucketTable._size tb = 0) by reflexivity.
    split; [exact Hd|]. split; [exact Hs|].
    repeat split.
    - intros k v. unfold BucketTable.insert. rewrite Hd. reflexivity.
    - intros k. unfold BucketTable.find. rewrite Hd. reflexivity.
    - intros k threadId. unfold BucketTable.mark, BucketTable.touch. rewrite Hd. reflexivity.
    - intros k threadId. unfold BucketTable.unmark, BucketTable.touch. rewrite Hd. reflexivity.
    - intros ops. unfold TableOps.run. induction ops as [|o ops IH]; [reflexivity|].
      simpl. rewrite (step_no_buckets tb o Hd Hs). exact IH.
  Qed.
End BucketTableFacts.

Section BucketFacts.
  Context {Key Value : Type} `{KO : TTKey Key} `{VO : TTValue Value}.
  Import BucketSpec.

Lemma four_entries (b : BucketTable.Bucket Key Value) :
    length b = 4%nat -> exists e0 e1 e2 e3, b = [e0; e1; e2; e3].
  Proof.
    destruct b as [|e0 [|e1 [|e2 [|e3 [|]]]]]; simpl; intros H; try discriminate.
    eauto.
  Qed.

  (** A slot in use holds the key: the first such slot is updated in place. *)
Lemma insertBucket_match (b : BucketTable.Bucket Key Value) k v i e :
    wellFormed b ->
    list_find (fun e => holdsKey k e = true) b = Some (i, e) ->
    BucketTable.insertBucket b k v =
      (<[i := BucketTable.mkEntry (BucketTable.key e) (valueUpdate (BucketTable.value e) v) true]> b,
       Some (BucketTable.value e), false).
  Proof.
    intros [Hlen Hpre] Hfind.
    destruct (four_entries b Hlen) as ([k0 v0 o0] & [k1 v1 o1] & [k2 v2 o2] & [k3 v3 o3] & ->).
    pose proof (Hpre 0%nat 1%nat) as H01. pose proof (Hpre 1%nat 2%nat) as H12.
    pose proof (Hpre 2%nat 3%nat) as H23.
    unfold BucketTable.entryAt in *. simpl in *.
    unfold BucketTable.insertBucket, BucketTable.replaceIdx, BucketTable.BUCKET_SIZE,
      BucketTable.entryAt.
    unfold holdsKey in Hfind. simpl in *.
    destruct o0, o1, o2, o3; simpl in *;
      try (specialize (H01 ltac:(lia) eq_refl); discriminate);
      try (specialize (H12 ltac:(lia) eq_refl); discriminate);
      try (specialize (H23 ltac:(lia) eq_refl); discriminate);
      split_keys k0 k1 k2 k3 k; simpl in *;
      repeat (case_decide; try discriminate; try congruence); simplify_eq; simpl;
      rewrite ?E0, ?E1, ?E2, ?E3; simpl; reflexivity.
  Qed.

  (** No slot in use holds the key and a slot is free: the first free slot
      takes the entry. *)
Lemma insertBucket_free (b : BucketTable.Bucket Key Value) k v i e :
    length b = 4%nat ->
    list_find (fun e => holdsKey k e = true) b = None ->
    list_find (fun e => BucketTable.occupied e = false) b = Some (i, e) ->
    BucketTable.insertBucket b k v = (<[i := BucketTable.newEntry k v]> b, None, true).
  Proof.
    intros Hlen Hnone Hfind.
    destruct (four_entries b Hlen) as ([k0 v0 o0] & [k1 v1 o1] & [k2 v2 o2] & [k3 v3 o3] & ->).
    unfold BucketTable.insertBucket, BucketTable.replaceIdx, BucketTable.BUCKET_SIZE,
      BucketTable.entryAt.
    unfold holdsKey in Hnone. simpl in *.
    destruct o0, o1, o2, o3; simpl in *;
      split_keys k0 k1 k2 k3 k; simpl in *;
      repeat (case_decide; try discriminate; try congruence); simplify_eq; simpl;
      rewrite ?E0, ?E1, ?E2, ?E3; simpl; reflexivity.
  Qed.

  (** [insert] keeps the buckets well formed. *)
Lemma insertBucket_wellFormed (b : BucketTable.Bucket Key Value) k v :
    wellFormed b -> wellFormed (fst (fst (BucketTable.insertBucket b k v))).
  Proof.
    intros [Hlen Hpre].
    destruct (four_entries b Hlen) as ([k0 v0 o0] & [k1 v1 o1] & [k2 v2 o2] & [k3 v3 o3] & ->).
    pose proof (Hpre 0%nat 1%nat) as H01. pose proof (Hpre 1%nat 2%nat) as H12.
    pose proof (Hpre 2%nat 3%nat) as H23. clear Hpre.
    unfold BucketTable.entryAt in *. simpl in *.
    assert (Hgen : forall c : BucketTable.Bucket Key Value,
               length c = 4%nat ->
               (BucketTable.occupied (nth 1 c BucketTable.emptyEntry) = true ->
                BucketTable.occupied (nth 0 c BucketTable.emptyEntry) = true) ->
               (BucketTable.occupied (nth 2 c BucketTable.emptyEntry) = true ->
                BucketTable.occupied (nth 1 c BucketTable.emptyEntry) = true) ->
               (BucketTable.occupied (nth 3 c BucketTable.emptyEntry) = true ->
                BucketTable.occupied (nth 2 c BucketTable.emptyEntry) = true) ->
               wellFormed c).
    { intros c Hc A B C. split; [exact Hc|]. intros i j Hij Hj.
      destruct (four_entries c Hc) as (c0 & c1 & c2 & c3 & ->).
      unfold BucketTable.entryAt in *. simpl in *.
      destruct j as [|[|[|[|j]]]]; simpl in Hj; try lia;
        [| | |destruct j; simpl in Hj; discriminate];
        destruct i as [|[|[|i]]]; simpl; try lia; auto. }
    unfold BucketTable.insertBucket, BucketTable.replaceIdx, BucketTable.BUCKET_SIZE,
      BucketTable.entryAt. simpl.
    destruct o0, o1, o2, o3; simpl in *;
      try (specialize (H01 ltac:(lia) eq_refl); discriminate);
      try (specialize (H12 ltac:(lia) eq_refl); discriminate);
      try (specialize (H23 ltac:(lia) eq_refl); discriminate);
      split_keys k0 k1 k2 k3 k; simpl;
      repeat match goal with
             | |- context [valueLt ?a ?b] => is_var a; is_var b; destruct (valueLt a b); simpl
             end;
      rewrite ?E0, ?E1, ?E2, ?E3; simpl;
      apply Hgen; simpl; auto.
  Qed.
End BucketFacts.

Section ReachableBuckets.
  Context {Key Value : Type} `{KO : TTKey Key} `{VO : TTValue Value}.
  Import BucketSpec.

Lemma emptyBucket_wellFormed : wellFormed (BucketTable.emptyBucket (Key := Key) (Value := Value)).
  Proof.
    split; [reflexivity|]. intros i j Hij Hj. exfalso.
    unfold BucketTable.entryAt, BucketTable.emptyBucket, BucketTable.BUCKET_SIZE in Hj.
    destruct j as [|[|[|[|j]]]]; simpl in Hj; try discriminate.
    destruct j; simpl in Hj; discriminate.
  Qed.

  (** [mark] and [unmark] change the value of a slot, not its use. *)
Lemma touchFrom_wellFormed (f : Value -> Value) (b : BucketTable.Bucket Key Value) (k : Key) :
    wellFormed b -> wellFormed (BucketTable.touchFrom f b k BucketTable.BUCKET_SIZE 0).
  Proof.
    intros [Hlen Hpre].
    destruct (four_entries b Hlen) as ([k0 v0 o0] & [k1 v1 o1] & [k2 v2 o2] & [k3 v3 o3] & ->).
    assert (Hsame : forall c : BucketTable.Bucket Key Value,
               length c = 4%nat ->
               (forall j, BucketTable.occupied (BucketTable.entryAt c j)
                          = BucketTable.occupied
                              (BucketTable.entryAt
                                 [BucketTable.mkEntry k0 v0 o0; BucketTable.mkEntry k1 v1 o1;
                                  BucketTable.mkEntry k2 v2 o2; BucketTable.mkEntry k3 v3 o3] j)) ->
               wellFormed c).
    { intros c Hc Hocc. split; [exact Hc|]. intros i j Hij Hj.
      rewrite Hocc in *. apply (Hpre i j Hij Hj). }
    unfold BucketTable.BUCKET_SIZE, BucketTable.entryAt in *.
    destruct o0, o1, o2, o3; simpl; unfold BucketTable.entryAt; simpl;
      split_keys k0 k1 k2 k3 k; simpl;
      (apply Hsame; [reflexivity|]);
      intros [|[|[|[|j]]]]; reflexivity.
  Qed.

  (** Every bucket of a table that the constructor and the operations built
      is well formed. *)
Lemma run_wellFormed (capacity : N) (ops : list (TableOps.op Key Value)) :
    Forall wellFormed (BucketTable.data (TableOps.run (BucketTable.create capacity) ops)).
  Proof.
    assert (H0 : Forall wellFormed
                   (BucketTable.data (BucketTable.create (Key := Key) (Value := Value) capacity))).
    { unfold BucketTable.create. cbn [BucketTable.data]. apply Forall_replicate.
      apply emptyBucket_wellFormed. }
    revert H0. unfold TableOps.run.
    generalize (BucketTable.create (Key := Key) (Value := Value) capacity).
    induction ops as [|o ops IH]; intros tb Hinv; [exact Hinv|].
    cbn [fold_left]. apply IH. clear IH.
    assert (Hat : forall k, wellFormed (BucketTable.bucketAt tb k)).
    { intros k. unfold BucketTable.bucketAt.
      destruct (nth_in_or_default (BucketTable.bucketIdx tb k) (BucketTable.data tb)
                  BucketTable.emptyBucket) as [Hin| ->]; [|apply emptyBucket_wellFormed].
      rewrite Forall_forall in Hinv. apply Hinv. apply list_elem_of_In. exact Hin. }
    assert (Htouch : forall f k, Forall wellFormed (BucketTable.data (BucketTable.touch f tb k))).
    { intros f k. unfold BucketTable.touch.
      destruct (BucketTable.data tb) as [|b0 bs] eqn:Hd; [rewrite Hd; constructor|].
      cbn [BucketTable.data]. rewrite <- Hd in *. apply Forall_insert; [exact Hinv|].
      apply touchFrom_wellFormed. apply Hat. }
    destruct o as [k v|k threadId|k threadId|]; cbn [TableOps.step].
    - unfold BucketTable.insert.
      destruct (BucketTable.data tb) as [|b0 bs] eqn:Hd; [cbn; rewrite Hd; constructor|].
      pose proof (insertBucket_wellFormed (BucketTable.bucketAt tb k) k v (Hat k)) as Hb.
      destruct (BucketTable.insertBucket (BucketTable.bucketAt tb k) k v) as [[b' o] g].
      cbn [fst BucketTable.data] in *. rewrite <- Hd in *. apply Forall_insert; assumption.
    - apply Htouch.
    - apply Htouch.
    - unfold BucketTable.clear. cbn [BucketTable.data]. apply Forall_forall.
      intros b Hb. apply list_elem_of_In, in_map_iff in Hb as (? & <- & _).
      apply emptyBucket_wellFormed.
  Qed.

Lemma run_bucketAt_wellFormed (capacity : N) (ops : list (TableOps.op Key Value)) (k : Key) :
    wellFormed (BucketTable.bucketAt (TableOps.run (BucketTable.create capacity) ops) k).
  Proof.
    pose proof (run_wellFormed capacity ops) as Hinv. unfold BucketTable.bucketAt.
    destruct (nth_in_or_default
                (BucketTable.bucketIdx (TableOps.run (BucketTable.create capacity) ops) k)
                (BucketTable.data (TableOps.run (BucketTable.create capacity) ops))
                BucketTable.emptyBucket) as [Hin|Heq].
    - rewrite Forall_forall in Hinv. apply Hinv. apply list_elem_of_In. exact Hin.
    - rewrite Heq. apply emptyBucket_wellFormed.
  Qed.
End ReachableBuckets.

Section EvictionFacts.
  Context {Key Value : Type} `{KO : TTKey Key} `{VO : TTValue Value}.
  Import BucketSpec.
  Variable proved : Value -> bool.
  Variable iterations : Value -> N.
  Hypothesis valueLt_rank :
    forall x y : Value, valueLt x y = proved x || (iterations x <? iterations y).

  (** The bucket is full and no slot holds the key: the slot the scan stops
      at is overwritten. *)
Lemma insertBucket_evict (b : BucketTable.Bucket Key Value) k v :
    length b = 4%nat ->
    list_find (fun e => holdsKey k e = true) b = None ->
    Forall (fun e => BucketTable.occupied e = true) b ->
    let r := BucketTable.replaceIdx b k in
    let its := fun j => iterations (BucketTable.value (BucketTable.entryAt b j)) in
    let isProved := fun j => proved (BucketTable.value (BucketTable.entryAt b j)) in
    BucketTable.insertBucket b k v = (<[r := BucketTable.newEntry k v]> b, None, false)
    /\ (r < 4)%nat
    /\ (forall j, (r < j < 4)%nat -> isProved j = false /\ its r <= its j)
    /\ (forall j, (j < r)%nat ->
          (exists i, (j < i <= r)%nat /\ isProved i = true) \/ its r < its j).
  Proof.
    intros Hlen Hnone Hfull.
    destruct (four_entries b Hlen)
      as ([k0 v0 o0] & [k1 v1 o1] & [k2 v2 o2] & [k3 v3 o3] & ->).
    apply list_find_None in Hnone.
    repeat match goal with H : Forall _ (_ :: _) |- _ => inversion H; clear H; subst end.
    unfold holdsKey in *. simpl in *. subst. simpl in *.
    destruct (keyEqb k0 k) eqn:E0; [congruence|].
    destruct (keyEqb k1 k) eqn:E1; [congruence|].
    destruct (keyEqb k2 k) eqn:E2; [congruence|].
    destruct (keyEqb k3 k) eqn:E3; [congruence|].
    cbv zeta.
    unfold BucketTable.insertBucket, BucketTable.replaceIdx, BucketTable.BUCKET_SIZE,
      BucketTable.entryAt.
    destruct (proved v1) eqn:P1.
    all: destruct (proved v2) eqn:P2.
    all: destruct (proved v3) eqn:P3.
    all: repeat (simpl; rewrite ?valueLt_rank; simpl;
                 rewrite ?E0, ?E1, ?E2, ?E3, ?P1, ?P2, ?P3; simpl;
                 try match goal with
                     | |- context [N.ltb (iterations ?a) (iterations ?b)] =>
                         is_var a; is_var b;
                         destruct (N.ltb_spec (iterations a) (iterations b))
                     end).
    all: unfold BucketTable.entryAt in *; simpl in *.
    all: split; [reflexivity|]; split; [lia|].
    all: split;
      [intros j Hj; assert (Hc : (j = 1 \/ j = 2 \/ j = 3)%nat) by lia;
       destruct Hc as [?|[?|?]]; subst j; simpl; try lia;
       rewrite ?P1, ?P2, ?P3; split; try reflexivity; try lia |].
    all: intros j Hj; assert (Hc : (j = 0 \/ j = 1 \/ j = 2)%nat) by lia;
      destruct Hc as [?|[?|?]]; subst j; simpl; try lia.
    all: first [ right; lia
               | left; exists 1%nat; split; [lia|simpl; assumption]
               | left; exists 2%nat; split; [lia|simpl; assumption]
               | left; exists 3%nat; split; [lia|simpl; assumption] ].
  Qed.

  (** Only one slot is as [insertBucket_evict] describes the overwritten one. *)
Lemma evicted_slot_unique (its : nat -> N) (isProved : nat -> bool) (r r' : nat) :
    (forall j, (r < j < 4)%nat -> isProved j = false /\ its r <= its j) ->
    (forall j, (j < r)%nat ->
       (exists i, (j < i <= r)%nat /\ isProved i = true) \/ its r < its j) ->
    (r < 4)%nat -> (r' < 4)%nat ->
    (forall j, (r' < j < 4)%nat -> isProved j = false /\ its r' <= its j) ->
    (forall j, (j < r')%nat ->
       (exists i, (j < i <= r')%nat /\ isProved i = true) \/ its r' < its j) ->
    r' = r.
  Proof.
    intros Ha Hb Hr Hr' Ha' Hb'.
    destruct (Nat.lt_trichotomy r r') as [Hlt|[Heq|Hgt]]; [|congruence|]; exfalso.
    - destruct (Ha r' ltac:(lia)) as [_ Hle].
      destruct (Hb' r Hlt) as [(i & Hi & Hp)|Hless]; [|lia].
      destruct (Ha i ltac:(lia)) as [Hn _]. congruence.
    - destruct (Ha' r ltac:(lia)) as [_ Hle].
      destruct (Hb r' Hgt) as [(i & Hi & Hp)|Hless]; [|lia].
      destruct (Ha' i ltac:(lia)) as [Hn _]. congruence.
  Qed.
End EvictionFacts.

Section TableInsertFacts.
  Context {Key Value : Type} `{KO : TTKey Key} `{VO : TTValue Value}.

  (** [insert] on a table with buckets, through the bucket of the key. *)
Lemma insert_bucket (tb : BucketTable.t Key Value) (k : Key) (v : Value)
      (b' : BucketTable.Bucket Key Value) (original : option Value) (grown : bool) :
    BucketTable.data tb <> [] ->
    BucketTable.insertBucket (BucketTable.bucketAt tb k) k v = (b', original, grown) ->
    BucketTable.insert tb k v
    = (BucketTable.mk (<[BucketTable.bucketIdx tb k := b']> (BucketTable.data tb))
                      (if grown then BucketTable._size tb + 1 else BucketTable._size tb),
       original).
  Proof.
    intros Hne Hb. unfold BucketTable.insert.
    destruct (BucketTable.data tb) as [|b0 bs] eqn:Hd; [congruence|].
    rewrite Hb. reflexivity.
  Qed.
End TableInsertFacts.

Section ReplacementPolicy.
  Context {Key : Type} `{KO : TTKey Key}.
  Import BucketSpec.

  (** C2, as the code has it.  [operator<] of [StoredNodeInfo] and of
      [StoredParallelNodeInfo] is [isProved() || iterations < other.iterations]:
      a proved value is below every value.  For every value type ordered in
      this way, [insert] on a table with buckets, where the bucket [b] of the
      key is well formed,
      - updates the first slot that holds the key through [update], returns
        the value it held and leaves the size;
      - else fills the first free slot, returns nothing and adds one to the
        size;
      - else overwrites the slot [r] the scan ends on, returns nothing and
        leaves the size.  [r] is the only slot such that no later slot is
        proved or has fewer iterations, and every earlier slot either comes
        before a proved slot that is not after [r], or has more iterations
        than [r].  So a proved slot among slots 1 to 3 is never after [r],
        and if none of the slots 1 to 3 is proved [r] is the first slot with
        the fewest iterations.
      In all three cases the other buckets and the other slots of [b] are
      left as they were.  Every bucket of a table that the constructor,
      [insert], [mark], [unmark] and [clear] built is well formed. *)
Theorem insert_replacement_policy :
    (forall x y : StoredNodeInfo.t,
        valueLt x y = ProofNumbers.isProved (StoredNodeInfo.proofNumbers x)
                      || (StoredNodeInfo.iterations x <? StoredNodeInfo.iterations y))
    /\ (forall x y : StoredParallelNodeInfo.t,
          valueLt x y = ProofNumbers.isProved (StoredParallelNodeInfo.proofNumbers x)
                        || (StoredParallelNodeInfo.iterations x
                            <? StoredParallelNodeInfo.iterations y))
    /\ (forall (Value : Type) (VO : TTValue Value)
               (proved : Value -> bool) (iterations : Value -> N),
          (forall x y : Value, valueLt x y = proved x || (iterations x <? iterations y)) ->
          forall (tb : BucketTable.t Key Value) (k : Key) (v : Value),
            BucketTable.data tb <> [] ->
            let b := BucketTable.bucketAt tb k in
            let idx := BucketTable.bucketIdx tb k in
            wellFormed b ->
            (forall i e, list_find (fun e => holdsKey k e = true) b = Some (i, e) ->
               BucketTable.insert tb k v
               = (BucketTable.mk
                    (<[idx := <[i := BucketTable.mkEntry (BucketTable.key e)
                                       (valueUpdate (BucketTable.value e) v) true]> b]>
                       (BucketTable.data tb))
                    (BucketTable._size tb),
                  Some (BucketTable.value e)))
            /\ (list_find (fun e => holdsKey k e = true) b = None ->
                forall i e, list_find (fun e => BucketTable.occupied e = false) b = Some (i, e) ->
                  BucketTable.insert tb k v
                  = (BucketTable.mk
                       (<[idx := <[i := BucketTable.newEntry k v]> b]> (BucketTable.data tb))
                       (BucketTable._size tb + 1),
                     None))
            /\ (list_find (fun e => holdsKey k e = true) b = None ->
                Forall (fun e => BucketTable.occupied e = true) b ->
                let r := BucketTable.replaceIdx b k in
                let its := fun j => iterations (BucketTable.value (BucketTable.entryAt b j)) in
                let isProved := fun j => proved (BucketTable.value (BucketTable.entryAt b j)) in
                BucketTable.insert tb k v
                = (BucketTable.mk
                     (<[idx := <[r := BucketTable.newEntry k v]> b]> (BucketTable.data tb))
                     (BucketTable._size tb),
                   None)
                /\ (r < 4)%nat
                /\ (forall j, (r < j < 4)%nat -> isProved j = false /\ its r <= its j)
                /\ (forall j, (j < r)%nat ->
                      (exists i, (j < i <= r)%nat /\ isProved i = true) \/ its r < its j)
                /\ (forall r', (r' < 4)%nat ->
                      (forall j, (r' < j < 4)%nat -> isProved j = false /\ its r' <= its j) ->
                      (forall j, (j < r')%nat ->
                         (exists i, (j < i <= r')%nat /\ isProved i = true) \/ its r' < its j) ->
                      r' = r)
                /\ (forall i, (1 <= i < 4)%nat -> isProved i = true -> (i <= r)%nat)
                /\ ((forall i, (1 <= i < 4)%nat -> isProved i = false) ->
                    forall j, (j < 4)%nat ->
                      its r <= its j /\ ((j < r)%nat -> its r < its j))))
    /\ (forall (Value : Type) (VO : TTValue Value)
               (capacity : N) (ops : list (TableOps.op Key Value)) (k : Key),
          wellFormed (BucketTable.bucketAt (TableOps.run (BucketTable.create capacity) ops) k)).
  Proof.
    split; [reflexivity|]. split; [reflexivity|].
    split; [|intros Value VO capacity ops k; apply run_bucketAt_wellFormed].
    intros Value VO proved iterations Hrank tb k v Hne b idx Hwf.
    split; [|split].
    - intros i e Hf. apply (insert_bucket tb k v _ _ false Hne).
      apply (insertBucket_match b k v i e Hwf Hf).
    - intros Hn i e Hf. apply (insert_bucket tb k v _ _ true Hne).
      apply (insertBucket_free b k v i e (proj1 Hwf) Hn Hf).
    - intros Hn Hfull r its isProved.
      destruct (insertBucket_evict proved iterations Hrank b k v (proj1 Hwf) Hn Hfull)
        as (Hins & Hr & Hafter & Hbefore).
      change (forall j, (r < j < 4)%nat -> isProved j = false /\ its r <= its j) in Hafter.
      change (forall j, (j < r)%nat ->
                (exists i, (j < i <= r)%nat /\ isProved i = true) \/ its r < its j) in Hbefore.
      change (BucketTable.replaceIdx b k) with r in Hins, Hr.
      clearbody r its isProved.
      split; [apply (insert_bucket tb k v _ _ false Hne); exact Hins|].
      split; [exact Hr|]. split; [exact Hafter|]. split; [exact Hbefore|].
      split; [|split].
      + intros r' Hr' Ha' Hb'.
        apply (evicted_slot_unique its isProved r r' Hafter Hbefore Hr Hr' Ha' Hb').
      + intros i Hi Hp. destruct (Nat.le_gt_cases i r) as [Hle|Hgt]; [exact Hle|].
        destruct (Hafter i ltac:(lia)) as [Hnp _]. congruence.
      + intros Hnone j Hj. split.
        * destruct (Nat.lt_trichotomy j r) as [Hlt|[->|Hgt]]; [| lia |].
          -- destruct (Hbefore j Hlt) as [(i & Hi & Hp)|Hless]; [|lia].
             rewrite (Hnone i ltac:(lia)) in Hp. discriminate.
          -- apply (Hafter j). lia.
        * intros Hlt. destruct (Hbefore j Hlt) as [(i & Hi & Hp)|Hless]; [|exact Hless].
          rewrite (Hnone i ltac:(lia)) in Hp. discriminate.
  Qed.
End ReplacementPolicy.

Section TableExamplesFacts.
  Import BucketSpec TableExamples.

Lemma full_bucket_wellFormed {Value : Type} `{VO : TTValue Value}
      (e0 e1 e2 e3 : BucketTable.TTEntry Compact Value) :
    BucketTable.occupied e0 = true -> BucketTable.occupied e1 = true ->
    BucketTable.occupied e2 = true -> BucketTable.occupied e3 = true ->
    wellFormed [e0; e1; e2; e3].
  Proof.
    intros H0 H1 H2 H3. split; [reflexivity|].
    intros i j Hij Hj. unfold BucketTable.entryAt in *.
    destruct i as [|[|[|[|i]]]]; simpl; auto.
    destruct j as [|[|[|[|j]]]]; try lia. simpl in Hj.
    destruct j; simpl in Hj; discriminate.
  Defined.

Lemma insert_replacement_policy_witness :
    wellFormed rankedBucket
    /\ wellFormed plainBucket
    /\ BucketTable.insert rankedTable (chainKey 5) (parallelInfo (mkPN 1 1) 0)
       = (BucketTable.mk
            [<[2%nat := BucketTable.newEntry (chainKey 5) (parallelInfo (mkPN 1 1) 0)]>
               rankedBucket] 4,
          None)
    /\ BucketTable.insert plainTable (chainKey 5) (unproved 1)
       = (BucketTable.mk [<[1%nat := slot 5 (unproved 1)]> plainBucket] 4, None).
  Proof.
    assert (Hwf : wellFormed rankedBucket)
      by (apply full_bucket_wellFormed; reflexivity).
    assert (Hwf' : wellFormed plainBucket)
      by (apply full_bucket_wellFormed; reflexivity).
    split; [exact Hwf|]. split; [exact Hwf'|].
    assert (Hb : BucketTable.bucketAt rankedTable (chainKey 5) = rankedBucket)
      by (vm_compute; reflexivity).
    assert (Hb' : BucketTable.bucketAt plainTable (chainKey 5) = plainBucket)
      by (vm_compute; reflexivity).
    assert (Hne : BucketTable.data rankedTable <> []) by (vm_compute; discriminate).
    assert (Hne' : BucketTable.data plainTable <> []) by (vm_compute; discriminate).
    destruct (insert_replacement_policy (Key := Compact)) as (Hrank' & Hrank & Hpolicy & _).
    pose proof (Hpolicy _ _ _ _ Hrank rankedTable (chainKey 5) (parallelInfo (mkPN 1 1) 0) Hne)
      as H.
    pose proof (Hpolicy _ _ _ _ Hrank' plainTable (chainKey 5) (unproved 1) Hne') as H'.
    cbv zeta in H, H'. rewrite Hb in H. rewrite Hb' in H'.
    destruct (H Hwf) as (_ & _ & Hevict). destruct (H' Hwf') as (_ & _ & Hevict').
    destruct Hevict as (Hins & _); [vm_compute; reflexivity|repeat constructor|].
    destruct Hevict' as (Hins' & _); [vm_compute; reflexivity|repeat constructor|].
    split; [rewrite Hins|rewrite Hins']; vm_compute; reflexivity.
  Defined.

  (** Against C2 as stated: in [mixedBucket] the proved entry of slot 1 ranks
      below the unproved entry of slot 0, which has fewer iterations, and it
      is the proved entry that [insert] overwrites. *)
Lemma eviction_drops_proved_entry :
    valueLt (provedWin 5) (unproved 1) = true
    /\ ProofNumbers.isProved (StoredNodeInfo.proofNumbers (provedWin 5)) = true
    /\ ProofNumbers.isProved (StoredNodeInfo.proofNumbers (unproved 1)) = false
    /\ BucketTable.insertBucket mixedBucket (chainKey 5) (unproved 1)
       = ([slot 1 (unproved 1); slot 5 (unproved 1); slot 3 (unproved 9); slot 4 (unproved 9)],
          None, false)
    /\ BucketTable.insert mixedTable (chainKey 5) (unproved 1)
       = (BucketTable.mk
            [[slot 1 (unproved 1); slot 5 (unproved 1); slot 3 (unproved 9); slot 4 (unproved 9)]]
            4,
          None).
  Proof. vm_compute. repeat split. Qed.
Lemma small_table_is_inert_witness :
    3 < N.of_nat BucketTable.BUCKET_SIZE
    /\ BucketTable.insert (BucketTable.create 3) (chainKey 1) (unproved 1)
       = (BucketTable.create 3, None)
    /\ BucketTable.find (BucketTable.create (Value := StoredNodeInfo.t) 3) (chainKey 1) = None.
  Proof.
    assert (H : 3 < N.of_nat BucketTable.BUCKET_SIZE) by (vm_compute; reflexivity).
    split; [exact H|].
    destruct (small_table_is_inert (Key := Compact) (Value := StoredNodeInfo.t) 3 H)
      as (_ & _ & Hins & Hfind & _).
    split; [apply Hins | apply Hfind].
  Defined.
End TableExamplesFacts.

(** ** Proof numbers *)
Section ProofNumberFacts.
Lemma PN_ltb_irrefl a : PN.ltb a a = false.
Proof. unfold PN.ltb. destruct (PN.is_inf a); [reflexivity|]. apply N.ltb_irrefl. Qed.

Lemma PN_ltb_false_inv a b :
  PN.ltb a b = false -> PN.is_inf a = true \/ (PN.is_inf b = false /\ b <= a).
Proof.
  unfold PN.ltb. destruct (PN.is_inf a); [auto|].
  destruct (PN.is_inf b); [discriminate|].
  intros H. apply N.ltb_ge in H. auto.
Qed.

Lemma PN_ltb_true_inv a b :
  PN.ltb a b = true -> PN.is_inf a = false /\ (PN.is_inf b = true \/ a < b).
Proof.
  unfold PN.ltb. destruct (PN.is_inf a); [discriminate|].
  destruct (PN.is_inf b); [auto|].
  intros H. apply N.ltb_lt in H. auto.
Qed.

(** [le a b] *)
Lemma PN_le_trans a b c : PN.ltb b a = false -> PN.ltb c b = false -> PN.ltb c a = false.
Proof.
  intros H1 H2. apply PN_ltb_false_inv in H2. unfold PN.ltb.
  destruct (PN.is_inf c) eqn:Ec; [reflexivity|].
  destruct H2 as [H2|[H2 H2']]; [discriminate|].
  apply PN_ltb_false_inv in H1. destruct H1 as [H1|[H1 H1']]; [congruence|].
  rewrite H1. apply N.ltb_ge. lia.
Qed.

Lemma PN_add_ge a b r : PN.add a b = Ok r -> PN.ltb r a = false /\ PN.ltb r b = false.
Proof.
  unfold PN.add, PN.will_addition_overflow.
  destruct (PN.is_inf a || PN.is_inf b) eqn:E.
  - intros [= <-]. unfold PN.ltb. change (PN.is_inf PN.INF) with true. auto.
  - apply orb_false_elim in E as [Ea Eb].
    destruct (N.leb_spec (PN.MAX - b) a); [discriminate|].
    intros [= <-]. unfold PN.ltb, PN.is_inf in *.
    apply N.eqb_neq in Ea, Eb.
    assert (a + b <> PN.MAX) by lia.
    destruct (N.eqb_spec (a + b) PN.MAX); [congruence|].
    rewrite (proj2 (N.eqb_neq a PN.MAX) Ea), (proj2 (N.eqb_neq b PN.MAX) Eb).
    split; apply N.ltb_ge; lia.
Qed.

Lemma PN_max_ge a b : PN.ltb (PN.max a b) a = false /\ PN.ltb (PN.max a b) b = false.
Proof.
  unfold PN.max. destruct (PN.ltb a b) eqn:E.
  - split; [|apply PN_ltb_irrefl].
    apply PN_ltb_true_inv in E as [Ea [Eb|Eb]]; unfold PN.ltb.
    + rewrite Eb. reflexivity.
    + destruct (PN.is_inf b); [reflexivity|]. rewrite Ea. apply N.ltb_ge. lia.
  - split; [apply PN_ltb_irrefl|exact E].
Qed.
End ProofNumberFacts.

Section UpdateFacts.
Context `{G : Game} {Child : Type} `{CO : ChildOps Child}.
Variable complexity : PnsNode Child -> nat -> Res PN.value_type.

Lemma singleLandLoop_dominates (n : PnsNode Child) (cs : list Child) (pn pn' : ProofNumbers) :
  PnsNode.singleLandLoop n cs pn = Ok pn' ->
  PN.ltb (disproof pn') (disproof pn) = false
  /\ Forall (fun c => PN.ltb (disproof pn') (proof (childProofNumbers c)) = false) cs.
Proof.
  revert pn. induction cs as [|c cs IH]; intros pn H; simpl in H.
  - injection H as <-. split; [apply PN_ltb_irrefl|constructor].
  - destruct (negb (overestimated (info n))).
    + destruct (PN.add (disproof pn) (proof (childProofNumbers c))) as [d| |] eqn:Ed;
        simpl in H; try discriminate.
      apply IH in H as [H1 H2]. simpl in H1.
      apply PN_add_ge in Ed as [Ea Eb].
      split; [eapply PN_le_trans; eassumption|].
      constructor; [eapply PN_le_trans; eassumption|exact H2].
    + simpl in H. apply IH in H as [H1 H2]. simpl in H1.
      destruct (PN_max_ge (disproof pn) (proof (childProofNumbers c))) as [Ea Eb].
      split; [eapply PN_le_trans; eassumption|].
      constructor; [eapply PN_le_trans; eassumption|exact H2].
Qed.

Lemma updateSingleLand_dominates (n0 n : PnsNode Child) :
  PnsNode.updateSingleLandProofNumbers n0 = Ok n ->
  children n = children n0
  /\ Forall (fun c => PN.ltb (disproof (proofNumbers (info n))) (proof (childProofNumbers c)) = false)
            (children n).
Proof.
  unfold PnsNode.updateSingleLandProofNumbers. intros H.
  destruct (PnsNode.singleLandLoop n0 (children n0) _) as [pn| |] eqn:El; simpl in H; try discriminate.
  apply singleLandLoop_dominates in El as [_ Hdom].
  destruct (overestimated (info n0)).
  - destruct (PN.add (disproof pn) (PnsNode.sizeMinusOne n0)) as [d| |] eqn:Ed; simpl in H; try discriminate.
    injection H as <-. simpl. split; [reflexivity|].
    apply PN_add_ge in Ed as [Ea _].
    eapply Forall_impl; [exact Hdom|]. intros c Hc. simpl in Hc. eapply PN_le_trans; eassumption.
  - simpl in H. injection H as <-. simpl. split; [reflexivity|]. exact Hdom.
Qed.
End UpdateFacts.

Section ThresholdFacts.
Context `{G : Game} {Child : Type} `{CO : ChildOps Child}.
Variable complexity : PnsNode Child -> nat -> Res PN.value_type.
Variable sw : PnsNode Child -> nat -> nat -> Res PN.value_type.

Lemma areHolding_inv (th : Thresholds) (n : PnsNode Child) :
  Thresholds.areHolding th n = Ok true ->
  PN.ltb (proof (proofNumbers (info n))) (proofTh th) = true
  /\ PN.ltb (disproof (proofNumbers (info n))) (disproofTh th) = true
  /\ exists a b, PN.add (proof (proofNumbers (info n))) (pShift th) = Ok a
              /\ PN.add (disproof (proofNumbers (info n))) (dShift th) = Ok b
              /\ PN.ltb (PN.min a b) (minTh th) = true.
Proof.
  unfold Thresholds.areHolding.
  destruct (PN.ltb (proof _) (proofTh th)) eqn:E1; simpl; [|discriminate].
  destruct (PN.ltb (disproof _) (disproofTh th)) eqn:E2; simpl; [|discriminate].
  destruct (PN.add (proof _) (pShift th)) as [a| |] eqn:Ea; simpl; try discriminate.
  destruct (PN.add (disproof _) (dShift th)) as [b| |] eqn:Eb; simpl; try discriminate.
  intros [= H]. eauto 10.
Qed.

Lemma toPlain_no_underflow (th : Thresholds) (n : PnsNode Child) (i : nat) (j : option nat) :
  Forall (fun c => PN.ltb (disproof (proofNumbers (info n))) (proof (childProofNumbers c)) = false)
         (children n) ->
  Thresholds.areHolding th n = Ok true ->
  Thresholds.switchingThOf sw n i j <> Throw underflow_error ->
  Thresholds.toPlainMpnThresholds sw th n i j <> Throw underflow_error.
Proof.
  intros Hdom Hhold Hsw.
  apply areHolding_inv in Hhold as (Hp & Hd & a & b & Ha & Hb & Hm).
  unfold Thresholds.toPlainMpnThresholds, PnsNode.getChild, PnsNode.getProofNumbers.
  destruct (children n !! i) as [mpn|] eqn:Ei; simpl; [|discriminate].
  assert (Hmpn : PN.ltb (disproof (proofNumbers (info n))) (proof (childProofNumbers mpn)) = false).
  { rewrite Forall_forall in Hdom. apply Hdom. eapply list_elem_of_lookup_2. exact Ei. }
  destruct (Thresholds.switchingThOf sw n i j) as [s|e|]; simpl; [|congruence|discriminate].
  set (pd := disproof (proofNumbers (info n))) in *.
  set (mp := proof (childProofNumbers mpn)) in *.
  set (dT := disproofTh th) in *. set (dS := dShift th) in *.
  clearbody pd mp dT dS. clear Hsw Hp Ha Hm Hdom Ei.
  destruct (PN.sub dT pd) as [x| |] eqn:Ex; simpl.
  - destruct (PN.add x mp) as [y|e|] eqn:Ey; simpl.
    + destruct (PN.add dS pd) as [z|e|] eqn:Ez; simpl.
      * destruct (PN.sub z mp) as [w|e|] eqn:Ew; simpl; try discriminate.
        exfalso. clear Ex Ey. pn_solve.
      * clear -Ez. pn_solve.
      * discriminate.
    + clear -Ey. pn_solve.
    + discriminate.
  - exfalso. clear Hmpn Hb. pn_solve.
  - discriminate.
Qed.

Lemma PN_lt_le_incl a b : PN.ltb a b = true -> PN.ltb b a = false.
Proof. intros H. pn_solve. Qed.

Lemma PN_le_lt_trans a b c : PN.ltb b a = false -> PN.ltb b c = true -> PN.ltb a c = true.
Proof. intros H1 H2. pn_solve. Qed.

Lemma PN_min_le_l a b : PN.ltb a (PN.min a b) = false.
Proof. pn_solve. Qed.

Lemma PN_min_le_r a b : PN.ltb b (PN.min a b) = false.
Proof. pn_solve. Qed.

Lemma PN_min_glb a b c : PN.ltb a c = false -> PN.ltb b c = false -> PN.ltb (PN.min a b) c = false.
Proof. intros H1 H2. unfold PN.min. destruct (PN.ltb b a); assumption. Qed.

Lemma PN_min_cases a b : PN.min a b = a \/ PN.min a b = b.
Proof. unfold PN.min. destruct (PN.ltb b a); auto. Qed.

Lemma PN_sub_ok a b : PN.ltb b a = true -> exists r, PN.sub a b = Ok r.
Proof. intros H. unfold PN.sub. pn_solve; eauto. Qed.

Lemma PN_sub_ok_le a b : PN.ltb a b = false -> PN.is_inf b = false -> exists r, PN.sub a b = Ok r.
Proof. intros H Hb. unfold PN.sub. pn_solve; eauto. Qed.

(** From [p + s < t] and [m <= s] follows [p <= t - m]. *)
Lemma PN_shift_bound p s a t m x :
  PN.add p s = Ok a -> PN.ltb a t = true -> PN.ltb s m = false -> PN.sub t m = Ok x ->
  PN.ltb x p = false.
Proof. intros H1 H2 H3 H4. pn_solve. Qed.

Lemma toLand_no_underflow (th : Thresholds) (n : PnsNode Child) (i : nat) (j : option nat) :
  (length (children n) <> 1%nat ->
   proof (proofNumbers (info n)) = disproof (proofNumbers (info n))) ->
  Thresholds.areHolding th n = Ok true ->
  Thresholds.switchingThOf sw n i j <> Throw underflow_error ->
  Thresholds.toLandMpnThresholds sw th n i j <> Throw underflow_error.
Proof.
  intros Heq Hhold Hsw.
  apply areHolding_inv in Hhold as (Hp & Hd & a & b & Ha & Hb & Hm).
  unfold Thresholds.toLandMpnThresholds, PnsNode.getChild.
  destruct (Nat.eqb_spec (length (children n)) 1) as [|Hne]; [discriminate|].
  specialize (Heq Hne).
  destruct (children n !! i) as [mpn|] eqn:Ei; simpl; [|discriminate].
  destruct (Thresholds.switchingThOf sw n i j) as [s|e|]; simpl; [|congruence|discriminate].
  set (pp := proof (proofNumbers (info n))) in *.
  set (pd := disproof (proofNumbers (info n))) in *.
  set (c := PN.min (proof (childProofNumbers mpn)) (disproof (childProofNumbers mpn))).
  set (pT := proofTh th) in *. set (dT := disproofTh th) in *.
  set (pS := pShift th) in *. set (dS := dShift th) in *. set (mT := minTh th) in *.
  clearbody pp pd c pT dT pS dS mT. clear Hsw Ei Hne. subst pd.
  set (m := PN.min pS dS) in *.
  (* the shifts are below the shifted numbers, which are below [minTh] *)
  assert (Hma : PN.ltb a m = false).
  { eapply PN_le_trans; [apply PN_min_le_l|]. apply (PN_add_ge _ _ _ Ha). }
  assert (Hmb : PN.ltb b m = false).
  { eapply PN_le_trans; [apply PN_min_le_r|]. apply (PN_add_ge _ _ _ Hb). }
  assert (Hmt : PN.ltb m mT = true).
  { eapply PN_le_lt_trans; [|exact Hm]. apply PN_min_glb; assumption. }
  destruct (PN_sub_ok mT m Hmt) as [x Ex]. rewrite Ex. simpl.
  assert (Hx : PN.ltb x pp = false).
  { destruct (PN_min_cases a b) as [E|E]; rewrite E in Hm.
    - eapply (PN_shift_bound pp pS a mT m x); eauto. apply PN_min_le_l.
    - eapply (PN_shift_bound pp dS b mT m x); eauto. apply PN_min_le_r. }
  assert (Hy : PN.ltb (PN.min (PN.min pT dT) x) pp = false).
  { apply PN_min_glb; [apply PN_min_glb; apply PN_lt_le_incl; assumption|exact Hx]. }
  assert (Hf : PN.is_inf pp = false) by (apply PN_ltb_true_inv in Hp; tauto).
  destruct (PN_sub_ok_le _ _ Hy Hf) as [y Ey]. rewrite Ey. simpl.
  destruct (PN.add y c) as [z|e|] eqn:Ez; simpl; try discriminate.
  clear -Ez. unfold PN.add in Ez. pn_solve.
Qed.

(** What [updateInfo] establishes on a node that is expanded and not proved. *)
Lemma updateInfo_shape (n0 n : PnsNode Child) :
  PnsNode.isProved n0 = false -> PnsNode.isExpanded n0 = true ->
  PnsNode.updateInfo complexity n0 = Ok n ->
  PnsNode.isMultiLandNode n = PnsNode.isMultiLandNode n0
  /\ children n = children n0
  /\ (PnsNode.isMultiLandNode n = false ->
      Forall (fun c => PN.ltb (disproof (proofNumbers (info n)))
                              (proof (childProofNumbers c)) = false) (children n))
  /\ (PnsNode.isMultiLandNode n = true -> length (children n) <> 1%nat ->
      proof (proofNumbers (info n)) = disproof (proofNumbers (info n))).
Proof.
  intros Hp He. unfold PnsNode.updateInfo. rewrite Hp, He. simpl.
  change (PnsNode.isMultiLandNode (PnsNode.updateLock n0)) with (PnsNode.isMultiLandNode n0).
  destruct (PnsNode.isMultiLandNode n0) eqn:Em.
  - unfold PnsNode.updateMultiLandProofNumbers.
    change (children (PnsNode.updateLock n0)) with (children n0).
    assert (Hgen : forall p, 
               let n' := PnsNode.withInfo (PnsNode.updateLock n0)
                           (PnsNode.setProofNumbersField (info (PnsNode.updateLock n0)) (mkPN p p)) in
               PnsNode.isMultiLandNode n' = true /\ children n' = children n0
               /\ (PnsNode.isMultiLandNode n' = false ->
                   Forall (fun c => PN.ltb (disproof (proofNumbers (info n')))
                                           (proof (childProofNumbers c)) = false) (children n'))
               /\ (PnsNode.isMultiLandNode n' = true -> length (children n') <> 1%nat ->
                   proof (proofNumbers (info n')) = disproof (proofNumbers (info n')))).
    { intros p n'. subst n'. unfold PnsNode.isMultiLandNode in *. simpl.
      rewrite Em. repeat split; auto; discriminate. }
    destruct (children n0) as [|c [|c' cs]] eqn:Ec.
    + destruct (PnsNode.multiLandLoop _ _ _ _ _) as [p| |]; simpl; try discriminate.
      destruct (overestimated _); [destruct (PN.add _ _); simpl; try discriminate|simpl];
        intros [= <-]; apply Hgen.
    + intros [= <-]. unfold PnsNode.isMultiLandNode in *. simpl. rewrite Em, Ec.
      repeat split; auto; try discriminate. simpl. congruence.
    + destruct (PnsNode.multiLandLoop _ _ _ _ _) as [p| |]; simpl; try discriminate.
      destruct (overestimated _); [destruct (PN.add _ _); simpl; try discriminate|simpl];
        intros [= <-]; apply Hgen.
  - intros H. pose proof H as H'. apply updateSingleLand_dominates in H as [Hc Hdom].
    assert (Hs : state n = state n0).
    { unfold PnsNode.updateSingleLandProofNumbers in H'.
      destruct (PnsNode.singleLandLoop _ _ _); simpl in H'; try discriminate.
      destruct (overestimated _); [destruct (PN.add _ _); simpl in H'; try discriminate|];
        simpl in H'; injection H' as <-; reflexivity. }
    unfold PnsNode.isMultiLandNode in *. rewrite Hs, Em.
    repeat split; auto; congruence.
Qed.

Lemma toMpn_no_underflow (th : Thresholds) (n0 n : PnsNode Child) (i : nat) (j : option nat) :
  PnsNode.isProved n0 = false -> PnsNode.isExpanded n0 = true ->
  PnsNode.updateInfo complexity n0 = Ok n ->
  Thresholds.areHolding th n = Ok true ->
  Thresholds.switchingThOf sw n i j <> Throw underflow_error ->
  Thresholds.toMpnThresholds sw th n i j <> Throw underflow_error.
Proof.
  intros Hp He Hu Hh Hs.
  destruct (updateInfo_shape n0 n Hp He Hu) as (_ & _ & Hplain & Hland).
  unfold Thresholds.toMpnThresholds.
  destruct (PnsNode.isMultiLandNode n) eqn:Em.
  - apply toLand_no_underflow; auto.
  - apply toPlain_no_underflow; auto.
Qed.
End ThresholdFacts.

Section MpnFacts.
Context `{G : Game} {Child : Type} `{CO : ChildOps Child}.
Variable complexity : PnsNode Child -> nat -> Res PN.value_type.

Lemma PN_eqb_refl a : PN.eqb a a = true.
Proof. unfold PN.eqb. rewrite N.eqb_refl. apply orb_true_r. Qed.

Lemma PN_eqb_ltb_l a b x : PN.eqb a b = true -> PN.ltb a x = PN.ltb b x.
Proof.
  intros H. unfold PN.eqb in H. apply orb_true_iff in H as [H|H].
  - apply andb_true_iff in H as [Ha Hb]. unfold PN.ltb. rewrite Ha, Hb. reflexivity.
  - apply N.eqb_eq in H. subst. reflexivity.
Qed.

Lemma PN_eqb_ltb_r a b x : PN.eqb a b = true -> PN.ltb x a = PN.ltb x b.
Proof.
  intros H. unfold PN.eqb in H. apply orb_true_iff in H as [H|H].
  - apply andb_true_iff in H as [Ha Hb]. unfold PN.ltb. rewrite Ha, Hb. reflexivity.
  - apply N.eqb_eq in H. subst. reflexivity.
Qed.

Lemma mpnLoop_inv (n : PnsNode Child) ls count i st st' :
  mpnInv complexity n st -> PnsNode.mpnLoop complexity n ls count i st = Ok st' -> mpnInv complexity n st'.
Proof.
  revert i st. induction count as [|count IH]; intros i st Hinv H; simpl in H.
  - congruence.
  - destruct (PnsNode.getChild n i) as [child| |]; simpl in H; try discriminate.
    destruct (negb (childIsLocked child)); [|eapply IH; eassumption].
    destruct st as [[bestIndices mpn2Idx] bestComplexity].
    destruct (complexity n i) as [cc| |] eqn:Ecc; simpl in H; try discriminate.
    destruct Hinv as [Hbest H2].
    assert (Hstep : forall st1,
               (if Nat.eqb (length bestIndices) 0 || PN.ltb cc bestComplexity
                then Ok ([i], match bestIndices with b :: _ => Some b | [] => mpn2Idx end, cc)
                else if PN.eqb cc bestComplexity
                     then Ok (bestIndices ++ [i], mpn2Idx, bestComplexity)
                     else match mpn2Idx with
                          | None => Ok (bestIndices, Some i, bestComplexity)
                          | Some j =>
                              c2 ← complexity n j;
                              if PN.ltb cc c2
                              then Ok (bestIndices, Some i, bestComplexity)
                              else Ok (bestIndices, mpn2Idx, bestComplexity)
                          end) = Ok st1 -> mpnInv complexity n st1).
    { intros st1 Hst1.
      destruct (Nat.eqb (length bestIndices) 0 || PN.ltb cc bestComplexity) eqn:E1.
      - injection Hst1 as <-. split.
        + constructor; [|constructor]. exists cc. split; [assumption|apply PN_eqb_refl].
        + intros j Hj. split; [discriminate|].
          destruct bestIndices as [|b bs]; [destruct (H2 j Hj) as [Hne _]; congruence|].
          injection Hj as <-. simpl in E1.
          inversion Hbest as [|? ? (cb & Hcb & Heq) _]; subst.
          exists cb. split; [assumption|].
          rewrite (PN_eqb_ltb_l _ _ _ Heq). apply PN_lt_le_incl. exact E1.
      - apply orb_false_elim in E1 as [E0 E1].
        assert (Hne : bestIndices <> []) by (destruct bestIndices; [discriminate|congruence]).
        destruct (PN.eqb cc bestComplexity) eqn:E2.
        + injection Hst1 as <-. split.
          * apply Forall_app. split; [assumption|]. constructor; [|constructor]. eauto.
          * intros j Hj. destruct (H2 j Hj) as [_ Hc]. split; [|exact Hc].
            destruct bestIndices; [congruence|discriminate].
        + destruct mpn2Idx as [j0|].
          * destruct (complexity n j0) as [c2| |] eqn:Ec2; simpl in Hst1; try discriminate.
            destruct (PN.ltb cc c2); injection Hst1 as <-; (split; [assumption|]).
            -- intros j [= <-]. split; [assumption|]. eauto.
            -- exact H2.
          * injection Hst1 as <-. split; [assumption|].
            intros j [= <-]. split; [assumption|]. eauto. }
    match type of H with
    | context [mbind _ ?m] => destruct m as [st1| |] eqn:Est1; simpl in H; try discriminate
    end.
    specialize (Hstep st1 eq_refl).
    destruct (negb ls && PnsNode.isMultiLandNode n).
    + injection H as <-. exact Hstep.
    + eapply IH; eassumption.
Qed.

(** The runner-up is not less complex than the chosen child. *)
Lemma getMpnIdx_order (n : PnsNode Child) (rng : PnsNode.Rng) ls i j :
  PnsNode.getMpnIdx complexity rng ls n = Ok (i, Some j) ->
  exists ci cj, complexity n i = Ok ci /\ complexity n j = Ok cj /\ PN.ltb cj ci = false.
Proof.
  unfold PnsNode.getMpnIdx.
  destruct (PnsNode.mpnLoop complexity n ls (length (children n)) 0 ([], None, PN.INF))
    as [[[bestIndices mpn2Idx] best]| |] eqn:El;
    unfold mbind, Res_bind; cbv beta iota; try discriminate.
  apply mpnLoop_inv in El; [|split; [constructor|discriminate]].
  destruct El as [Hbest H2].
  destruct bestIndices as [|first others]; [discriminate|].
  match goal with |- Ok (?m, _) = _ -> _ => set (mpnIdx := m) end.
  assert (Hin : In mpnIdx (first :: others)).
  { subst mpnIdx. destruct rng as [draw|]; [|left; reflexivity].
    destruct others as [|o os]; [left; reflexivity|].
    apply nth_In. apply Nat.mod_upper_bound. simpl. lia. }
  rewrite Forall_forall in Hbest.
  assert (Hmpn : exists ci, complexity n mpnIdx = Ok ci /\ PN.eqb ci best = true).
  { apply Hbest. apply list_elem_of_In. exact Hin. }
  destruct Hmpn as (ci & Hci & Heqi).
  destruct others as [|o os].
  - intros [= <- Hj]. exists ci.
    destruct (H2 j Hj) as (_ & cj & Hcj & Hle). exists cj.
    split; [exact Hci|split; [exact Hcj|]].
    rewrite (PN_eqb_ltb_r _ _ _ Heqi). exact Hle.
  - destruct (List.find (fun idx => negb (Nat.eqb idx mpnIdx)) (first :: o :: os))
      as [idx|] eqn:Ef.
    + intros [= <- <-]. exists ci.
      apply List.find_some in Ef as [Hi _].
      destruct (Hbest idx (proj2 (list_elem_of_In _ _) Hi)) as (cj & Hcj & Heqj).
      exists cj. split; [exact Hci|split; [exact Hcj|]].
      rewrite (PN_eqb_ltb_l _ _ _ Heqj), (PN_eqb_ltb_r _ _ _ Heqi). apply PN_ltb_irrefl.
    + intros [= <- Hj]. exists ci.
      destruct (H2 j Hj) as (_ & cj & Hcj & Hle). exists cj.
      split; [exact Hci|split; [exact Hcj|]].
      rewrite (PN_eqb_ltb_r _ _ _ Heqi). exact Hle.
Qed.
End MpnFacts.

Section SwitchingFacts.
Context `{G : Game}.

Lemma dfpn_switching_no_underflow (n : PnsNode DfpnSolver.Node) (i j : nat) :
  DfpnSolver.getSwitchingThreshold n i j <> Throw underflow_error.
Proof.
  unfold DfpnSolver.getSwitchingThreshold, PnsNode.getChildComplexity, PnsNode.getChild.
  destruct (children n !! j); simpl; [|discriminate].
  destruct (PnsNode.isMultiLandNode n); simpl;
    match goal with |- PN.add ?a ?b <> _ => destruct (PN.add a b) eqn:E end;
    try discriminate; unfold PN.add in E; pn_solve.
Qed.

Lemma parallel_switching_no_underflow (n : PnsNode ParallelDfpn.Node) (i j : nat) ci cj :
  ParallelDfpn.getChildComplexity n i = Ok ci ->
  ParallelDfpn.getChildComplexity n j = Ok cj ->
  PN.ltb cj ci = false ->
  ParallelDfpn.getSwitchingThreshold n i j <> Throw underflow_error.
Proof.
  intros Hi Hj Hle. unfold ParallelDfpn.getSwitchingThreshold. rewrite Hj. simpl.
  destruct (PN.is_inf cj) eqn:Einf; [discriminate|].
  unfold ParallelDfpn.getChildComplexity in Hi.
  destruct (PnsNode.getChild n i) as [mpn| |]; simpl in *; try discriminate.
  set (w := ParallelDfpn.getWorkingThreadsNum mpn) in *.
  assert (Hw : PN.ltb ci w = false).
  { destruct (PnsNode.isMultiLandNode n); apply PN_add_ge in Hi; tauto. }
  destruct (PN.add cj 1) as [a|e|] eqn:Ea; simpl.
  - assert (Ha : PN.ltb a w = false).
    { eapply PN_le_trans; [exact Hw|]. eapply PN_le_trans; [exact Hle|]. apply (PN_add_ge _ _ _ Ea). }
    assert (Hf : PN.is_inf w = false).
    { apply PN_ltb_false_inv in Hle as [Hc|[Hc _]]; [congruence|].
      apply PN_ltb_false_inv in Hw as [Hc'|[Hc' _]]; congruence. }
    destruct (PN_sub_ok_le _ _ Ha Hf) as [r ->]. discriminate.
  - unfold PN.add in Ea. pn_solve.
  - discriminate.
Qed.
End SwitchingFacts.

(** ** Collapsed nodes *)
Section CollapseFacts.
Context `{G : Game} {Child : Type} `{CO : ChildOps Child}.
Import NodeSpec.

Lemma proved_node_is_fixed (n : PnsNode Child) (o : nodeOp) :
  PnsNode.isProved n = true -> applyOp o n = Ok n.
Proof.
  intros Hp. destruct o as [complexity fuel factory db|fuel factory db|complexity]; simpl.
  - unfold PnsNode.update, PnsNode.updateChildren. rewrite Hp. simpl.
    unfold PnsNode.updateInfo. rewrite Hp. reflexivity.
  - unfold PnsNode.updateChildren. rewrite Hp. reflexivity.
  - unfold PnsNode.updateInfo. rewrite Hp. reflexivity.
Qed.

Lemma proved_node_stays (n : PnsNode Child) (ops : list nodeOp) :
  PnsNode.isProved n = true -> applyOps ops n = Ok n.
Proof.
  intros Hp. induction ops as [|o ops IH]; [reflexivity|].
  simpl. rewrite (proved_node_is_fixed n o Hp). simpl. exact IH.
Qed.

(** C7.  After [setToWin] the node has the numbers [(0, INF)], no children
    and no lock; after [setToLoss] the same with [(INF, 0)].  Every later
    [update], [updateChildren] and [updateInfo], alone or in any sequence and
    whatever its arguments, returns the node as it is. *)
Theorem collapse_is_absorbing (n : PnsNode Child) :
  (proofNumbers (info (PnsNode.setToWin n)) = mkPN 0 PN.INF
   /\ children (PnsNode.setToWin n) = []
   /\ locked (info (PnsNode.setToWin n)) = false
   /\ ProofNumbers.toOutcome (proofNumbers (info (PnsNode.setToWin n))) = Win
   /\ forall ops, applyOps ops (PnsNode.setToWin n) = Ok (PnsNode.setToWin n))
  /\ (proofNumbers (info (PnsNode.setToLoss n)) = mkPN PN.INF 0
      /\ children (PnsNode.setToLoss n) = []
      /\ locked (info (PnsNode.setToLoss n)) = false
      /\ ProofNumbers.toOutcome (proofNumbers (info (PnsNode.setToLoss n))) = Loss
      /\ forall ops, applyOps ops (PnsNode.setToLoss n) = Ok (PnsNode.setToLoss n)).
Proof.
  split; (split; [reflexivity|]; split; [reflexivity|]; split; [reflexivity|];
          split; [reflexivity|]; intros ops; apply proved_node_stays; reflexivity).
Qed.
End CollapseFacts.

(** ** The update of a single-land node *)
Section SingleLandFacts.
Context `{G : Game} {Child : Type} `{CO : ChildOps Child}.
Import NodeSpec.

Lemma sumFrom_step acc x r vs :
  PN.add acc x = Ok r -> sumFrom r vs = sumFrom acc (x :: vs).
Proof.
  unfold PN.add, sumFrom. simpl.
  destruct (PN.is_inf acc) eqn:Ea; simpl.
  { intros [= <-]. reflexivity. }
  destruct (PN.is_inf x) eqn:Ex; simpl.
  { intros [= <-]. reflexivity. }
  unfold PN.will_addition_overflow.
  destruct (N.leb_spec (PN.MAX - x) acc); [discriminate|].
  intros [= <-].
  assert (Hr : PN.is_inf (acc + x) = false) by (unfold PN.is_inf; apply N.eqb_neq; lia).
  rewrite Hr. simpl. destruct (existsb PN.is_inf vs); [reflexivity|]. lia.
Qed.

Lemma singleLandLoop_spec (n : PnsNode Child) (cs : list Child) (pn pn' : ProofNumbers) :
  PnsNode.singleLandLoop n cs pn = Ok pn' ->
  disproof pn' = (if overestimated (info n) then fold_left PN.max (childProofs cs) (disproof pn)
                  else sumFrom (disproof pn) (childProofs cs))
  /\ proof pn' = (if PnsNode.isLocked n then fold_left PN.max (childDisproofs cs) (proof pn)
                  else fold_left PN.min (childDisproofs (unlockedChildren cs)) (proof pn)).
Proof.
  revert pn. induction cs as [|c cs IH]; intros pn H; simpl in H.
  - injection H as <-. unfold sumFrom. simpl.
    destruct (overestimated (info n)), (PnsNode.isLocked n); split; try reflexivity;
      rewrite orb_false_r; destruct (PN.is_inf (disproof pn)) eqn:E; try reflexivity;
      try (rewrite N.add_0_r; reflexivity);
      unfold PN.is_inf in E; apply N.eqb_eq in E; exact E.
  - destruct (overestimated (info n)) eqn:Eo; simpl in H.
    + apply IH in H as [H1 H2]. simpl in H1, H2. split; [exact H1|].
      rewrite H2. unfold unlockedChildren. simpl.
      destruct (PnsNode.isLocked n); [reflexivity|].
      destruct (childIsLocked c); reflexivity.
    + destruct (PN.add (disproof pn) (proof (childProofNumbers c))) as [d| |] eqn:Ed;
        simpl in H; try discriminate.
      apply IH in H as [H1 H2]. simpl in H1, H2. split.
      * rewrite H1. apply (sumFrom_step _ _ _ _ Ed).
      * rewrite H2. unfold unlockedChildren. simpl.
        destruct (PnsNode.isLocked n); [reflexivity|].
        destruct (childIsLocked c); reflexivity.
Qed.

Lemma fold_max_spec (vs : list PN.value_type) (a : PN.value_type) :
  (fold_left PN.max vs a = a \/ In (fold_left PN.max vs a) vs)
  /\ PN.ltb (fold_left PN.max vs a) a = false
  /\ Forall (fun v => PN.ltb (fold_left PN.max vs a) v = false) vs.
Proof.
  revert a. induction vs as [|v vs IH]; intros a; simpl.
  - split; [left; reflexivity|]. split; [apply PN_ltb_irrefl|constructor].
  - destruct (IH (PN.max a v)) as (Hin & Hge & Hall).
    destruct (PN_max_ge a v) as [Ha Hv].
    split; [|split].
    + destruct Hin as [Heq|Hin]; [|right; right; exact Hin].
      rewrite Heq. unfold PN.max. destruct (PN.ltb a v); [right; left; reflexivity|left; reflexivity].
    + eapply PN_le_trans; eassumption.
    + constructor; [eapply PN_le_trans; eassumption|exact Hall].
Qed.

Lemma PN_min_le a b : PN.ltb a (PN.min a b) = false /\ PN.ltb b (PN.min a b) = false.
Proof. split; [apply PN_min_le_l|apply PN_min_le_r]. Qed.

Lemma fold_min_spec (vs : list PN.value_type) (a : PN.value_type) :
  (fold_left PN.min vs a = a \/ In (fold_left PN.min vs a) vs)
  /\ PN.ltb a (fold_left PN.min vs a) = false
  /\ Forall (fun v => PN.ltb v (fold_left PN.min vs a) = false) vs.
Proof.
  revert a. induction vs as [|v vs IH]; intros a; simpl.
  - split; [left; reflexivity|]. split; [apply PN_ltb_irrefl|constructor].
  - destruct (IH (PN.min a v)) as (Hin & Hge & Hall).
    destruct (PN_min_le a v) as [Ha Hv].
    split; [|split].
    + destruct Hin as [Heq|Hin]; [|right; right; exact Hin].
      rewrite Heq. unfold PN.min. destruct (PN.ltb v a); [right; left; reflexivity|left; reflexivity].
    + eapply PN_le_trans; eassumption.
    + constructor; [eapply PN_le_trans; eassumption|exact Hall].
Qed.

Lemma sizeMinusOne_spec (n : PnsNode Child) :
  children n <> [] -> N.of_nat (length (children n)) <= SIZE_MAX ->
  PnsNode.sizeMinusOne n = N.of_nat (length (children n)) - 1.
Proof.
  intros Hne Hle. unfold PnsNode.sizeMinusOne, wrap64.
  assert (Hpos : 1 <= N.of_nat (length (children n))).
  { destruct (children n); [congruence|]. simpl length. lia. }
  replace (N.of_nat (length (children n)) + (2 ^ 64 - 1))
    with (N.of_nat (length (children n)) - 1 + 1 * 2 ^ 64) by lia.
  rewrite N.Div0.mod_add. apply N.mod_small. unfold SIZE_MAX in Hle. lia.
Qed.

Lemma singleLandLoop_total (n : PnsNode Child) (cs : list Child) (pn : ProofNumbers) :
  (overestimated (info n) = false ->
   disproof pn + fold_right N.add 0 (childProofs cs) < PN.MAX) ->
  exists pn', PnsNode.singleLandLoop n cs pn = Ok pn'.
Proof.
  revert pn. induction cs as [|c cs IH]; intros pn H; simpl.
  - eauto.
  - destruct (overestimated (info n)) eqn:Eo; simpl.
    + apply IH. intros; discriminate.
    + specialize (H eq_refl). simpl in H.
      unfold PN.add, PN.is_inf, PN.will_addition_overflow.
      destruct (N.eqb_spec (disproof pn) PN.MAX); [lia|].
      destruct (N.eqb_spec (proof (childProofNumbers c)) PN.MAX); [lia|]. simpl.
      destruct (N.leb_spec (PN.MAX - proof (childProofNumbers c)) (disproof pn)); [lia|].
      simpl. apply IH. intros _. simpl. lia.
Qed.

(** C6.  On an expanded, unproved, single-land node with children,
    [updateInfo] first sets the lock (the node is locked exactly when all its
    children are) and then
    - sets [disproof] to the sum of the children's proof numbers, or with the
      [overestimated] flag to their maximum plus the number of children less
      one;
    - sets [proof] to the minimum of the disproof numbers of the children that
      are not locked, or, when the node is locked and so all its children
      are, to the maximum of the disproof numbers of its children.
    The update returns when the sum stays below the largest value, and the
    maximum and the minimum are bounds that are attained. *)
Theorem single_land_update (complexity : PnsNode Child -> nat -> Res PN.value_type)
    (n0 : PnsNode Child)
    (Hunproved : PnsNode.isProved n0 = false)
    (Hexpanded : PnsNode.isExpanded n0 = true)
    (Hplain : PnsNode.isMultiLandNode n0 = false)
    (Hchildren : children n0 <> [])
    (Hsize : N.of_nat (length (children n0)) <= SIZE_MAX) :
  let cs := children n0 in
  (forall n, PnsNode.updateInfo complexity n0 = Ok n ->
     children n = cs
     /\ locked (info n) = forallb childIsLocked cs
     /\ disproof (proofNumbers (info n))
        = (if overestimated (info n0)
           then plusCount (maxOf (childProofs cs)) (N.of_nat (length cs) - 1)
           else sumOf (childProofs cs))
     /\ proof (proofNumbers (info n))
        = (if locked (info n) then maxOf (childDisproofs cs)
           else minOf (childDisproofs (unlockedChildren cs))))
  /\ ((if overestimated (info n0)
       then maxOf (childProofs cs) + (N.of_nat (length cs) - 1) < PN.MAX
       else fold_right N.add 0 (childProofs cs) < PN.MAX) ->
      exists n, PnsNode.updateInfo complexity n0 = Ok n)
  /\ (forall vs, (maxOf vs = 0 \/ In (maxOf vs) vs)
                 /\ Forall (fun v => PN.ltb (maxOf vs) v = false) vs)
  /\ (forall vs, (minOf vs = PN.INF \/ In (minOf vs) vs)
                 /\ Forall (fun v => PN.ltb v (minOf vs) = false) vs).
Proof.
  intros cs.
  assert (Hupd : PnsNode.updateInfo complexity n0
                 = PnsNode.updateSingleLandProofNumbers (PnsNode.updateLock n0)).
  { unfold PnsNode.updateInfo. rewrite Hunproved, Hexpanded. simpl.
    change (PnsNode.isMultiLandNode (PnsNode.updateLock n0)) with (PnsNode.isMultiLandNode n0).
    rewrite Hplain. reflexivity. }
  rewrite Hupd. unfold PnsNode.updateSingleLandProofNumbers.
  change (children (PnsNode.updateLock n0)) with cs.
  change (overestimated (info (PnsNode.updateLock n0))) with (overestimated (info n0)).
  change (PnsNode.isLocked (PnsNode.updateLock n0)) with (forallb childIsLocked cs).
  assert (Hk : PnsNode.sizeMinusOne (PnsNode.updateLock n0) = N.of_nat (length cs) - 1).
  { apply (sizeMinusOne_spec (PnsNode.updateLock n0)); assumption. }
  rewrite Hk.
  split; [|split; [|split]].
  - intros n H.
    destruct (PnsNode.singleLandLoop (PnsNode.updateLock n0) cs _) as [pn| |] eqn:El;
      simpl in H; try discriminate.
    apply singleLandLoop_spec in El as [Hd Hp]. simpl in Hd, Hp.
    change (overestimated (info (PnsNode.updateLock n0))) with (overestimated (info n0)) in Hd.
    change (PnsNode.isLocked (PnsNode.updateLock n0)) with (forallb childIsLocked cs) in Hp.
    assert (Hproof : proof pn = (if forallb childIsLocked cs then maxOf (childDisproofs cs)
                                 else minOf (childDisproofs (unlockedChildren cs)))).
    { rewrite Hp. destruct (forallb childIsLocked cs); reflexivity. }
    destruct (overestimated (info n0)) eqn:Eo.
    + destruct (PN.add (disproof pn) (N.of_nat (length cs) - 1)) as [d| |] eqn:Ed;
        simpl in H; try discriminate.
      injection H as <-. simpl. repeat split; auto.
      rewrite Hd in Ed. fold (maxOf (childProofs cs)) in Ed.
      unfold plusCount. unfold PN.add in Ed.
      destruct (PN.is_inf (maxOf (childProofs cs))) eqn:Em; simpl in Ed; [congruence|].
      assert (Hkf : PN.is_inf (N.of_nat (length cs) - 1) = false).
      { unfold PN.is_inf. apply N.eqb_neq. unfold PN.MAX. subst cs.
        unfold SIZE_MAX in *. lia. }
      rewrite Hkf in Ed.
      destruct (PN.will_addition_overflow _ _); congruence.
    + simpl in H. injection H as <-. simpl. repeat split; auto.
  - intros Hfit.
    destruct (singleLandLoop_total (PnsNode.updateLock n0) cs
                (mkPN (if negb (forallb childIsLocked cs) then PN.INF else 0) 0)) as [pn El].
    { change (overestimated (info (PnsNode.updateLock n0))) with (overestimated (info n0)).
      intros Eo. rewrite Eo in Hfit. simpl. exact Hfit. }
    rewrite El. simpl.
    destruct (overestimated (info n0)) eqn:Eo; [|eauto].
    apply singleLandLoop_spec in El as [Hd _]. simpl in Hd.
    change (overestimated (info (PnsNode.updateLock n0))) with (overestimated (info n0)) in Hd.
    rewrite Eo in Hd. fold (maxOf (childProofs cs)) in Hd. rewrite Hd.
    unfold PN.add, PN.is_inf, PN.will_addition_overflow.
    destruct (N.eqb_spec (maxOf (childProofs cs)) PN.MAX); simpl; [eauto|].
    destruct (N.eqb_spec (N.of_nat (length cs) - 1) PN.MAX); simpl; [eauto|].
    destruct (N.leb_spec (PN.MAX - (N.of_nat (length cs) - 1)) (maxOf (childProofs cs)));
      [exfalso; lia|]. simpl. eauto.
  - intros vs. destruct (fold_max_spec vs 0) as (H1 & _ & H3). split; assumption.
  - intros vs. destruct (fold_min_spec vs PN.INF) as (H1 & _ & H3). split; assumption.
Qed.
End SingleLandFacts.

(** ** Subtractions while thresholds are derived *)
Section SubtractionFacts.

(** C3, as the code has it.  [Value::operator-] gives [INF] when a value
    other than [INF] is taken from [INF], and throws for [INF - INF] and also
    whenever a finite value is smaller than what is taken from it: it never
    saturates.  But the thresholds of the most-proving child, for a plain
    node as for a multi-land one, are derived without an underflow error
    whenever the node has just been updated from its children and the
    thresholds of the parent hold; for the nodes of the parallel solver this
    is so for the children that [getMpnIdx] names. *)
Theorem threshold_subtraction_safety :
  (forall a b, PN.is_inf a = true -> PN.is_inf b = false -> PN.sub a b = Ok PN.INF)
  /\ (forall a b, PN.is_inf a = true -> PN.is_inf b = true -> PN.sub a b = Throw underflow_error)
  /\ (forall a b, PN.is_inf a = false -> a < b -> PN.sub a b = Throw underflow_error)
  /\ (forall a b, PN.is_inf a = false -> b <= a -> PN.sub a b = Ok (a - b))
  /\ (forall (th : Thresholds) (n0 n : PnsNode DfpnSolver.Node) (i : nat) (j : option nat),
        PnsNode.isProved n0 = false -> PnsNode.isExpanded n0 = true ->
        PnsNode.updateInfo PnsNode.getChildComplexity n0 = Ok n ->
        Thresholds.areHolding th n = Ok true ->
        Thresholds.toMpnThresholds DfpnSolver.getSwitchingThreshold th n i j
        <> Throw underflow_error)
  /\ (forall (th : Thresholds) (n0 n : PnsNode ParallelDfpn.Node) (rng : PnsNode.Rng)
             (landSwitching : bool) (i : nat) (j : option nat),
        PnsNode.isProved n0 = false -> PnsNode.isExpanded n0 = true ->
        PnsNode.updateInfo ParallelDfpn.getChildComplexity n0 = Ok n ->
        Thresholds.areHolding th n = Ok true ->
        PnsNode.getMpnIdx ParallelDfpn.getChildComplexity rng landSwitching n = Ok (i, j) ->
        Thresholds.toMpnThresholds ParallelDfpn.getSwitchingThreshold th n i j
        <> Throw underflow_error).
Proof.
  split; [intros a b Ha Hb; unfold PN.sub; rewrite Ha, Hb; reflexivity|].
  split; [intros a b Ha Hb; unfold PN.sub; rewrite Ha, Hb; reflexivity|].
  split; [intros a b Ha Hab; unfold PN.sub; rewrite Ha;
          rewrite (proj2 (N.ltb_lt a b) Hab); reflexivity|].
  split; [intros a b Ha Hab; unfold PN.sub; rewrite Ha;
          rewrite (proj2 (N.ltb_ge a b) Hab); reflexivity|].
  split.
  - intros th n0 n i j Hp He Hu Hh.
    apply (toMpn_no_underflow PnsNode.getChildComplexity DfpnSolver.getSwitchingThreshold
             th n0 n i j Hp He Hu Hh).
    destruct j as [j|]; simpl; [apply dfpn_switching_no_underflow|discriminate].
  - intros th n0 n rng ls i j Hp He Hu Hh Hmpn.
    apply (toMpn_no_underflow ParallelDfpn.getChildComplexity ParallelDfpn.getSwitchingThreshold
             th n0 n i j Hp He Hu Hh).
    destruct j as [j|]; simpl; [|discriminate].
    destruct (getMpnIdx_order ParallelDfpn.getChildComplexity n rng ls i j Hmpn)
      as (ci & cj & Hci & Hcj & Hle).
    apply (parallel_switching_no_underflow n i j ci cj Hci Hcj Hle).
Qed.
End SubtractionFacts.

Section NodeExamplesFacts.
Import NodeSpec NodeExamples.

Lemma threshold_subtraction_safety_witness :
  PnsNode.isProved expandedNode = false
  /\ PnsNode.isExpanded expandedNode = true
  /\ PnsNode.updateInfo PnsNode.getChildComplexity expandedNode = Ok updatedNode
  /\ Thresholds.areHolding Thresholds.default updatedNode = Ok true
  /\ Thresholds.toMpnThresholds DfpnSolver.getSwitchingThreshold Thresholds.default
       updatedNode 0 (Some 1%nat) <> Throw underflow_error.
Proof.
  assert (Hp : PnsNode.isProved expandedNode = false) by (vm_compute; reflexivity).
  assert (He : PnsNode.isExpanded expandedNode = true) by (vm_compute; reflexivity).
  assert (Hu : PnsNode.updateInfo PnsNode.getChildComplexity expandedNode = Ok updatedNode)
    by (vm_compute; reflexivity).
  assert (Hh : Thresholds.areHolding Thresholds.default updatedNode = Ok true)
    by (vm_compute; reflexivity).
  repeat (split; [assumption|]).
  destruct threshold_subtraction_safety as (_ & _ & _ & _ & Hdfpn & _).
  exact (Hdfpn Thresholds.default expandedNode updatedNode 0%nat (Some 1%nat) Hp He Hu Hh).
Defined.

(** Against C3 as stated: a finite subtraction that would underflow throws. *)
Lemma finite_subtraction_throws :
  PN.is_inf 3 = false /\ PN.is_inf 5 = false /\ PN.sub 3 5 = Throw underflow_error.
Proof. vm_compute. repeat split. Qed.

Lemma single_land_update_witness :
  PnsNode.isProved expandedNode = false
  /\ PnsNode.isExpanded expandedNode = true
  /\ PnsNode.isMultiLandNode expandedNode = false
  /\ children expandedNode <> []
  /\ N.of_nat (length (children expandedNode)) <= SIZE_MAX
  /\ disproof (proofNumbers (info updatedNode)) = sumOf (childProofs (children expandedNode))
  /\ proof (proofNumbers (info updatedNode))
     = minOf (childDisproofs (unlockedChildren (children expandedNode))).
Proof.
  assert (Hp : PnsNode.isProved expandedNode = false) by (vm_compute; reflexivity).
  assert (He : PnsNode.isExpanded expandedNode = true) by (vm_compute; reflexivity).
  assert (Hm : PnsNode.isMultiLandNode expandedNode = false) by (vm_compute; reflexivity).
  assert (Hc : children expandedNode <> []) by (vm_compute; discriminate).
  assert (Hs : N.of_nat (length (children expandedNode)) <= SIZE_MAX)
    by (vm_compute; discriminate).
  repeat (split; [assumption|]).
  destruct (single_land_update PnsNode.getChildComplexity expandedNode Hp He Hm Hc Hs)
    as (Hupd & _).
  assert (Hu : PnsNode.updateInfo PnsNode.getChildComplexity expandedNode = Ok updatedNode)
    by (vm_compute; reflexivity).
  destruct (Hupd updatedNode Hu) as (_ & _ & Hd & Hpr).
  split; [exact Hd | exact Hpr].
Defined.
End NodeExamplesFacts.

(** ** Merging of the computed lands *)
Section MergeFacts.
Context `{G : Game}.
Import CoupleSpec.

Lemma mergeStep_fold (db : NimberDatabase.t) (lands : list Land) :
  forall (n : Nimber.t) (modified : bool) (uncomputed : list (list Land)),
    fold_left (Couple.mergeStep db) (Position.getSubgames lands) (n, modified, uncomputed)
    = (mergedNimber db lands n,
       modified || existsb (isComputed db) lands,
       uncomputed ++ Position.getSubgames
                       (List.filter (fun l => negb (isComputed db l)) lands)).
Proof.
  unfold mergedNimber, isComputed, storedNimber, Position.getSubgames.
  induction lands as [|l lands IH]; intros n modified uncomputed.
  - simpl. rewrite orb_false_r, app_nil_r. reflexivity.
  - cbn [map fold_left existsb List.filter]. unfold Couple.mergeStep at 2.
    destruct (NimberDatabase.get db (Position.to_compact [l])) as [stored|].
    + rewrite IH. cbn [negb orb]. rewrite orb_true_r. reflexivity.
    + rewrite IH. cbn [negb orb map]. rewrite <- app_assoc. reflexivity.
Qed.

Lemma ofPositions_getSubgames (lands : list Land) :
  Position.ofPositions (Position.getSubgames lands) = lands.
Proof.
  unfold Position.ofPositions, Position.getSubgames.
  induction lands as [|l lands IH]; simpl; [reflexivity|]. now rewrite IH.
Qed.

Lemma mergeComputedLands_acting (db : NimberDatabase.t) (c : Couple) :
  isNormalImpartial = true -> position c <> [] ->
  Couple.mergeComputedLands db c
  = (existsb (isComputed db) (position c),
     mkCouple (List.filter (fun l => negb (isComputed db l)) (position c))
              (mergedNimber db (position c) (nimber c))).
Proof.
  intros Hni Hne. unfold Couple.mergeComputedLands.
  rewrite Hni. simpl.
  destruct (position c) as [|l lands] eqn:Hp; [congruence|].
  unfold Position.empty. cbn [length Nat.eqb].
  rewrite mergeStep_fold. cbn [orb app].
  rewrite ofPositions_getSubgames. reflexivity.
Qed.

Lemma mergeComputedLands_idle (db : NimberDatabase.t) (c : Couple) :
  isNormalImpartial = false \/ position c = [] ->
  Couple.mergeComputedLands db c = (false, c).
Proof.
  intros [Hni|Hp]; unfold Couple.mergeComputedLands.
  - rewrite Hni. reflexivity.
  - rewrite Hp. unfold Position.empty. simpl. rewrite orb_true_r. reflexivity.
Qed.

Lemma filter_uncomputed_all (db : NimberDatabase.t) (lands : list Land) (n : Nimber.t) :
  (forall l, In l lands -> storedNimber db l = None) ->
  existsb (isComputed db) lands = false
  /\ List.filter (fun l => negb (isComputed db l)) lands = lands
  /\ mergedNimber db lands n = n.
Proof.
  unfold mergedNimber, isComputed. induction lands as [|l lands IH]; intros Hnone.
  - repeat split.
  - destruct IH as (He & Hf & Hm); [intros l' Hl'; apply Hnone; right; exact Hl'|].
    cbn [existsb List.filter fold_left]. rewrite (Hnone l (or_introl eq_refl)).
    cbn [negb orb]. rewrite He, Hf, Hm. repeat split.
Qed.

(** The calls that change nothing and return false. *)
Lemma mergeComputedLands_unchanged (db : NimberDatabase.t) (c : Couple) :
  Couple.mergeComputedLands db c = (false, c)
  <-> isNormalImpartial = false
      \/ forall l, In l (position c) -> storedNimber db l = None.
Proof.
  destruct isNormalImpartial eqn:Hni.
  - destruct (position c) as [|l0 lands] eqn:Hp.
    + rewrite (mergeComputedLands_idle db c) by (right; exact Hp).
      split; [|reflexivity]. intros _. right. intros l [].
    + rewrite (mergeComputedLands_acting db c Hni) by (rewrite Hp; discriminate).
      rewrite Hp. split.
      * intros Heq. right. intros l Hin.
        assert (He : existsb (isComputed db) (l0 :: lands) = false) by congruence.
        destruct (storedNimber db l) as [stored|] eqn:Hs; [|reflexivity].
        assert (Ht : existsb (isComputed db) (l0 :: lands) = true).
        { apply existsb_exists. exists l. split; [exact Hin|].
          unfold isComputed. rewrite Hs. reflexivity. }
        congruence.
      * intros [Hf|Hnone]; [discriminate|].
        destruct (filter_uncomputed_all db (l0 :: lands) (nimber c) Hnone) as (-> & -> & ->).
        destruct c as [p n]. cbn [position nimber] in *. subst p. reflexivity.
  - rewrite (mergeComputedLands_idle db c) by (left; exact Hni).
    split; [intros _; left; reflexivity|reflexivity].
Qed.

(** C4, as the code has it.  [mergeComputedLands] leaves the couple alone and
    returns false when the game is not normal impartial or the position has
    no land at all; on every other couple, single-land ones included, it
    drops exactly the lands whose nimber the database holds, XORs their
    nimbers into the nimber of the couple, keeps the other lands in their
    order, and returns true exactly when there is such a land.  So a call
    changes nothing and returns false exactly when the game is not normal
    impartial or the database holds none of the lands. *)
Theorem mergeComputedLands_guard (db : NimberDatabase.t) (c : Couple) :
  (isNormalImpartial = false \/ position c = [] ->
   Couple.mergeComputedLands db c = (false, c))
  /\ (isNormalImpartial = true -> position c <> [] ->
      Couple.mergeComputedLands db c
      = (existsb (isComputed db) (position c),
         mkCouple (List.filter (fun l => negb (isComputed db l)) (position c))
                  (mergedNimber db (position c) (nimber c))))
  /\ (fst (Couple.mergeComputedLands db c) = true
      <-> isNormalImpartial = true
          /\ exists l stored, In l (position c) /\ storedNimber db l = Some stored)
  /\ (Couple.mergeComputedLands db c = (false, c)
      <-> isNormalImpartial = false
          \/ forall l, In l (position c) -> storedNimber db l = None).
Proof.
  split; [apply mergeComputedLands_idle|].
  split; [apply mergeComputedLands_acting|].
  split; [|apply mergeComputedLands_unchanged].
  destruct isNormalImpartial eqn:Hni.
  - destruct (position c) as [|l0 lands] eqn:Hp.
    + rewrite mergeComputedLands_idle by (right; exact Hp). simpl. split; [discriminate|].
      intros (_ & l & stored & [] & _).
    + rewrite mergeComputedLands_acting by (rewrite ?Hp; congruence).
      rewrite Hp. cbn [fst]. rewrite existsb_exists. split.
      * intros (l & Hin & Hc). split; [reflexivity|].
        unfold isComputed in Hc. destruct (storedNimber db l) as [stored|] eqn:Hs;
          [|discriminate]. exists l, stored. auto.
      * intros (_ & l & stored & Hin & Hs). exists l. split; [exact Hin|].
        unfold isComputed. rewrite Hs. reflexivity.
  - rewrite mergeComputedLands_idle by (left; exact Hni). simpl.
    split; [discriminate|]. intros (Hf & _). discriminate.
Qed.
End MergeFacts.

Section CoupleExamplesFacts.
Import CoupleSpec CoupleExamples.

Lemma mergeComputedLands_guard_witness :
  isNormalImpartial = true
  /\ position twoLands <> []
  /\ Couple.mergeComputedLands chainDb twoLands = (true, mkCouple [2%nat] 1).
Proof.
  assert (Hni : isNormalImpartial = true) by reflexivity.
  assert (Hne : position twoLands <> []) by discriminate.
  repeat (split; [assumption|]).
  destruct (mergeComputedLands_guard chainDb twoLands) as (_ & Hact & _).
  rewrite (Hact Hni Hne). vm_compute. reflexivity.
Defined.

(** Against C4 as stated: a single-land couple of a normal impartial game is
    acted upon. *)
Lemma mergeComputedLands_single_land :
  isNormalImpartial = true
  /\ Position.isMultiLand (position singleLand) = false
  /\ Couple.mergeComputedLands chainDb singleLand = (true, mkCouple [] 1).
Proof. vm_compute. repeat split. Qed.
End CoupleExamplesFacts.

(** ** The sort of the children *)
Section SortFacts.
Context {A : Type} (comp : A -> A -> bool).
Hypothesis comp_asym : forall a b, comp a b = true -> comp b a = false.

Lemma sortInsert_perm (x : A) (l : list A) : Permutation (x :: l) (sortInsert comp x l).
Proof.
  induction l as [|y l IH]; simpl; [reflexivity|].
  destruct (comp x y); [reflexivity|].
  rewrite perm_swap. apply perm_skip. exact IH.
Qed.

Lemma sort_perm (l : list A) : Permutation l (sort comp l).
Proof.
  induction l as [|x l IH]; simpl; [reflexivity|].
  rewrite <- sortInsert_perm. apply perm_skip. exact IH.
Qed.

Lemma sortInsert_hd (a x : A) (l : list A) :
  HdRel (inOrder comp) a l -> (inOrder comp) a x -> HdRel (inOrder comp) a (sortInsert comp x l).
Proof.
  intros Hl Hx. destruct l as [|y l]; simpl; [constructor; exact Hx|].
  destruct (comp x y); constructor; [exact Hx|].
  inversion Hl; assumption.
Qed.

Lemma sortInsert_sorted (x : A) (l : list A) :
  Sorted (inOrder comp) l -> Sorted (inOrder comp) (sortInsert comp x l).
Proof.
  induction 1 as [|y l Hs IH Hhd]; simpl.
  - constructor; constructor.
  - destruct (comp x y) eqn:Hxy.
    + constructor; [constructor; assumption|]. constructor. apply comp_asym. exact Hxy.
    + constructor; [exact IH|]. apply sortInsert_hd; [exact Hhd|exact Hxy].
Qed.

Lemma sort_sorted (l : list A) : Sorted (inOrder comp) (sort comp l).
Proof.
  induction l as [|x l IH]; simpl; [constructor|]. apply sortInsert_sorted. exact IH.
Qed.
End SortFacts.

(** ** The children of a couple *)
Section ChildrenFacts.
Context `{G : Game}.
Import CoupleSpec.

Lemma String_ltb_asym (a b : string) : String.ltb a b = true -> String.ltb b a = false.
Proof.
  unfold String.ltb. rewrite (String.compare_antisym a b).
  destruct (String.compare b a); simpl; congruence.
Qed.

Lemma DefaultCoupleComparer_asym (a b : Couple) :
  Couple.DefaultCoupleComparer a b = true -> Couple.DefaultCoupleComparer b a = false.
Proof.
  unfold Couple.DefaultCoupleComparer. cbv zeta.
  set (fa := toInt32 _). set (fb := toInt32 _).
  set (la := Position.getSubgamesNumber (position a)).
  set (lb := Position.getSubgamesNumber (position b)).
  set (ea := Position.estimateChildrenNumber (position a)).
  set (eb := Position.estimateChildrenNumber (position b)).
  rewrite (Z.eqb_sym fb fa), (N.eqb_sym lb la), (N.eqb_sym eb ea).
  destruct (fa =? fb)%Z; cbn [negb].
  - destruct (isNormalImpartial && negb (la =? lb)).
    + intros H. apply N.ltb_lt in H. apply N.ltb_ge. lia.
    + destruct (ea =? eb); cbn [negb].
      * apply String_ltb_asym.
      * intros H. apply N.ltb_lt in H. apply N.ltb_ge. lia.
  - intros H. apply Z.ltb_lt in H. apply Z.ltb_ge. lia.
Qed.

(** The loop over the position children: it leaves at the first child that
    decides the parent, and otherwise appends the surviving folded children
    in order. *)
Lemma positionChildrenLoop_spec (db : NimberDatabase.t) (n : Nimber.t)
      (pcs : list (list Land)) :
  forall children : list Couple,
    let decides pc := isStoredChild db pc || isLostChild (foldedChild db n pc) in
    (existsb decides pcs = true ->
     fst (Couple.positionChildrenLoop (Some db) n pcs children) = Some Win)
    /\ (existsb decides pcs = false ->
        Couple.positionChildrenLoop (Some db) n pcs children
        = (None, children ++ List.filter survives (map (foldedChild db n) pcs))).
Proof.
  cbv zeta. induction pcs as [|pc pcs IH]; intros children.
  - simpl. split; [discriminate|]. intros _. rewrite app_nil_r. reflexivity.
  - cbn [existsb map List.filter Couple.positionChildrenLoop].
    fold (isStoredChild db pc). fold (foldedChild db n pc).
    destruct (isStoredChild db pc) eqn:Hstored; cbn [orb].
    + split; [reflexivity|discriminate].
    + unfold isLostChild, survives.
      destruct (Position.isTerminal (position (foldedChild db n pc))) eqn:Hterm; cbn [andb negb].
      * destruct (Outcome_eqb (Couple.getOutcome (foldedChild db n pc)) Loss); cbn [orb].
        -- split; [reflexivity|discriminate].
        -- apply IH.
      * destruct (IH (children ++ [foldedChild db n pc])) as [IHwin IHrun].
        split; [exact IHwin|]. intros Hnone. rewrite (IHrun Hnone).
        rewrite <- app_assoc. reflexivity.
Qed.

Lemma isStoredChild_impartial (db : NimberDatabase.t) (pc : list Land) :
  isNormalImpartial = true -> isStoredChild db pc = false.
Proof. intros Hni. unfold isStoredChild. rewrite Hni. reflexivity. Qed.

Lemma nimChildren_spec (c : Couple) (k : Nimber.t) :
  In (mkCouple (position c) k) (Couple.nimChildren c) <-> k < nimber c.
Proof.
  unfold Couple.nimChildren. rewrite in_map_iff. split.
  - intros (i & Heq & Hin). apply in_seq in Hin. injection Heq as Heq. lia.
  - intros Hlt. exists (N.to_nat k). split; [now rewrite N2Nat.id|].
    apply in_seq. lia.
Qed.

(** C5.  For a normal impartial game and a non-terminal couple,
    [computeChildren(db, out)] returns Win when some position child, folded
    through the database, is terminal with outcome Loss; failing that it
    returns Loss when neither a Nim child nor a folded position child is left;
    and otherwise it returns Unknown with [out] a rearrangement of the Nim
    children [(p, k)], [k < n], followed by the surviving folded position
    children, in which no couple is less, by [DefaultCoupleComparer], than the
    one before it. *)
Theorem computeChildren_outcome (db : NimberDatabase.t) (c : Couple) :
  isNormalImpartial = true ->
  Position.isTerminal (position c) = false ->
  let folded := map (foldedChild db (nimber c)) (positionChildren (position c)) in
  let expected := Couple.nimChildren c ++ List.filter survives folded in
  (existsb isLostChild folded = true -> fst (Couple.computeChildren db c) = Win)
  /\ (existsb isLostChild folded = false -> expected = [] ->
      Couple.computeChildren db c = (Loss, []))
  /\ (existsb isLostChild folded = false -> expected <> [] ->
      fst (Couple.computeChildren db c) = Unknown
      /\ Permutation expected (snd (Couple.computeChildren db c))
      /\ Sorted (inOrder Couple.DefaultCoupleComparer) (snd (Couple.computeChildren db c)))
  /\ (forall k, In (mkCouple (position c) k) (Couple.nimChildren c) <-> k < nimber c).
Proof.
  intros Hni Hterm folded expected.
  assert (Hdec : existsb (fun pc => isStoredChild db pc
                                    || isLostChild (foldedChild db (nimber c) pc))
                         (positionChildren (position c))
                 = existsb isLostChild folded).
  { subst folded. induction (positionChildren (position c)) as [|pc pcs IH];
      [reflexivity|]. cbn [existsb map].
    rewrite (isStoredChild_impartial db pc Hni), IH. reflexivity. }
  destruct (positionChildrenLoop_spec db (nimber c) (positionChildren (position c))
                                      (Couple.nimChildren c)) as [Hwin Hrun].
  cbv zeta in Hwin, Hrun. rewrite Hdec in Hwin, Hrun.
  unfold Couple.computeChildren, Couple.computeChildrenFrom, Couple.getOutcome.
  rewrite Hterm. fold folded in Hrun. fold expected in Hrun.
  split; [|split; [|split]].
  - intros Hex. specialize (Hwin Hex).
    destruct (Couple.positionChildrenLoop _ _ _ _) as [[o|] out]; simpl in Hwin;
      [|discriminate]. injection Hwin as ->. reflexivity.
  - intros Hex Hnil. rewrite (Hrun Hex), Hnil. reflexivity.
  - intros Hex Hcons. rewrite (Hrun Hex).
    destruct expected as [|e expected'] eqn:Hexp; [congruence|].
    cbn [length Nat.eqb fst snd]. split; [reflexivity|]. split.
    + apply sort_perm.
    + apply sort_sorted. apply DefaultCoupleComparer_asym.
  - apply nimChildren_spec.
Qed.
End ChildrenFacts.

Section ChildrenExamplesFacts.
Import CoupleSpec CoupleExamples.

Lemma computeChildren_outcome_witness :
  isNormalImpartial = true
  /\ Position.isTerminal (position threeLands) = false
  /\ fst (Couple.computeChildren chainDb threeLands) = Unknown
  /\ length (snd (Couple.computeChildren chainDb threeLands)) = 4%nat.
Proof.
  assert (Hni : isNormalImpartial = true) by reflexivity.
  assert (Hterm : Position.isTerminal (position threeLands) = false) by reflexivity.
  repeat (split; [assumption|]).
  destruct (computeChildren_outcome chainDb threeLands Hni Hterm) as (_ & _ & Hrun & _).
  assert (Hex : existsb isLostChild
                  (map (foldedChild chainDb (nimber threeLands))
                       (positionChildren (position threeLands))) = false)
    by (vm_compute; reflexivity).
  destruct (Hrun Hex) as (Hout & Hperm & _); [vm_compute; discriminate|].
  split; [exact Hout|].
  rewrite <- (Permutation_length Hperm). vm_compute. reflexivity.
Defined.
End ChildrenExamplesFacts.

(** ** The database file *)
Section FileFacts.
Context `{G : Game}.
Import FileSpec.

Lemma string_app_cons (c : ascii) (a b : string) :
  (String c a ++ b)%string = String c (a ++ b).
Proof. reflexivity. Qed.

Lemma string_app_nil_l (b : string) : (EmptyString ++ b)%string = b.
Proof. reflexivity. Qed.

Lemma string_app_nil_r (s : string) : (s ++ EmptyString)%string = s.
Proof. induction s as [|c s IH]; [reflexivity|]. now rewrite string_app_cons, IH. Qed.

Lemma string_app_assoc (a b c : string) : ((a ++ b) ++ c)%string = (a ++ (b ++ c))%string.
Proof. induction a as [|x a IH]; [reflexivity|]. now rewrite !string_app_cons, IH. Qed.

Lemma noChar_app (x : ascii) (a b : string) :
  noChar x (a ++ b) = noChar x a && noChar x b.
Proof.
  induction a as [|c a IH]; [reflexivity|].
  rewrite string_app_cons. cbn [noChar]. rewrite IH. now rewrite andb_assoc.
Qed.

(** Every [uint8_t] is read back from its decimal text, which holds no end
    of line. *)
Lemma decimal_table :
  forallb (fun i => let v := N.of_nat i in
                    match Text.stoul (Text.decimal v) with
                    | Some r => r =? v
                    | None => false
                    end && noChar "010"%char (Text.decimal v))
          (seq 0 256) = true.
Proof. vm_compute. reflexivity. Qed.

Lemma stoul_decimal (v : N) :
  v < 256 ->
  Text.stoul (Text.decimal v) = Some v /\ noChar "010"%char (Text.decimal v) = true.
Proof.
  intros Hv. pose proof decimal_table as Htable.
  rewrite forallb_forall in Htable.
  specialize (Htable (N.to_nat v)). cbv zeta in Htable. rewrite N2Nat.id in Htable.
  assert (Hin : In (N.to_nat v) (seq 0 256)) by (apply in_seq; lia).
  apply Htable in Hin. apply andb_true_iff in Hin as [Hstoul Hclean].
  split; [|exact Hclean].
  destruct (Text.stoul (Text.decimal v)) as [r|]; [|discriminate].
  apply N.eqb_eq in Hstoul. now subst.
Qed.

Lemma getlines_line (l : string) :
  noChar "010"%char l = true ->
  forall cur rest : string,
    Text.getlines cur (l ++ String "010"%char rest)
    = (cur ++ l)%string :: Text.getlines EmptyString rest.
Proof.
  induction l as [|c l IH]; intros Hclean cur rest.
  - rewrite string_app_nil_l, string_app_nil_r. reflexivity.
  - simpl in Hclean. apply andb_true_iff in Hclean as [Hc Hl].
    apply negb_true_iff in Hc. rewrite string_app_cons. cbn [Text.getlines]. rewrite Hc.
    rewrite (IH Hl). rewrite string_app_assoc. reflexivity.
Qed.

Lemma getlines_writeLines (ls : list string) :
  forallb (noChar "010"%char) ls = true ->
  Text.getlines EmptyString (Text.writeLines ls) = ls.
Proof.
  induction ls as [|l ls IH]; intros Hclean; [reflexivity|].
  cbn [forallb] in Hclean. apply andb_true_iff in Hclean as [Hl Hls].
  cbn [Text.writeLines fold_right]. rewrite (getlines_line l Hl), string_app_nil_l.
  f_equal. apply IH. exact Hls.
Qed.

Lemma splitAtSpace_line (k r : string) :
  noChar " "%char k = true ->
  Text.splitAtSpace (k ++ String " "%char r) = (k, Some r).
Proof.
  induction k as [|c k IH]; intros Hclean; [reflexivity|].
  simpl in Hclean. apply andb_true_iff in Hclean as [Hc Hk].
  apply negb_true_iff in Hc. rewrite string_app_cons. cbn [Text.splitAtSpace]. rewrite Hc.
  rewrite (IH Hk). reflexivity.
Qed.

Lemma entryLine_clean (e : string * Nimber.t) :
  storableEntry e = true -> noChar "010"%char (NimberDatabaseFile.entryLine e) = true.
Proof.
  unfold storableEntry, cleanKey, NimberDatabaseFile.entryLine.
  intros H. apply andb_true_iff in H as [Hk Hv]. apply andb_true_iff in Hk as [_ Hk].
  apply N.ltb_lt in Hv. destruct (stoul_decimal (snd e) Hv) as [_ Hd].
  destruct isNormalImpartial; [|exact Hk].
  rewrite !noChar_app, Hk, Hd. reflexivity.
Qed.

Lemma loadLine_entry (m : gmap string Nimber.t) (n : N) (e : string * Nimber.t) :
  isNormalImpartial = true -> storableEntry e = true ->
  NimberDatabaseFile.loadLine (m, n) (NimberDatabaseFile.entryLine e)
  = (let '(m', fresh) := NimberDatabase.insertIfAbsent m (fst e) (snd e) in
     (m', if fresh then n + 1 else n)).
Proof.
  intros Hni He. destruct e as [k v]. unfold storableEntry, cleanKey in He. cbn [fst snd] in *.
  apply andb_true_iff in He as [Hk Hv]. apply andb_true_iff in Hk as [Hk _].
  apply N.ltb_lt in Hv. destruct (stoul_decimal v Hv) as [Hstoul _].
  unfold NimberDatabaseFile.loadLine, NimberDatabaseFile.entryLine. rewrite Hni. cbn [fst snd].
  pose proof (splitAtSpace_line k (Text.decimal v) Hk) as Hsplit.
  change (k ++ " " ++ Text.decimal v)%string
    with (k ++ String " "%char (Text.decimal v))%string.
  set (line := (k ++ String " "%char (Text.decimal v))%string) in *.
  assert (Hconst : forall c : string,
             snd (Text.splitAtSpace c) = None -> String.eqb line c = false).
  { intros c Hc. destruct (String.eqb_spec line c) as [Heq|]; [|reflexivity].
    rewrite <- Heq, Hsplit in Hc. discriminate. }
  rewrite !Hconst by reflexivity. cbn [orb].
  unfold NimberDatabaseFile.parseLine. rewrite Hsplit, Hni, Hstoul.
  unfold Nimber.wrap8. rewrite N.mod_small by exact Hv. reflexivity.
Qed.

Lemma load_entries (es : list (string * Nimber.t)) :
  isNormalImpartial = true ->
  forallb storableEntry es = true ->
  NoDup (map fst es) ->
  forall (m : gmap string Nimber.t) (n : N),
    (forall k, In k (map fst es) -> m !! k = None) ->
    fold_left NimberDatabaseFile.loadLine (map NimberDatabaseFile.entryLine es) (m, n)
    = (fold_left (fun acc e => <[fst e := snd e]> acc) es m, n + N.of_nat (length es)).
Proof.
  intros Hni. induction es as [|e es IH]; intros Hok Hnd m n Hfresh.
  - simpl. now rewrite N.add_0_r.
  - cbn [forallb] in Hok. apply andb_true_iff in Hok as [He Hes].
    cbn [map] in Hnd. inversion Hnd as [|k ks Hnotin Hnd']; subst.
    cbn [map fold_left]. rewrite (loadLine_entry m n e Hni He).
    unfold NimberDatabase.insertIfAbsent. rewrite (Hfresh (fst e)) by (left; reflexivity).
    rewrite (IH Hes Hnd').
    + f_equal. cbn [length]. lia.
    + intros k Hin. rewrite lookup_insert_ne; [apply Hfresh; right; exact Hin|].
      intros <-. apply Hnotin, list_elem_of_In, Hin.
Qed.

Lemma fold_insert_list_to_map (es : list (string * Nimber.t)) :
  fold_left (fun acc e => <[fst e := snd e]> acc) es (∅ : gmap string Nimber.t)
  = list_to_map (rev es).
Proof.
  rewrite <- fold_left_rev_right. unfold list_to_map.
  induction (rev es) as [|e l IH]; simpl; [reflexivity|]. now rewrite IH.
Qed.

Lemma header_skipped (st : gmap string Nimber.t * N) :
  NimberDatabaseFile.loadLine st NimberDatabaseFile.header = st.
Proof.
  unfold NimberDatabaseFile.loadLine, NimberDatabaseFile.header.
  destruct st as [m n]. destruct isNormalImpartial; reflexivity.
Qed.

Lemma header_clean : noChar "010"%char NimberDatabaseFile.header = true.
Proof. unfold NimberDatabaseFile.header. destruct isNormalImpartial; reflexivity. Qed.

(** The file written from any enumeration of the entries is read back as
    the map of those entries. *)
Lemma storeFrom_load (entries : list (string * Nimber.t)) (sorted trackNew : bool) :
  isNormalImpartial = true ->
  forallb storableEntry entries = true ->
  NoDup (map fst entries) ->
  exists es, Permutation entries es
             /\ NimberDatabaseFile.load (NimberDatabase.create trackNew)
                  (NimberDatabaseFile.storeFrom entries sorted)
                = (NimberDatabase.mk (list_to_map es) trackNew ∅,
                   N.of_nat (length entries)).
Proof.
  intros Hni Hok Hnd.
  set (lines := map NimberDatabaseFile.entryLine entries).
  set (written := if sorted then sort String.ltb lines else lines).
  assert (Hperm : Permutation lines written).
  { subst written. destruct sorted; [apply sort_perm|reflexivity]. }
  destruct (Permutation_map_inv _ _ (Permutation_sym Hperm)) as (es & Hes & Hpes).
  assert (Hokes : forallb storableEntry es = true).
  { apply forallb_forall. intros e Hin. rewrite forallb_forall in Hok. apply Hok.
    apply (Permutation_in e (Permutation_sym Hpes) Hin). }
  assert (Hndes : NoDup (map fst es)).
  { rewrite <- (Permutation_map fst Hpes). exact Hnd. }
  exists (rev es). split; [rewrite Hpes; apply Permutation_rev|].
  unfold NimberDatabaseFile.load, NimberDatabaseFile.storeFrom. fold lines. fold written.
  rewrite getlines_writeLines.
  - cbn [fold_left NimberDatabase.create NimberDatabase.data
                   NimberDatabase.trackNew NimberDatabase.trackedData].
    rewrite header_skipped, Hes.
    rewrite (load_entries es Hni Hokes Hndes) by (intros; apply lookup_empty).
    rewrite fold_insert_list_to_map.
    rewrite (Permutation_length Hpes). reflexivity.
  - cbn [forallb]. rewrite header_clean. cbn [andb]. rewrite Hes.
    apply forallb_forall. intros l Hin. apply in_map_iff in Hin as (e & <- & Hin).
    apply entryLine_clean. rewrite forallb_forall in Hokes. now apply Hokes.
Qed.

(** C8, as the code has it.  For the normal impartial game, a database whose
    keys are texts of positions (no space, no end of line) and whose nimbers
    are [uint8_t] values is written by [store], sorted or not, to a file from
    which [load] fills an empty database with exactly the same entries,
    counting one insertion per entry. *)
Theorem store_load_round_trip (db : NimberDatabase.t) (sorted trackNew : bool) :
  isNormalImpartial = true ->
  storable db = true ->
  NimberDatabaseFile.load (NimberDatabase.create trackNew) (NimberDatabaseFile.store db sorted)
  = (NimberDatabase.mk (NimberDatabase.data db) trackNew ∅,
     N.of_nat (NimberDatabase.size db))
  /\ (forall k v,
        NimberDatabase.get
          (fst (NimberDatabaseFile.load (NimberDatabase.create trackNew)
                                        (NimberDatabaseFile.store db sorted))) k = Some v
        <-> NimberDatabase.get db k = Some v).
Proof.
  intros Hni Hok.
  assert (Hload : NimberDatabaseFile.load (NimberDatabase.create trackNew)
                                          (NimberDatabaseFile.store db sorted)
                  = (NimberDatabase.mk (NimberDatabase.data db) trackNew ∅,
                     N.of_nat (NimberDatabase.size db))).
  { unfold NimberDatabaseFile.store.
    destruct (storeFrom_load (map_to_list (NimberDatabase.data db)) sorted trackNew Hni Hok)
      as (es & Hperm & Heq); [apply NoDup_fst_map_to_list|].
    rewrite Heq. f_equal; [|unfold NimberDatabase.size; now rewrite length_map_to_list].
    f_equal. symmetry. apply list_to_map_flip. exact Hperm. }
  split; [exact Hload|]. intros k v. rewrite Hload. reflexivity.
Qed.
End FileFacts.

Section FileExamplesFacts.
Import FileSpec CoupleExamples.

Lemma store_load_round_trip_witness :
  isNormalImpartial = true
  /\ storable chainDb = true
  /\ NimberDatabaseFile.load (NimberDatabase.create false)
       (NimberDatabaseFile.store chainDb true)
     = (NimberDatabase.mk (NimberDatabase.data chainDb) false ∅, 1).
Proof.
  assert (Hni : isNormalImpartial = true) by reflexivity.
  assert (Hok : storable chainDb = true) by (vm_compute; reflexivity).
  repeat (split; [assumption|]).
  exact (proj1 (store_load_round_trip chainDb true false Hni Hok)).
Defined.

(** Against C8 as stated: a key with a space in it is cut at the space, and
    the line is dropped as invalid, so the loaded database is empty. *)
Lemma spaced_key_is_dropped :
  storable spacedDb = false
  /\ NimberDatabaseFile.load (NimberDatabase.create false)
       (NimberDatabaseFile.store spacedDb true)
     = (NimberDatabase.create false, 0).
Proof. vm_compute. repeat split. Qed.
End FileExamplesFacts.

(** ** The solvers side by side *)
Section SolverFacts.
Import SolverRuns.

(** C1, against the code.  On the chain of two moves, with no limit on the
    iterations, the depth-first solver and the sequential df-pn report Loss,
    and so does the parallel df-pn with a table of 400 entries; with a table
    that holds nothing the parallel df-pn, run with one worker and no
    synchronisation tree, reports Unknown. *)
Theorem solvers_disagree_on_chain :
  reported (dfsRun 2) = Some Loss
  /\ reported (dfpnRun 0 2) = Some Loss
  /\ reported (dfpnRun 400 2) = Some Loss
  /\ reported (parallelRun 400 2) = Some Loss
  /\ reported (parallelRun 0 2) = Some Unknown.
Proof. vm_compute. repeat split. Qed.

(** C9, against the code.  The parallel df-pn, run with one worker, no
    synchronisation tree and no limit on the iterations, returns after two
    iterations on the chain of two moves with a table that holds nothing, and
    after eight on the chain of eight moves with a table of a single bucket:
    both times it reports Unknown, although its own nimber database then holds
    the root as lost.  The sequential df-pn reports Loss on the same inputs. *)
Theorem parallel_unknown_without_limit :
  parallelTrace 0 2 = Some (Unknown, NO_LIMIT, 2, Some 0)
  /\ parallelTrace 4 8 = Some (Unknown, NO_LIMIT, 8, Some 0)
  /\ reported (dfpnRun 0 2) = Some Loss
  /\ reported (dfpnRun 4 8) = Some Loss.
Proof. vm_compute. repeat split. Qed.
End SolverFacts.

(** ** Arithmetic of the proof numbers *)
Section ArithmeticFacts.

Lemma PN_mul_bound (a b : N) : a <> 0 -> b < PN.MAX / a -> a * b < PN.MAX.
Proof.
  intros Ha Hb.
  assert (H : a * (PN.MAX / a) <= PN.MAX) by (apply N.Div0.mul_div_le).
  assert (a * b < a * (PN.MAX / a)) by (apply N.mul_lt_mono_pos_l; lia).
  lia.
Qed.

Lemma add_exact (a b : PN.value_type) :
  PN.wf a -> PN.wf b ->
  (forall r, PN.add a b = Ok r ->
     PN.wf r /\ (r = PN.INF <-> a = PN.INF \/ b = PN.INF)
     /\ (a <> PN.INF -> b <> PN.INF -> r = a + b))
  /\ (forall e, PN.add a b = Throw e ->
        e = overflow_error /\ a <> PN.INF /\ b <> PN.INF /\ PN.MAX <= a + b)
  /\ PN.add a b <> OutOfFuel.
Proof.
  unfold PN.wf, PN.add, PN.will_addition_overflow, PN.is_inf, PN.INF. intros Ha Hb.
  destruct (N.eqb_spec a PN.MAX) as [Hai|Hai]; cbn [orb].
  { split; [|split; [discriminate|discriminate]].
    intros r Hr. injection Hr as <-. split; [lia|]. split; [tauto|contradiction]. }
  destruct (N.eqb_spec b PN.MAX) as [Hbi|Hbi]; cbn [orb].
  { split; [|split; [discriminate|discriminate]].
    intros r Hr. injection Hr as <-. split; [lia|]. split; [tauto|contradiction]. }
  destruct (N.leb_spec (PN.MAX - b) a) as [Hov|Hov].
  - split; [discriminate|]. split; [|discriminate].
    intros e He. injection He as <-. repeat split; auto. lia.
  - split; [|split; [discriminate|discriminate]].
    intros r Hr. injection Hr as <-. split; [lia|]. split; [|auto].
    split; [intros; lia|intros [?|?]; contradiction].
Qed.

Lemma mul_exact (a b : PN.value_type) :
  PN.wf a -> PN.wf b ->
  (forall r, PN.mul a b = Ok r ->
        PN.wf r /\ (r = PN.INF <-> a = PN.INF \/ b = PN.INF)
        /\ (a <> PN.INF -> b <> PN.INF -> r = a * b))
  /\ (forall e, PN.mul a b = Throw e ->
        e = overflow_error /\ a <> PN.INF /\ b <> PN.INF /\ a <> 0 /\ PN.MAX / a <= b)
  /\ PN.mul a b <> OutOfFuel.
Proof.
  unfold PN.wf, PN.mul, PN.will_multiplication_overflow, PN.is_inf, PN.INF. intros Ha Hb.
  destruct (N.eqb_spec a PN.MAX) as [Hai|Hai]; cbn [orb].
  { split; [|split; [discriminate|discriminate]].
    intros r Hr. injection Hr as <-. split; [lia|]. split; [tauto|contradiction]. }
  destruct (N.eqb_spec b PN.MAX) as [Hbi|Hbi]; cbn [orb].
  { split; [|split; [discriminate|discriminate]].
    intros r Hr. injection Hr as <-. split; [lia|]. split; [tauto|contradiction]. }
  destruct (N.eqb_spec a 0) as [Hz|Hz]; cbn [negb andb].
  { split; [|split; [discriminate|discriminate]].
    intros r Hr. injection Hr as <-. subst a. rewrite N.mul_0_l.
    split; [lia|]. split; [|auto]. unfold PN.MAX, SIZE_MAX.
    split; [intros H; discriminate H|intros [?|?]; contradiction]. }
  destruct (N.leb_spec (PN.MAX / a) b) as [Hov|Hov].
  - split; [discriminate|]. split; [|discriminate].
    intros e He. injection He as <-. repeat split; auto.
  - pose proof (PN_mul_bound a b Hz Hov) as Hlt.
    split; [|split; [discriminate|discriminate]].
    intros r Hr. injection Hr as <-. split; [lia|]. split; [|auto].
    split; [intros; lia|intros [?|?]; contradiction].
Qed.

Lemma div_exact (a b : PN.value_type) :
  PN.wf a -> PN.wf b ->
  (forall r, PN.div a b = Ok r ->
        PN.wf r /\ b <> 0 /\ b <> PN.INF /\ (r = PN.INF <-> a = PN.INF)
        /\ (a <> PN.INF -> r = a / b))
  /\ (forall e, PN.div a b = Throw e -> e = overflow_error /\ (b = 0 \/ b = PN.INF))
  /\ PN.div a b <> OutOfFuel.
Proof.
  unfold PN.wf, PN.div, PN.is_inf, PN.INF. intros Ha Hb.
  destruct (N.eqb_spec b 0) as [Hz|Hz].
  { split; [discriminate|]. split; [|discriminate].
    intros e He. injection He as <-. auto. }
  destruct (N.eqb_spec b PN.MAX) as [Hbi|Hbi].
  { split; [discriminate|]. split; [|discriminate].
    intros e He. injection He as <-. auto. }
  destruct (N.eqb_spec a PN.MAX) as [Hai|Hai].
  { split; [|split; [discriminate|discriminate]].
    intros r Hr. injection Hr as <-. repeat split; auto; try lia; try contradiction. }
  split; [|split; [discriminate|discriminate]].
  intros r Hr. injection Hr as <-.
  assert (Hd : a / b <= a) by (apply N.Div0.div_le_upper_bound; nia).
  repeat split; auto; try lia.
Qed.
(** X1.  On values that fit 64 bits, [operator+], [operator*] and
    [operator/] of a proof number either give the exact result or throw
    [overflow_error]: a result is infinite exactly when an operand is (for
    the quotient, when the dividend is), a finite result is the exact sum,
    product or quotient and is below the maximum, a sum throws only when it
    would reach the maximum, a product only when [b >= max / a] with [a]
    not zero, and a quotient only when the divisor is zero or infinite. *)
Theorem arithmetic_is_exact_or_fails (a b : PN.value_type) :
  PN.wf a -> PN.wf b ->
  ((forall r, PN.add a b = Ok r ->
      PN.wf r /\ (r = PN.INF <-> a = PN.INF \/ b = PN.INF)
      /\ (a <> PN.INF -> b <> PN.INF -> r = a + b))
   /\ (forall e, PN.add a b = Throw e ->
         e = overflow_error /\ a <> PN.INF /\ b <> PN.INF /\ PN.MAX <= a + b)
   /\ PN.add a b <> OutOfFuel)
  /\ ((forall r, PN.mul a b = Ok r ->
       PN.wf r /\ (r = PN.INF <-> a = PN.INF \/ b = PN.INF)
       /\ (a <> PN.INF -> b <> PN.INF -> r = a * b))
      /\ (forall e, PN.mul a b = Throw e ->
            e = overflow_error /\ a <> PN.INF /\ b <> PN.INF /\ a <> 0 /\ PN.MAX / a <= b)
      /\ PN.mul a b <> OutOfFuel)
  /\ ((forall r, PN.div a b = Ok r ->
       PN.wf r /\ b <> 0 /\ b <> PN.INF /\ (r = PN.INF <-> a = PN.INF)
       /\ (a <> PN.INF -> r = a / b))
      /\ (forall e, PN.div a b = Throw e -> e = overflow_error /\ (b = 0 \/ b = PN.INF))
      /\ PN.div a b <> OutOfFuel).
Proof.
  intros Ha Hb. split; [|split].
  - apply add_exact; assumption.
  - apply mul_exact; assumption.
  - apply div_exact; assumption.
Qed.

Lemma arithmetic_is_exact_or_fails_witness :
  PN.wf 6 /\ PN.wf 3
  /\ PN.add 6 3 = Ok 9 /\ PN.mul 6 3 = Ok 18 /\ PN.div 6 3 = Ok 2
  /\ PN.wf 9 /\ PN.wf 18 /\ PN.wf 2.
Proof.
  assert (Ha : PN.wf 6) by (vm_compute; discriminate).
  assert (Hb : PN.wf 3) by (vm_compute; discriminate).
  repeat (split; [assumption|]).
  destruct (arithmetic_is_exact_or_fails 6 3 Ha Hb)
    as ((Hadd & _) & (Hmul & _) & (Hdiv & _)).
  split; [reflexivity|]. split; [reflexivity|]. split; [reflexivity|].
  split; [apply (Hadd 9 eq_refl)|]. split; [apply (Hmul 18 eq_refl)|apply (Hdiv 2 eq_refl)].
Defined.
End ArithmeticFacts.


(** ** The nimber database as a map *)
Section DatabaseFacts.
Context `{G : Game}.
Import DatabaseOps DatabaseSpec.


Lemma insertIfAbsent_grown (m0 m : gmap string Nimber.t) (n : N) (k : string) (v : Nimber.t) :
  grownFrom m0 (m, n) ->
  grownFrom m0 (let '(m', fresh) := NimberDatabase.insertIfAbsent m k v in
                (m', if fresh then n + 1 else n)).
Proof.
  intros [Hsub Hsize]. unfold NimberDatabase.insertIfAbsent. cbn [fst snd] in *.
  destruct (m !! k) eqn:Hk; [split; assumption|].
  split; cbn [fst snd].
  - etrans; [exact Hsub|]. apply insert_subseteq. exact Hk.
  - rewrite map_size_insert_None by exact Hk. lia.
Qed.

Lemma loadLine_grown (m0 : gmap string Nimber.t) (st : gmap string Nimber.t * N) (line : string) :
  grownFrom m0 st -> grownFrom m0 (NimberDatabaseFile.loadLine st line).
Proof.
  intros H. destruct st as [m n]. unfold NimberDatabaseFile.loadLine.
  destruct (_ || _); [exact H|].
  destruct (NimberDatabaseFile.parseLine line) as [[k v]|]; [|exact H].
  apply (insertIfAbsent_grown m0 m n k v H).
Qed.

Lemma load_grown (m0 : gmap string Nimber.t) (lines : list string) :
  forall st, grownFrom m0 st -> grownFrom m0 (fold_left NimberDatabaseFile.loadLine lines st).
Proof.
  induction lines as [|l lines IH]; intros st H; [exact H|].
  simpl. apply IH. apply loadLine_grown. exact H.
Qed.

Lemma addNimbers_fold (nimbers : list (string * Nimber.t)) :
  forall (m : gmap string Nimber.t) (n : N),
    exists n',
      fold_left (fun '(m, inserted) '(k, v) =>
                   let '(m', fresh) := NimberDatabase.insertIfAbsent m k v in
                   (m', if fresh then inserted + 1 else inserted))
                nimbers (m, n)
      = (m ∪ list_to_map nimbers, n') /\
      N.of_nat (size (m ∪ list_to_map nimbers : gmap string Nimber.t))
      = N.of_nat (size m) + (n' - n) /\ n <= n'.
Proof.
  induction nimbers as [|[k v] nimbers IH]; intros m n.
  - exists n. simpl. rewrite (right_id_L ∅ (∪)). repeat split; lia.
  - cbn [fold_left list_to_map foldr fst snd]. unfold NimberDatabase.insertIfAbsent at 2.
    destruct (m !! k) eqn:Hk.
    + destruct (IH m n) as (n' & Heq & Hsize & Hle). exists n'.
      rewrite Heq.
      assert (Hm : m ∪ <[k := v]> (list_to_map nimbers) = m ∪ list_to_map nimbers).
      { apply map_eq. intros i. rewrite !lookup_union.
        destruct (decide (i = k)) as [->|Hne].
        - rewrite Hk. rewrite lookup_insert_eq. simpl.
          destruct (list_to_map nimbers !! k); reflexivity.
        - rewrite lookup_insert_ne by congruence. reflexivity. }
      rewrite Hm. repeat split; auto.
    + destruct (IH (<[k := v]> m) (n + 1)) as (n' & Heq & Hsize & Hle). exists n'.
      rewrite Heq.
      assert (Hm : <[k := v]> m ∪ list_to_map nimbers = m ∪ <[k := v]> (list_to_map nimbers)).
      { apply map_eq. intros i. rewrite !lookup_union.
        destruct (decide (i = k)) as [->|Hne].
        - rewrite Hk. rewrite !lookup_insert_eq. simpl.
          destruct (list_to_map nimbers !! k); reflexivity.
        - rewrite !lookup_insert_ne by congruence. reflexivity. }
      rewrite <- Hm. split; [reflexivity|]. split; [|lia].
      rewrite Hsize. rewrite map_size_insert_None by exact Hk. lia.
Qed.

(** X2.  [addNimbers] adds the entries whose position is not stored yet and
    leaves a stored nimber as it is: the database becomes the union of the
    old entries and the new ones (the old ones win), the size grows by the
    number it returns, and the tracked entries and the tracking flag are not
    touched. *)
Theorem addNimbers_never_overwrites (db : NimberDatabase.t) (nimbers : list (string * Nimber.t)) :
  let db' := fst (NimberDatabase.addNimbers db nimbers) in
  let inserted := snd (NimberDatabase.addNimbers db nimbers) in
  NimberDatabase.data db' = NimberDatabase.data db ∪ list_to_map nimbers
  /\ (forall k v, NimberDatabase.get db k = Some v -> NimberDatabase.get db' k = Some v)
  /\ N.of_nat (NimberDatabase.size db') = N.of_nat (NimberDatabase.size db) + inserted
  /\ NimberDatabase.trackedData db' = NimberDatabase.trackedData db
  /\ NimberDatabase.trackNew db' = NimberDatabase.trackNew db.
Proof.
  cbv zeta. unfold NimberDatabase.addNimbers.
  destruct (addNimbers_fold nimbers (NimberDatabase.data db) 0) as (n' & Heq & Hsize & _).
  rewrite Heq. cbn [fst snd NimberDatabase.data NimberDatabase.trackedData
                    NimberDatabase.trackNew].
  split; [reflexivity|]. split.
  - intros k v Hk. unfold NimberDatabase.get in *. cbn [NimberDatabase.data].
    apply lookup_union_Some_l. exact Hk.
  - unfold NimberDatabase.size. cbn [NimberDatabase.data]. split; [|split; reflexivity].
    rewrite Hsize. lia.
Qed.

(** X3.  [load] into a database that already holds entries keeps every stored
    nimber, counts exactly the entries it added, and leaves the tracked
    entries and the tracking flag alone, whatever the file holds. *)
Theorem load_never_overwrites (db : NimberDatabase.t) (file : string) :
  let db' := fst (NimberDatabaseFile.load db file) in
  let inserted := snd (NimberDatabaseFile.load db file) in
  (forall k v, NimberDatabase.get db k = Some v -> NimberDatabase.get db' k = Some v)
  /\ N.of_nat (NimberDatabase.size db') = N.of_nat (NimberDatabase.size db) + inserted
  /\ NimberDatabase.trackedData db' = NimberDatabase.trackedData db
  /\ NimberDatabase.trackNew db' = NimberDatabase.trackNew db.
Proof.
  cbv zeta. unfold NimberDatabaseFile.load.
  assert (H0 : grownFrom (NimberDatabase.data db) (NimberDatabase.data db, 0)).
  { split; cbn [fst snd]; [reflexivity|lia]. }
  pose proof (load_grown (NimberDatabase.data db) (Text.getlines EmptyString file) _ H0)
    as [Hsub Hsize].
  destruct (fold_left _ _ _) as [m n]. cbn [fst snd] in *.
  unfold NimberDatabase.get, NimberDatabase.size. cbn [NimberDatabase.data].
  split; [|split; [exact Hsize|split; reflexivity]].
  intros k v Hk. apply (lookup_weaken _ _ _ _ Hk Hsub).
Qed.


Lemma data_grows (db : NimberDatabase.t) (o : op) :
  match o with
  | OpAddNimbers _ | OpLoad _ =>
      NimberDatabase.data db ⊆ NimberDatabase.data (step db o)
      /\ NimberDatabase.trackedData (step db o) = NimberDatabase.trackedData db
      /\ NimberDatabase.trackNew (step db o) = NimberDatabase.trackNew db
  | _ => True
  end.
Proof.
  destruct o as [pos nim|nimbers|file| | |clearTracked|flag]; try exact I; cbn [step].
  - unfold NimberDatabase.addNimbers.
    destruct (addNimbers_fold nimbers (NimberDatabase.data db) 0) as (n' & Heq & _).
    rewrite Heq. cbn [fst NimberDatabase.data NimberDatabase.trackedData NimberDatabase.trackNew].
    split; [apply map_union_subseteq_l|]. split; reflexivity.
  - unfold NimberDatabaseFile.load.
    assert (H0 : grownFrom (NimberDatabase.data db) (NimberDatabase.data db, 0)).
    { split; cbn [fst snd]; [reflexivity|lia]. }
    pose proof (load_grown (NimberDatabase.data db) (Text.getlines EmptyString file) _ H0)
      as [Hsub _].
    destruct (fold_left _ _ _) as [m n]. cbn [fst snd] in *. auto.
Qed.

Lemma step_tracked_keys (db : NimberDatabase.t) (o : op) :
  (forall k, is_Some (NimberDatabase.trackedData db !! k) ->
             is_Some (NimberDatabase.data db !! k)) ->
  forall k, is_Some (NimberDatabase.trackedData (step db o) !! k) ->
            is_Some (NimberDatabase.data (step db o) !! k).
Proof.
  intros H k. pose proof (data_grows db o) as Hg.
  destruct o as [pos nim|nimbers|file| | |clearTracked|flag]; cbn [step] in *.
  - unfold NimberDatabase.insert. cbn [NimberDatabase.data NimberDatabase.trackedData].
    destruct (decide (k = pos)) as [->|Hne].
    + intros _. rewrite lookup_insert_eq. eauto.
    + rewrite lookup_insert_ne by congruence. intros Hk. apply H.
      destruct (NimberDatabase.trackNew db); [|exact Hk].
      rewrite lookup_insert_ne in Hk by congruence. exact Hk.
  - destruct Hg as (Hsub & -> & _). intros Hk.
    apply (lookup_weaken_is_Some _ _ _ (H k Hk) Hsub).
  - destruct Hg as (Hsub & -> & _). intros Hk.
    apply (lookup_weaken_is_Some _ _ _ (H k Hk) Hsub).
  - cbn. rewrite lookup_empty. intros [? ?]; discriminate.
  - cbn. rewrite lookup_empty. intros [? ?]; discriminate.
  - unfold NimberDatabase.getTrackedNimbers. destruct clearTracked; cbn; [|apply H].
    rewrite lookup_empty. intros [? ?]; discriminate.
  - cbn. apply H.
Qed.

Lemma step_trackedInv (db : NimberDatabase.t) (o : op) :
  switchesTracking o = false -> trackedInv db ->
  trackedInv (step db o) /\ NimberDatabase.trackNew (step db o) = NimberDatabase.trackNew db.
Proof.
  intros Hs [Hsub Hoff]. pose proof (data_grows db o) as Hg.
  destruct o as [pos nim|nimbers|file| | |clearTracked|flag]; cbn [step] in *; try discriminate.
  - unfold NimberDatabase.insert, trackedInv.
    cbn [NimberDatabase.data NimberDatabase.trackedData NimberDatabase.trackNew].
    destruct (NimberDatabase.trackNew db) eqn:Ht.
    + split; [|reflexivity]. split; [apply insert_mono; exact Hsub|discriminate].
    + split; [|reflexivity]. rewrite (Hoff eq_refl).
      split; [apply map_empty_subseteq|reflexivity].
  - destruct Hg as (Hg & Ht & Hn). split; [|exact Hn]. unfold trackedInv. rewrite Ht, Hn.
    split; [etrans; eassumption|exact Hoff].
  - destruct Hg as (Hg & Ht & Hn). split; [|exact Hn]. unfold trackedInv. rewrite Ht, Hn.
    split; [etrans; eassumption|exact Hoff].
  - split; [|reflexivity]. split; cbn; [apply map_empty_subseteq|reflexivity].
  - split; [|reflexivity]. split; cbn; [apply map_empty_subseteq|reflexivity].
  - unfold NimberDatabase.getTrackedNimbers. destruct clearTracked; cbn [snd].
    + split; [|reflexivity]. split; cbn; [apply map_empty_subseteq|reflexivity].
    + split; [|reflexivity]. split; assumption.
Qed.

(** X4.  After any sequence of [insert], [addNimbers], [load], [clear],
    [clearTracked], [getTrackedNimbers] and [setTrackNew] on a new database,
    every tracked position is stored in the database.  If [setTrackNew] is
    not among the calls, the tracking flag is the one the database was built
    with, every tracked entry is stored with the same nimber, and nothing is
    tracked when the flag is off. *)
Theorem tracked_nimbers_are_stored (trackNew : bool) (ops : list op) :
  let db := run (NimberDatabase.create trackNew) ops in
  (forall k, is_Some (NimberDatabase.trackedData db !! k) ->
             is_Some (NimberDatabase.data db !! k))
  /\ (forallb (fun o => negb (switchesTracking o)) ops = true ->
      NimberDatabase.trackNew db = trackNew
      /\ (forall k v, NimberDatabase.trackedData db !! k = Some v ->
                      NimberDatabase.get db k = Some v)
      /\ (trackNew = false -> NimberDatabase.trackedData db = ∅)).
Proof.
  cbv zeta. unfold run. split.
  - assert (H0 : forall k, is_Some (NimberDatabase.trackedData (NimberDatabase.create trackNew) !! k)
                           -> is_Some (NimberDatabase.data (NimberDatabase.create trackNew) !! k)).
    { intros k. cbn. rewrite lookup_empty. intros [? ?]; discriminate. }
    revert H0. generalize (NimberDatabase.create trackNew).
    induction ops as [|o ops IH]; intros db H; [exact H|].
    simpl. apply IH. apply step_tracked_keys. exact H.
  - assert (H0 : trackedInv (NimberDatabase.create trackNew)).
    { split; cbn; [apply map_empty_subseteq|reflexivity]. }
    assert (Ht : NimberDatabase.trackNew (NimberDatabase.create trackNew) = trackNew)
      by reflexivity.
    revert H0 Ht. generalize (NimberDatabase.create trackNew).
    induction ops as [|o ops IH]; intros db Hinv Ht Hops.
    + destruct Hinv as [Hsub Hoff]. simpl. split; [exact Ht|]. split.
      * intros k v Hk. apply (lookup_weaken _ _ _ _ Hk Hsub).
      * intros ->. apply Hoff. exact Ht.
    + cbn [forallb] in Hops. apply andb_true_iff in Hops as [Ho Hops].
      apply negb_true_iff in Ho.
      destruct (step_trackedInv db o Ho Hinv) as [Hinv' Ht'].
      simpl. apply IH; [exact Hinv'|congruence|exact Hops].
Qed.
End DatabaseFacts.


(** ** Merging twice, and in another order *)
Section MergeMoreFacts.
Context `{G : Game}.
Import CoupleSpec.

Lemma filter_uncomputed_idem (db : NimberDatabase.t) (lands : list Land) :
  List.filter (fun l => negb (isComputed db l))
              (List.filter (fun l => negb (isComputed db l)) lands)
  = List.filter (fun l => negb (isComputed db l)) lands.
Proof.
  induction lands as [|l lands IH]; [reflexivity|]. simpl.
  destruct (isComputed db l) eqn:Hl; simpl; [exact IH|]. rewrite Hl. simpl. now rewrite IH.
Qed.

Lemma uncomputed_nothing_stored (db : NimberDatabase.t) (lands : list Land) (n : Nimber.t) :
  existsb (isComputed db) (List.filter (fun l => negb (isComputed db l)) lands) = false
  /\ mergedNimber db (List.filter (fun l => negb (isComputed db l)) lands) n = n.
Proof.
  unfold mergedNimber. induction lands as [|l lands [IH1 IH2]]; [split; reflexivity|].
  simpl. destruct (isComputed db l) eqn:Hl; simpl; [split; assumption|].
  rewrite Hl. simpl. split; [exact IH1|].
  unfold isComputed in Hl. destruct (storedNimber db l); [discriminate|]. exact IH2.
Qed.

(** X5.  A second [mergeComputedLands] with the same database finds nothing
    to merge: it returns false and leaves the couple as the first call left
    it.  In a normal impartial game no land that the first call left is
    stored in the database. *)
Theorem mergeComputedLands_idempotent (db : NimberDatabase.t) (c : Couple) :
  let c' := snd (Couple.mergeComputedLands db c) in
  Couple.mergeComputedLands db c' = (false, c')
  /\ (isNormalImpartial = true ->
      forall l, In l (position c') -> NimberDatabase.get db (Position.to_compact [l]) = None).
Proof.
  cbv zeta. destruct isNormalImpartial eqn:Hni.
  - destruct (position c) as [|l0 lands] eqn:Hp.
    + rewrite (mergeComputedLands_idle db c) by (right; exact Hp). cbn [snd].
      rewrite (mergeComputedLands_idle db c) by (right; exact Hp). rewrite Hp.
      split; [reflexivity|]. intros _ l [].
    + rewrite (mergeComputedLands_acting db c Hni) by (rewrite Hp; discriminate).
      cbn [snd]. split.
      * destruct (List.filter (fun l => negb (isComputed db l)) (position c)) as [|l1 ls] eqn:Hf.
        -- apply mergeComputedLands_idle. right. reflexivity.
        -- rewrite (mergeComputedLands_acting db _ Hni) by (cbn; discriminate).
           cbn [position nimber]. rewrite <- Hf.
           destruct (uncomputed_nothing_stored db (position c)
                       (mergedNimber db (position c) (nimber c))) as [-> ->].
           rewrite filter_uncomputed_idem. reflexivity.
      * intros _ l Hin. cbn [position] in Hin. apply filter_In in Hin as [_ Hl].
        apply negb_true_iff in Hl. unfold isComputed, storedNimber in Hl.
        destruct (NimberDatabase.get db (Position.to_compact [l])); [discriminate|reflexivity].
  - rewrite (mergeComputedLands_idle db c) by (left; exact Hni). cbn [snd].
    split; [apply mergeComputedLands_idle; left; exact Hni|discriminate].
Qed.

(** XOR on bytes. *)
Lemma wrap8_land (x : N) : Nimber.wrap8 x = N.land x 255.
Proof. unfold Nimber.wrap8. change 256 with (2 ^ 8). rewrite <- N.land_ones. reflexivity. Qed.

Lemma mergeNimbers_swap (n a b : Nimber.t) :
  Nimber.mergeNimbers (Nimber.mergeNimbers n a) b
  = Nimber.mergeNimbers (Nimber.mergeNimbers n b) a.
Proof.
  unfold Nimber.mergeNimbers. rewrite !wrap8_land. apply N.bits_inj. intros i.
  rewrite !N.land_spec, !N.lxor_spec, !N.land_spec, !N.lxor_spec.
  destruct (N.testbit n i), (N.testbit a i), (N.testbit b i), (N.testbit 255 i); reflexivity.
Qed.

Lemma mergedNimber_perm (db : NimberDatabase.t) (lands lands' : list Land) :
  Permutation lands lands' -> forall n, mergedNimber db lands n = mergedNimber db lands' n.
Proof.
  unfold mergedNimber. induction 1 as [|l ls ls' _ IH|l1 l2 ls|ls1 ls2 ls3 _ IH1 _ IH2]; intros n.
  - reflexivity.
  - simpl. apply IH.
  - simpl. destruct (storedNimber db l1), (storedNimber db l2); try reflexivity.
    now rewrite mergeNimbers_swap.
  - now rewrite IH1, IH2.
Qed.

(** X6.  In a normal impartial game the outcome of [mergeComputedLands] does
    not depend on the order of the lands: for two positions with the same
    lands in another order the returned flag and the merged nimber are the
    same, and the lands that are left are the same up to their order. *)
Theorem merged_nimber_ignores_land_order (db : NimberDatabase.t) (p p' : list Land) (n : Nimber.t) :
  isNormalImpartial = true ->
  Permutation p p' ->
  fst (Couple.mergeComputedLands db (mkCouple p n))
  = fst (Couple.mergeComputedLands db (mkCouple p' n))
  /\ nimber (snd (Couple.mergeComputedLands db (mkCouple p n)))
     = nimber (snd (Couple.mergeComputedLands db (mkCouple p' n)))
  /\ Permutation (position (snd (Couple.mergeComputedLands db (mkCouple p n))))
                 (position (snd (Couple.mergeComputedLands db (mkCouple p' n)))).
Proof.
  intros Hni Hperm.
  destruct p as [|l p].
  { apply Permutation_nil in Hperm. subst p'. repeat split; reflexivity. }
  destruct p' as [|l' p'].
  { symmetry in Hperm. apply Permutation_nil in Hperm. discriminate. }
  rewrite !(mergeComputedLands_acting db _ Hni) by (cbn; discriminate).
  cbn [fst snd position nimber]. split; [|split].
  - apply eq_true_iff_eq. rewrite !existsb_exists.
    split; intros (x & Hin & Hx); exists x; split; auto.
    + apply (Permutation_in _ Hperm Hin).
    + apply (Permutation_in _ (Permutation_sym Hperm) Hin).
  - apply mergedNimber_perm. exact Hperm.
  - clear -Hperm. induction Hperm; simpl.
    + constructor.
    + destruct (negb _); [constructor|]; assumption.
    + destruct (negb (isComputed db x)), (negb (isComputed db y)); try reflexivity.
      apply perm_swap.
    + etransitivity; eassumption.
Qed.
End MergeMoreFacts.


(** ** Whole tables *)
Section TableMoreFacts.
  Context {Key Value : Type} `{KO : TTKey Key} `{VO : TTValue Value}.
  Import TableSpec.

Lemma bucketIdx_lt (tb : BucketTable.t Key Value) (k : Key) :
  BucketTable.data tb <> [] -> (BucketTable.bucketIdx tb k < length (BucketTable.data tb))%nat.
Proof.
  intros Hne. unfold BucketTable.bucketIdx.
  assert (Hlen : (0 < length (BucketTable.data tb))%nat)
    by (destruct (BucketTable.data tb); [congruence|simpl; lia]).
  assert (Hm : keyHash k mod N.of_nat (length (BucketTable.data tb))
               < N.of_nat (length (BucketTable.data tb))) by (apply N.mod_lt; lia).
  lia.
Qed.

Lemma nth_insert_eq {A : Type} (l : list A) (i : nat) (x d : A) :
  (i < length l)%nat -> nth i (<[i := x]> l) d = x.
Proof.
  revert i. induction l as [|y l IH]; intros [|i] H; simpl in *; try lia; [reflexivity|].
  apply IH. lia.
Qed.

Lemma nth_insert_ne {A : Type} (l : list A) (i j : nat) (x d : A) :
  i <> j -> nth j (<[i := x]> l) d = nth j l d.
Proof.
  revert i j. induction l as [|y l IH]; intros [|i] [|j] H; simpl in *; try congruence.
  apply IH. congruence.
Qed.

Lemma bucketAt_fullBuckets (tb : BucketTable.t Key Value) (k : Key) :
  BucketTable.data tb <> [] -> fullBuckets tb -> length (BucketTable.bucketAt tb k) = 4%nat.
Proof.
  intros Hne Hfull. unfold BucketTable.bucketAt.
  unfold fullBuckets in Hfull. rewrite Forall_forall in Hfull. apply Hfull.
  apply list_elem_of_In. apply nth_In. apply bucketIdx_lt. exact Hne.
Qed.

(** What [insert] does to a bucket of four entries, whatever it holds. *)
Lemma insertBucket_found (b : BucketTable.Bucket Key Value) (k : Key) (v : Value) :
  length b = 4%nat -> keyEqb k k = true ->
  let '(b', original, grown) := BucketTable.insertBucket b k v in
  length b' = 4%nat
  /\ occupiedCount b' = (occupiedCount b + (if grown then 1 else 0))%nat
  /\ exists e, BucketTable.findFrom b' k 4 0 = Some e
               /\ keyEqb (BucketTable.key e) k = true
               /\ BucketTable.occupied e = true
               /\ BucketTable.value e = match original with
                                        | Some old => valueUpdate old v
                                        | None => v
                                        end.
Proof.
  intros Hlen Hrefl.
  destruct (four_entries b Hlen) as ([k0 v0 o0] & [k1 v1 o1] & [k2 v2 o2] & [k3 v3 o3] & ->).
  unfold BucketTable.insertBucket, BucketTable.replaceIdx, BucketTable.BUCKET_SIZE,
    BucketTable.entryAt, occupiedCount.
  destruct o0, o1, o2, o3; simpl;
    split_keys k0 k1 k2 k3 k; simpl;
    repeat match goal with
           | |- context [valueLt ?a ?b] => is_var a; is_var b; destruct (valueLt a b); simpl
           end;
    do 3 (simpl; unfold BucketTable.entryAt; rewrite ?E0, ?E1, ?E2, ?E3, ?Hrefl); simpl;
    (split; [reflexivity|]); (split; [reflexivity|]);
    eexists; (split; [reflexivity|]); simpl; rewrite ?E0, ?E1, ?E2, ?E3, ?Hrefl; auto.
Qed.

Lemma insert_data (tb : BucketTable.t Key Value) (k : Key) (v : Value) :
  BucketTable.data tb <> [] ->
  BucketTable.insert tb k v
  = (BucketTable.mk
       (<[BucketTable.bucketIdx tb k :=
            fst (fst (BucketTable.insertBucket (BucketTable.bucketAt tb k) k v))]>
          (BucketTable.data tb))
       (if snd (BucketTable.insertBucket (BucketTable.bucketAt tb k) k v)
        then BucketTable._size tb + 1 else BucketTable._size tb),
     snd (fst (BucketTable.insertBucket (BucketTable.bucketAt tb k) k v))).
Proof.
  intros Hne. unfold BucketTable.insert.
  destruct (BucketTable.data tb) as [|b0 bs] eqn:Hd; [congruence|].
  destruct (BucketTable.insertBucket (BucketTable.bucketAt tb k) k v) as [[b' o] g].
  reflexivity.
Qed.

Lemma find_data (tb : BucketTable.t Key Value) (k : Key) :
  BucketTable.data tb <> [] ->
  BucketTable.find tb k = BucketTable.findFrom (BucketTable.bucketAt tb k) k 4 0.
Proof.
  intros Hne. unfold BucketTable.find.
  destruct (BucketTable.data tb); [congruence|reflexivity].
Qed.

Lemma bucketAt_insert (tb : BucketTable.t Key Value) (i : nat)
      (b' : BucketTable.Bucket Key Value) (sz : N) (k' : Key) :
  (i < length (BucketTable.data tb))%nat ->
  BucketTable.bucketAt (BucketTable.mk (<[i := b']> (BucketTable.data tb)) sz) k'
  = if Nat.eqb (BucketTable.bucketIdx tb k') i then b' else BucketTable.bucketAt tb k'.
Proof.
  intros Hi. unfold BucketTable.bucketAt, BucketTable.bucketIdx.
  cbn [BucketTable.data]. rewrite length_insert.
  destruct (Nat.eqb_spec (N.to_nat (keyHash k' mod N.of_nat (length (BucketTable.data tb)))) i)
    as [->|Hne].
  - apply nth_insert_eq. exact Hi.
  - apply nth_insert_ne. congruence.
Qed.

(** X7.  On a table with buckets of four entries, for a key that is equal to
    itself, [find] after [insert] returns an entry in use with that key,
    whose value is the inserted one, or [update] of the value [insert]
    returned, applied to the inserted one; [find] in the other buckets
    answers as before, and the buckets keep their four entries. *)
Theorem insert_then_find (tb : BucketTable.t Key Value) (k : Key) (v : Value) :
  BucketTable.data tb <> [] -> fullBuckets tb -> keyEqb k k = true ->
  let tb' := fst (BucketTable.insert tb k v) in
  fullBuckets tb'
  /\ (exists e, BucketTable.find tb' k = Some e
                /\ keyEqb (BucketTable.key e) k = true
                /\ BucketTable.occupied e = true
                /\ BucketTable.value e = match snd (BucketTable.insert tb k v) with
                                         | Some old => valueUpdate old v
                                         | None => v
                                         end)
  /\ (forall k', BucketTable.bucketIdx tb k' <> BucketTable.bucketIdx tb k ->
                 BucketTable.find tb' k' = BucketTable.find tb k').
Proof.
  intros Hne Hfull Hrefl. cbv zeta. rewrite (insert_data tb k v Hne). cbn [fst snd].
  pose proof (bucketIdx_lt tb k Hne) as Hidx.
  pose proof (insertBucket_found (BucketTable.bucketAt tb k) k v
                (bucketAt_fullBuckets tb k Hne Hfull) Hrefl) as Hb.
  destruct (BucketTable.insertBucket (BucketTable.bucketAt tb k) k v) as [[b' o] g].
  cbn [fst snd]. destruct Hb as (Hlen & _ & e & Hfind & Hkey & Hocc & Hval).
  assert (Hne' : <[BucketTable.bucketIdx tb k := b']> (BucketTable.data tb) <> []).
  { intros H. apply (f_equal length) in H. rewrite length_insert in H. simpl in H. lia. }
  split; [|split].
  - unfold fullBuckets in *. cbn [BucketTable.data].
    apply Forall_insert; assumption.
  - exists e. rewrite find_data by exact Hne'. rewrite bucketAt_insert by exact Hidx.
    rewrite Nat.eqb_refl. auto.
  - intros k' Hk'. rewrite find_data by exact Hne'. rewrite bucketAt_insert by exact Hidx.
    apply Nat.eqb_neq in Hk'. rewrite Hk'. symmetry. apply find_data. exact Hne.
Qed.

(** *** The size of a table *)

Lemma insertBucket_count (b : BucketTable.Bucket Key Value) (k : Key) (v : Value) :
  length b = 4%nat ->
  length (fst (fst (BucketTable.insertBucket b k v))) = 4%nat
  /\ occupiedCount (fst (fst (BucketTable.insertBucket b k v)))
     = (occupiedCount b + (if snd (BucketTable.insertBucket b k v) then 1 else 0))%nat.
Proof.
  intros Hlen.
  destruct (four_entries b Hlen) as ([k0 v0 o0] & [k1 v1 o1] & [k2 v2 o2] & [k3 v3 o3] & ->).
  unfold BucketTable.insertBucket, BucketTable.replaceIdx, BucketTable.BUCKET_SIZE,
    BucketTable.entryAt, occupiedCount.
  destruct o0, o1, o2, o3; simpl;
    split_keys k0 k1 k2 k3 k; simpl;
    repeat match goal with
           | |- context [valueLt ?a ?b] => is_var a; is_var b; destruct (valueLt a b); simpl
           end;
    do 3 (simpl; unfold BucketTable.entryAt; rewrite ?E0, ?E1, ?E2, ?E3); simpl;
    split; reflexivity.
Qed.

Lemma touchFrom_count (f : Value -> Value) (b : BucketTable.Bucket Key Value) (k : Key) :
  length b = 4%nat ->
  length (BucketTable.touchFrom f b k 4 0) = 4%nat
  /\ occupiedCount (BucketTable.touchFrom f b k 4 0) = occupiedCount b.
Proof.
  intros Hlen.
  destruct (four_entries b Hlen) as ([k0 v0 o0] & [k1 v1 o1] & [k2 v2 o2] & [k3 v3 o3] & ->).
  unfold BucketTable.entryAt, occupiedCount.
  destruct o0, o1, o2, o3; simpl; unfold BucketTable.entryAt; simpl;
    split_keys k0 k1 k2 k3 k; simpl; split; reflexivity.
Qed.

Lemma list_sum_insert {A : Type} (f : A -> nat) (l : list A) (i : nat) (x d : A) :
  (i < length l)%nat ->
  (list_sum (map f (<[i := x]> l)) + f (nth i l d) = list_sum (map f l) + f x)%nat.
Proof.
  revert i. induction l as [|y l IH]; intros [|i] H; simpl in *; try lia.
  specialize (IH i ltac:(lia)). lia.
Qed.

Lemma entries_count (tb : BucketTable.t Key Value) :
  length (BucketTable.entries tb) = occupiedTotal tb.
Proof.
  unfold BucketTable.entries, occupiedTotal.
  induction (BucketTable.data tb) as [|b bs IH]; [reflexivity|].
  cbn [concat map list_sum fold_right]. rewrite filter_app, length_app, IH. f_equal.
  unfold occupiedCount. clear. induction b as [|e b IH]; [reflexivity|].
  rewrite filter_cons. cbn [List.filter]. destruct (BucketTable.occupied e) eqn:He.
  - rewrite decide_True by reflexivity. simpl. now rewrite IH.
  - rewrite decide_False by discriminate. exact IH.
Qed.

Lemma occupiedCount_le (b : BucketTable.Bucket Key Value) : (occupiedCount b <= length b)%nat.
Proof. unfold occupiedCount. apply List.filter_length_le. Qed.

Lemma occupiedTotal_le (tb : BucketTable.t Key Value) :
  fullBuckets tb -> (occupiedTotal tb <= 4 * length (BucketTable.data tb))%nat.
Proof.
  unfold fullBuckets, occupiedTotal. induction 1 as [|b bs Hb _ IH]; simpl; [lia|].
  pose proof (occupiedCount_le b). unfold BucketTable.BUCKET_SIZE in Hb. lia.
Qed.


Lemma step_sizeInv (tb : BucketTable.t Key Value) (o : TableOps.op Key Value) :
  sizeInv tb ->
  sizeInv (TableOps.step tb o)
  /\ length (BucketTable.data (TableOps.step tb o)) = length (BucketTable.data tb).
Proof.
  intros [Hfull Hsize].
  assert (Hcase : BucketTable.data tb = [] \/ BucketTable.data tb <> [])
    by (destruct (BucketTable.data tb); [left|right]; congruence).
  assert (Htouch : forall f k,
             sizeInv (BucketTable.touch f tb k)
             /\ length (BucketTable.data (BucketTable.touch f tb k))
                = length (BucketTable.data tb)).
  { intros f k. destruct Hcase as [Hd|Hne].
    { unfold BucketTable.touch. rewrite Hd. split; [split; assumption|rewrite ?Hd; reflexivity]. }
    assert (Ht : BucketTable.touch f tb k
                 = BucketTable.mk
                     (<[BucketTable.bucketIdx tb k :=
                          BucketTable.touchFrom f (BucketTable.bucketAt tb k) k 4 0]>
                        (BucketTable.data tb))
                     (BucketTable._size tb)).
    { unfold BucketTable.touch. destruct (BucketTable.data tb); [congruence|reflexivity]. }
    rewrite Ht.
    destruct (touchFrom_count f (BucketTable.bucketAt tb k) k
                (bucketAt_fullBuckets tb k Hne Hfull)) as [Hlen Hcount].
    pose proof (bucketIdx_lt tb k Hne) as Hidx.
    split; [split|].
    - unfold fullBuckets. cbn [BucketTable.data]. apply Forall_insert; assumption.
    - unfold occupiedTotal. cbn [BucketTable.data BucketTable._size].
      pose proof (list_sum_insert occupiedCount (BucketTable.data tb)
                    (BucketTable.bucketIdx tb k)
                    (BucketTable.touchFrom f (BucketTable.bucketAt tb k) k 4 0)
                    BucketTable.emptyBucket Hidx) as Hs.
      fold (BucketTable.bucketAt tb k) in Hs. unfold occupiedTotal in Hsize.
      unfold BucketTable.BUCKET_SIZE. lia.
    - cbn [BucketTable.data]. apply length_insert. }
  destruct o as [k v|k threadId|k threadId|]; cbn [TableOps.step].
  - destruct Hcase as [Hd|Hne].
    + unfold BucketTable.insert. rewrite Hd. cbn [fst]. split; [split; assumption|rewrite ?Hd; reflexivity].
    + rewrite (insert_data tb k v Hne). cbn [fst].
      destruct (insertBucket_count (BucketTable.bucketAt tb k) k v
                  (bucketAt_fullBuckets tb k Hne Hfull)) as [Hlen Hcount].
      pose proof (bucketIdx_lt tb k Hne) as Hidx.
      split; [split|].
      * unfold fullBuckets. cbn [BucketTable.data]. apply Forall_insert; assumption.
      * unfold occupiedTotal. cbn [BucketTable.data BucketTable._size].
        pose proof (list_sum_insert occupiedCount (BucketTable.data tb)
                      (BucketTable.bucketIdx tb k)
                      (fst (fst (BucketTable.insertBucket (BucketTable.bucketAt tb k) k v)))
                      BucketTable.emptyBucket Hidx) as Hs.
        fold (BucketTable.bucketAt tb k) in Hs. unfold occupiedTotal in Hsize.
        destruct (snd (BucketTable.insertBucket (BucketTable.bucketAt tb k) k v)); lia.
      * cbn [BucketTable.data]. apply length_insert.
  - apply Htouch.
  - apply Htouch.
  - unfold BucketTable.clear. split; [split|].
    + unfold fullBuckets. cbn [BucketTable.data]. apply Forall_forall.
      intros b Hb. apply list_elem_of_In, in_map_iff in Hb as (? & <- & _). reflexivity.
    + unfold occupiedTotal. cbn [BucketTable.data BucketTable._size].
      clear. induction (BucketTable.data tb) as [|b bs IH]; [reflexivity|]. simpl. exact IH.
    + cbn [BucketTable.data]. apply length_map.
Qed.

(** X8.  After any sequence of [insert], [mark], [unmark] and [clear] on a
    new table, [size] is the number of entries in use, it never exceeds the
    capacity, the number of buckets is still [capacity / 4], and every
    bucket has its four entries. *)
Theorem size_counts_occupied (capacity : N) (ops : list (TableOps.op Key Value)) :
  let tb := TableOps.run (BucketTable.create capacity) ops in
  BucketTable.size tb = N.of_nat (length (BucketTable.entries tb))
  /\ BucketTable.size tb <= capacity
  /\ N.of_nat (length (BucketTable.data tb)) = capacity / 4
  /\ fullBuckets tb.
Proof.
  cbv zeta.
  assert (H0 : sizeInv (BucketTable.create (Key := Key) (Value := Value) capacity)
               /\ N.of_nat (length (BucketTable.data
                                      (BucketTable.create (Key := Key) (Value := Value) capacity)))
                  = capacity / 4).
  { unfold BucketTable.create, sizeInv, fullBuckets, occupiedTotal.
    cbn [BucketTable.data BucketTable._size]. change (N.of_nat BucketTable.BUCKET_SIZE) with 4.
    rewrite length_replicate, N2Nat.id. split; [split|reflexivity].
    - apply Forall_replicate. reflexivity.
    - induction (N.to_nat (capacity / 4)); [reflexivity|]. simpl. rewrite <- IHn. reflexivity. }
  revert H0. unfold TableOps.run. generalize (BucketTable.create (Key := Key) (Value := Value) capacity).
  induction ops as [|o ops IH]; intros tb [Hinv Hlen].
  - simpl. destruct Hinv as [Hfull Hsize]. unfold BucketTable.size.
    rewrite entries_count. split; [exact Hsize|]. split; [|split; assumption].
    rewrite Hsize. pose proof (occupiedTotal_le tb Hfull) as Hle.
    assert (4 * (capacity / 4) <= capacity) by (apply N.Div0.mul_div_le). lia.
  - simpl. destruct (step_sizeInv tb o Hinv) as [Hinv' Hlen']. apply IH.
    split; [exact Hinv'|]. rewrite Hlen'. exact Hlen.
Qed.

(** *** A table that holds nothing *)

Lemma findFrom_emptyBucket (k : Key) :
  BucketTable.findFrom (BucketTable.emptyBucket (Value := Value)) k 4 0
  = if keyEqb keyDefault k then Some BucketTable.emptyEntry else None.
Proof.
  unfold BucketTable.emptyBucket, BucketTable.BUCKET_SIZE. simpl.
  unfold BucketTable.entryAt. simpl. destruct (keyEqb keyDefault k); reflexivity.
Qed.

(** X9.  [find] compares keys without looking at [occupied]: on a table
    that was just built or cleared it answers with the empty entry for a key
    equal to the default key when the table has a bucket, and with nothing
    otherwise.  [clear] leaves size 0 and no entry in use. *)
Theorem find_ignores_occupied (capacity : N) (tb : BucketTable.t Key Value) (k : Key) :
  BucketTable.find (BucketTable.create capacity) k
  = (if (4 <=? capacity) && keyEqb keyDefault k then Some BucketTable.emptyEntry else None)
  /\ BucketTable.find (BucketTable.clear tb) k
     = (if negb (Nat.eqb (length (BucketTable.data tb)) 0) && keyEqb keyDefault k
        then Some BucketTable.emptyEntry else None)
  /\ BucketTable.size (BucketTable.clear tb) = 0
  /\ BucketTable.entries (BucketTable.clear tb) = [].
Proof.
  split; [|split; [|split]].
  - unfold BucketTable.find, BucketTable.create. cbn [BucketTable.data].
    change (N.of_nat BucketTable.BUCKET_SIZE) with 4.
    destruct (N.leb_spec 4 capacity) as [Hc|Hc].
    + assert (Hq : 1 <= capacity / 4).
      { apply N.div_le_lower_bound; lia. }
      destruct (N.to_nat (capacity / 4)) as [|n] eqn:Hn; [lia|].
      cbn [replicate andb]. rewrite <- findFrom_emptyBucket. f_equal.
      unfold BucketTable.bucketAt. cbn [BucketTable.data].
      change (BucketTable.emptyBucket :: replicate n BucketTable.emptyBucket)
        with (replicate (S n) (BucketTable.emptyBucket (Key := Key) (Value := Value))).
      generalize (BucketTable.bucketIdx
                    (BucketTable.mk (replicate (S n) BucketTable.emptyBucket) 0) k).
      generalize (S n). clear. intros m i. revert i.
      induction m as [|m IH]; intros [|i]; simpl; auto.
    + rewrite N.div_small by exact Hc. reflexivity.
  - unfold BucketTable.find, BucketTable.clear. cbn [BucketTable.data].
    destruct (BucketTable.data tb) as [|b bs]; [reflexivity|].
    cbn [map length Nat.eqb negb andb]. rewrite <- findFrom_emptyBucket. f_equal.
    unfold BucketTable.bucketAt. cbn [BucketTable.data].
    generalize (BucketTable.bucketIdx
                  (BucketTable.mk (BucketTable.emptyBucket :: map (fun _ => BucketTable.emptyBucket) bs) 0) k).
    change (BucketTable.emptyBucket :: map (fun _ : BucketTable.Bucket Key Value => BucketTable.emptyBucket) bs)
      with (map (fun _ : BucketTable.Bucket Key Value => BucketTable.emptyBucket (Key := Key) (Value := Value)) (b :: bs)).
    generalize (b :: bs). clear. intros l i. revert i.
    induction l as [|x l IH]; intros [|i]; simpl; auto.
  - reflexivity.
  - unfold BucketTable.entries, BucketTable.clear. cbn [BucketTable.data].
    induction (BucketTable.data tb) as [|b bs IH]; [reflexivity|].
    cbn [map concat]. rewrite filter_app, IH. reflexivity.
Qed.
End TableMoreFacts.


(** ** Marks of the parallel solver *)
Section TouchFacts.
  Context {Key Value : Type} `{KO : TTKey Key} `{VO : TTValue Value}.
  Import TableSpec BucketSpec.

Lemma touchFrom_compose (f g : Value -> Value) (b : BucketTable.Bucket Key Value) (k : Key) :
  length b = 4%nat ->
  BucketTable.touchFrom g (BucketTable.touchFrom f b k 4 0) k 4 0
  = BucketTable.touchFrom (fun v => g (f v)) b k 4 0.
Proof.
  intros Hlen.
  destruct (four_entries b Hlen) as ([k0 v0 o0] & [k1 v1 o1] & [k2 v2 o2] & [k3 v3 o3] & ->).
  destruct o0, o1, o2, o3; simpl; unfold BucketTable.entryAt; simpl;
    split_keys k0 k1 k2 k3 k; simpl; unfold BucketTable.entryAt; simpl;
    rewrite ?E0, ?E1, ?E2, ?E3; simpl; reflexivity.
Qed.

Lemma touchFrom_ext (f f' : Value -> Value) (b : BucketTable.Bucket Key Value) (k : Key) :
  (forall v, f v = f' v) ->
  forall n i, BucketTable.touchFrom f b k n i = BucketTable.touchFrom f' b k n i.
Proof.
  intros Hext n. induction n as [|n IH]; intros i; [reflexivity|].
  simpl. rewrite Hext, IH. reflexivity.
Qed.

Lemma touchFrom_absent (f : Value -> Value) (b : BucketTable.Bucket Key Value) (k : Key) :
  length b = 4%nat ->
  list_find (fun e => holdsKey k e = true) b = None ->
  BucketTable.touchFrom f b k 4 0 = b.
Proof.
  intros Hlen Hnone.
  destruct (four_entries b Hlen) as ([k0 v0 o0] & [k1 v1 o1] & [k2 v2 o2] & [k3 v3 o3] & ->).
  apply list_find_None in Hnone.
  repeat match goal with H : Forall _ (_ :: _) |- _ => inversion H; clear H; subst end.
  unfold holdsKey in *. simpl in *. unfold BucketTable.entryAt. simpl.
  repeat match goal with
         | H : ?x <> true |- _ => apply not_true_is_false in H; rewrite H
         end.
  reflexivity.
Qed.

Lemma touch_data (f : Value -> Value) (tb : BucketTable.t Key Value) (k : Key) :
  BucketTable.data tb <> [] ->
  BucketTable.touch f tb k
  = BucketTable.mk
      (<[BucketTable.bucketIdx tb k :=
           BucketTable.touchFrom f (BucketTable.bucketAt tb k) k 4 0]> (BucketTable.data tb))
      (BucketTable._size tb).
Proof.
  intros Hne. unfold BucketTable.touch.
  destruct (BucketTable.data tb); [congruence|reflexivity].
Qed.

Lemma touch_compose (f g : Value -> Value) (tb : BucketTable.t Key Value) (k : Key) :
  fullBuckets tb ->
  BucketTable.touch g (BucketTable.touch f tb k) k
  = BucketTable.touch (fun v => g (f v)) tb k.
Proof.
  intros Hfull.
  assert (Hcase : BucketTable.data tb = [] \/ BucketTable.data tb <> [])
    by (destruct (BucketTable.data tb); [left|right]; congruence).
  destruct Hcase as [Hd|Hne].
  { unfold BucketTable.touch. rewrite Hd. rewrite Hd. reflexivity. }
  pose proof (bucketIdx_lt tb k Hne) as Hidx.
  rewrite (touch_data f tb k Hne), (touch_data (fun v => g (f v)) tb k Hne).
  set (b1 := BucketTable.touchFrom f (BucketTable.bucketAt tb k) k 4 0).
  assert (Hne' : <[BucketTable.bucketIdx tb k := b1]> (BucketTable.data tb) <> []).
  { intros H. apply (f_equal length) in H. rewrite length_insert in H. simpl in H. lia. }
  rewrite touch_data by exact Hne'. cbn [BucketTable.data BucketTable._size].
  rewrite bucketAt_insert by exact Hidx.
  assert (Hi : BucketTable.bucketIdx
                 (BucketTable.mk (<[BucketTable.bucketIdx tb k := b1]> (BucketTable.data tb))
                                 (BucketTable._size tb)) k
               = BucketTable.bucketIdx tb k).
  { unfold BucketTable.bucketIdx. cbn [BucketTable.data]. now rewrite length_insert. }
  rewrite Hi, Nat.eqb_refl. rewrite list_insert_insert_eq. subst b1.
  rewrite touchFrom_compose by (apply bucketAt_fullBuckets; assumption). reflexivity.
Qed.

Lemma lookup_nth {A : Type} (l : list A) (i : nat) (d : A) :
  (i < length l)%nat -> l !! i = Some (nth i l d).
Proof.
  revert i. induction l as [|x l IH]; intros [|i] H; simpl in *; try lia; [reflexivity|].
  apply IH. lia.
Qed.

Lemma touch_absent (f : Value -> Value) (tb : BucketTable.t Key Value) (k : Key) :
  fullBuckets tb ->
  list_find (fun e => holdsKey k e = true) (BucketTable.bucketAt tb k) = None ->
  BucketTable.touch f tb k = tb.
Proof.
  intros Hfull Hnone.
  assert (Hcase : BucketTable.data tb = [] \/ BucketTable.data tb <> [])
    by (destruct (BucketTable.data tb); [left|right]; congruence).
  destruct Hcase as [Hd|Hne].
  { unfold BucketTable.touch. rewrite Hd. reflexivity. }
  rewrite (touch_data f tb k Hne).
  rewrite touchFrom_absent by (try apply bucketAt_fullBuckets; assumption).
  destruct tb as [d sz]. cbn [BucketTable.data BucketTable._size] in *. f_equal.
  apply list_insert_id. unfold BucketTable.bucketAt. cbn [BucketTable.data].
  apply lookup_nth.
  apply (bucketIdx_lt (BucketTable.mk d sz) k). exact Hne.
Qed.
End TouchFacts.

Section MarkFacts.
  Context {Key : Type} `{KO : TTKey Key}.
  Import TableSpec BucketSpec.

(** X10.  In the table of the parallel solver, on buckets of four entries,
    [unmark] after [mark] with the same key and thread leaves the table as
    [unmark] alone does; [mark] and [unmark] keep the size, and both leave
    the table as it is when no slot in use holds the key. *)
Theorem unmark_after_mark (tb : BucketTable.t Key StoredParallelNodeInfo.t)
        (k : Key) (threadId : Z) :
  fullBuckets tb ->
  BucketTable.unmark (BucketTable.mark tb k threadId) k threadId
  = BucketTable.unmark tb k threadId
  /\ BucketTable.size (BucketTable.mark tb k threadId) = BucketTable.size tb
  /\ BucketTable.size (BucketTable.unmark tb k threadId) = BucketTable.size tb
  /\ (list_find (fun e => holdsKey k e = true) (BucketTable.bucketAt tb k) = None ->
      BucketTable.mark tb k threadId = tb /\ BucketTable.unmark tb k threadId = tb).
Proof.
  intros Hfull. unfold BucketTable.mark, BucketTable.unmark. split; [|split; [|split]].
  - rewrite touch_compose by exact Hfull.
    assert (Hcase : BucketTable.data tb = [] \/ BucketTable.data tb <> [])
      by (destruct (BucketTable.data tb); [left|right]; congruence).
    destruct Hcase as [Hd|Hne]; [unfold BucketTable.touch; rewrite Hd; reflexivity|].
    rewrite !touch_data by exact Hne. f_equal. f_equal. apply touchFrom_ext.
    intros [pn its ids]. cbn. unfold StoredParallelNodeInfo.unmark, StoredParallelNodeInfo.mark.
    cbn. f_equal. apply set_eq. intros x.
    rewrite !elem_of_difference, elem_of_union. tauto.
  - unfold BucketTable.touch, BucketTable.size. destruct (BucketTable.data tb); reflexivity.
  - unfold BucketTable.touch, BucketTable.size. destruct (BucketTable.data tb); reflexivity.
  - intros Hnone. split; apply touch_absent; assumption.
Qed.
End MarkFacts.


(** ** Children of a node after an update *)
Section ChildrenRuleFacts.
Context `{G : Game} {Child : Type} `{CO : ChildOps Child}.
Import NodeSpec ChildrenSpec.

Lemma singleLandWalk_spec (cs : list Child) :
  PnsNode.singleLandWalk cs
  = if existsb childIsLost cs then None else Some (openChildren cs).
Proof.
  induction cs as [|c cs IH]; [reflexivity|].
  cbn [PnsNode.singleLandWalk existsb openChildren List.filter].
  unfold childIsLost at 1, childIsWon at 1.
  destruct (ProofNumbers.isLoss (childProofNumbers c)); [reflexivity|].
  cbn [orb]. rewrite IH.
  destruct (ProofNumbers.isWin (childProofNumbers c)); cbn [negb];
    destruct (existsb childIsLost cs); reflexivity.
Qed.

(** X11.  [updateChildren] on an unproved, expanded node that is not a
    multi-land node: the node is set to a win if a child is lost; else it is
    set to a loss if every child is won; else the won children are removed,
    the other children stay in their order, and none of them is proved. *)
Theorem single_land_children_rule (fuel : nat) (factory : PnsNode.ChildFactory (Child := Child))
        (db : NimberDatabase.t) (n : PnsNode Child) :
  PnsNode.isProved n = false -> PnsNode.isExpanded n = true ->
  PnsNode.isMultiLandNode n = false ->
  let cs := children n in
  (existsb childIsLost cs = true ->
   PnsNode.updateChildren fuel factory db n = Ok (PnsNode.setToWin n))
  /\ (existsb childIsLost cs = false -> openChildren cs = [] ->
      PnsNode.updateChildren fuel factory db n = Ok (PnsNode.setToLoss n))
  /\ (existsb childIsLost cs = false -> openChildren cs <> [] ->
      PnsNode.updateChildren fuel factory db n = Ok (PnsNode.withChildren n (openChildren cs))
      /\ Forall (fun c => childIsProved c = false) (openChildren cs)).
Proof.
  intros Hp He Hm cs. unfold PnsNode.updateChildren. rewrite Hp, He, Hm. cbn [negb orb].
  unfold PnsNode.updateSingleLandChildren. fold cs. rewrite singleLandWalk_spec.
  split; [|split].
  - intros ->. reflexivity.
  - intros -> ->. reflexivity.
  - intros Hl Hne. rewrite Hl. split.
    + destruct (openChildren cs); [congruence|reflexivity].
    + apply Forall_forall. intros c Hc. apply list_elem_of_In in Hc.
      unfold openChildren in Hc. apply filter_In in Hc as [Hin Hw].
      apply negb_true_iff in Hw. unfold childIsProved. rewrite Hw, orb_false_r.
      destruct (childIsLost c) eqn:Hlost; [|reflexivity].
      assert (existsb childIsLost cs = true) by (apply existsb_exists; eauto). congruence.
Qed.
End ChildrenRuleFacts.

Section HoldingFacts.
Context `{G : Game} {Child : Type} `{CO : ChildOps Child}.

(** X12.  Thresholds never hold for a node set to a win or to a loss,
    whatever the thresholds are.  The default thresholds hold for a node
    exactly when neither of its proof numbers is infinite. *)
Theorem collapsed_nodes_never_hold (th : Thresholds) (n : PnsNode Child) :
  Thresholds.areHolding th (PnsNode.setToWin n) = Ok false
  /\ Thresholds.areHolding th (PnsNode.setToLoss n) = Ok false
  /\ (PN.wf (proof (proofNumbers (info n))) -> PN.wf (disproof (proofNumbers (info n))) ->
      Thresholds.areHolding Thresholds.default n
      = Ok (negb (PN.is_inf (proof (proofNumbers (info n))))
            && negb (PN.is_inf (disproof (proofNumbers (info n)))))).
Proof.
  split; [|split].
  - unfold Thresholds.areHolding. cbn. rewrite andb_false_r. reflexivity.
  - unfold Thresholds.areHolding. cbn. reflexivity.
  - unfold PN.wf. intros Hp Hd. unfold Thresholds.areHolding, Thresholds.default.
    cbn [proofTh disproofTh pShift dShift minTh].
    set (p := proof (proofNumbers (info n))) in *.
    set (d := disproof (proofNumbers (info n))) in *.
    assert (Hlt : forall x, PN.ltb x PN.INF = negb (PN.is_inf x)).
    { intros x. unfold PN.ltb, PN.INF, PN.is_inf. rewrite N.eqb_refl.
      destruct (x =? PN.MAX); reflexivity. }
    assert (Hadd : forall x, x <= PN.MAX -> PN.is_inf x = false -> PN.add x 0 = Ok x).
    { intros x Hx Hi. unfold PN.add, PN.will_addition_overflow. rewrite Hi.
      change (PN.is_inf 0) with false. cbn [orb]. rewrite N.sub_0_r.
      unfold PN.is_inf in Hi. apply N.eqb_neq in Hi.
      destruct (N.leb_spec PN.MAX x); [lia|]. now rewrite N.add_0_r. }
    rewrite !Hlt.
    destruct (PN.is_inf p) eqn:Hpi; cbn [negb andb]; [reflexivity|].
    destruct (PN.is_inf d) eqn:Hdi; cbn [negb andb]; [reflexivity|].
    rewrite (Hadd p Hp Hpi), (Hadd d Hd Hdi). cbn. rewrite Hlt.
    unfold PN.min. destruct (PN.ltb d p); [rewrite Hdi|rewrite Hpi]; reflexivity.
Qed.
End HoldingFacts.


(** ** Proof numbers of a multi-land node *)
Section MultiLandFacts.
Context `{G : Game} {Child : Type} `{CO : ChildOps Child}.
Import NodeSpec ChildrenSpec.




End MultiLandFacts.


(** ** The selected children *)
Section SelectionFacts.
Context `{G : Game} {Child : Type} `{CO : ChildOps Child}.
Import SelectionSpec.

Lemma PN_lt_le_not x bc k : PN.ltb x bc = true -> PN.ltb k bc = false -> PN.ltb k x = false.
Proof. intros H1 H2. pn_order. Qed.

Lemma PN_lt_not_eq x bc k :
  PN.ltb x bc = true -> PN.ltb k bc = false -> PN.eqb k x = true -> False.
Proof. intros H1 H2 H3. pn_order. Qed.

Lemma PN_eqb_not_lt x bc : PN.eqb x bc = true -> PN.ltb x bc = false.
Proof. intros H. pn_order. Qed.

Lemma PN_eqb_le x bc k : PN.eqb x bc = true -> PN.ltb k bc = false -> PN.ltb k x = false.
Proof. intros H1 H2. pn_order. Qed.

Variable complexity : PnsNode Child -> nat -> Res PN.value_type.
Variable cval : nat -> PN.value_type.
Variable n : PnsNode Child.
Variable landSwitching : bool.
Hypothesis Hc : forall k, (k < length (children n))%nat -> complexity n k = Ok (cval k).
Hypothesis Hfull : negb landSwitching && PnsNode.isMultiLandNode n = false.

Lemma isUnlockedAt_lt (k : nat) : isUnlockedAt n k = true -> (k < length (children n))%nat.
Proof.
  unfold isUnlockedAt. destruct (children n !! k) eqn:E; [|discriminate].
  intros _. apply lookup_lt_Some in E. exact E.
Qed.

Lemma selInv_step (i : nat) (child : Child) (st : list nat * option nat * PN.value_type) :
  children n !! i = Some child -> selInv cval n i st ->
  exists st',
    (if negb (childIsLocked child) then
       let '(bestIndices, mpn2Idx, bestComplexity) := st in
       childComplexity ← complexity n i;
       (if Nat.eqb (length bestIndices) 0 || PN.ltb childComplexity bestComplexity
        then Ok ([i], match bestIndices with b :: _ => Some b | [] => mpn2Idx end,
                 childComplexity)
        else if PN.eqb childComplexity bestComplexity
        then Ok (bestIndices ++ [i], mpn2Idx, bestComplexity)
        else match mpn2Idx with
             | None => Ok (bestIndices, Some i, bestComplexity)
             | Some j =>
                 c2 ← complexity n j;
                 if PN.ltb childComplexity c2
                 then Ok (bestIndices, Some i, bestComplexity)
                 else Ok (bestIndices, mpn2Idx, bestComplexity)
             end)
     else Ok st) = Ok st'
    /\ selInv cval n (S i) st'.
Proof.
  intros Hi Hinv. pose proof (lookup_lt_Some _ _ _ Hi) as Hlt.
  assert (Hun : isUnlockedAt n i = negb (childIsLocked child)).
  { unfold isUnlockedAt. rewrite Hi. reflexivity. }
  destruct st as [[best m2] bc]. destruct Hinv as (Hnd & Hbest & Hnil & Hle & Hm2).
  destruct (childIsLocked child) eqn:Hlock; cbn [negb] in *.
  { (* a locked child changes nothing *)
    exists (best, m2, bc). split; [reflexivity|]. split; [exact Hnd|]. split; [|split; [|split]].
    - intros b Hb. destruct (Hbest b Hb) as (? & ? & ?). repeat split; auto.
    - intros Hb. destruct (Hnil Hb) as [? Hk]. split; [assumption|].
      intros k Hk'. destruct (Nat.eq_dec k i) as [->|]; [exact Hun|apply Hk; lia].
    - intros k Hk Hu. destruct (Nat.eq_dec k i) as [->|]; [congruence|apply Hle; [lia|exact Hu]].
    - destruct m2 as [j|].
      + destruct Hm2 as (? & ? & ? & Hk). repeat split; auto.
        intros k Hk' Hu. destruct (Nat.eq_dec k i) as [->|]; [congruence|apply Hk; [lia|exact Hu]].
      + intros k Hk Hu. destruct (Nat.eq_dec k i) as [->|]; [congruence|apply Hm2; [lia|exact Hu]]. }
  rewrite (Hc i Hlt). unfold mbind at 1, Res_bind at 1. cbv beta iota.
  destruct best as [|b0 best'].
  { (* the first unlocked child *)
    destruct (Hnil eq_refl) as [-> Hnone]. cbn [length Nat.eqb orb].
    exists ([i], None, cval i). split; [reflexivity|]. split; [repeat constructor; intros []|].
    split; [|split; [|split]].
    - intros b [<-|[]]. repeat split; [lia|exact Hun|apply PN_eqb_refl].
    - discriminate.
    - intros k Hk Hu. destruct (Nat.eq_dec k i) as [->|Hne].
      + split; [apply PN_ltb_irrefl|intros _; left; reflexivity].
      + rewrite Hnone in Hu by lia. discriminate.
    - intros k Hk Hu. destruct (Nat.eq_dec k i) as [->|Hne]; [left; reflexivity|].
      rewrite Hnone in Hu by lia. discriminate. }
  cbn [length Nat.eqb orb].
  assert (Hb0 : (b0 < i)%nat /\ isUnlockedAt n b0 = true /\ PN.eqb (cval b0) bc = true)
    by (apply Hbest; left; reflexivity).
  destruct Hb0 as (Hb0i & Hb0u & Hb0c).
  destruct (PN.ltb (cval i) bc) eqn:Hless.
  { (* a new best child *)
    exists ([i], Some b0, cval i). split; [reflexivity|]. split; [repeat constructor; intros []|].
    split; [|split; [|split]].
    - intros b [<-|[]]. repeat split; [lia|exact Hun|apply PN_eqb_refl].
    - discriminate.
    - intros k Hk Hu. destruct (Nat.eq_dec k i) as [->|Hne].
      + split; [apply PN_ltb_irrefl|intros _; left; reflexivity].
      + destruct (Hle k ltac:(lia) Hu) as [Hkb _]. split.
        * apply (PN_lt_le_not _ _ _ Hless Hkb).
        * intros He. exfalso. apply (PN_lt_not_eq _ _ _ Hless Hkb He).
    - repeat split; [lia|exact Hb0u|intros [->|[]]; lia|].
      intros k Hk Hu Hnot. assert (Hne : k <> i) by (intros ->; apply Hnot; left; reflexivity).
      destruct (Hle k ltac:(lia) Hu) as [Hkb _]. apply (PN_eqb_le _ _ _ Hb0c Hkb). }
  destruct (PN.eqb (cval i) bc) eqn:Heq.
  { (* a tie *)
    exists ((b0 :: best') ++ [i], m2, bc). split; [reflexivity|].
    split; [|split; [|split; [|split]]].
    - apply NoDup_ListNoDup. apply NoDup_app. split; [apply NoDup_ListNoDup; exact Hnd|].
      split; [|apply NoDup_singleton].
      intros x Hx Hxi. apply list_elem_of_In in Hx. apply list_elem_of_In in Hxi.
      destruct Hxi as [<-|[]]. destruct (Hbest _ Hx) as (? & _). lia.
    - intros b Hb. apply in_app_iff in Hb as [Hb|[<-|[]]].
      + destruct (Hbest b Hb) as (? & ? & ?). repeat split; auto.
      + repeat split; [lia|exact Hun|exact Heq].
    - discriminate.
    - intros k Hk Hu. destruct (Nat.eq_dec k i) as [->|Hne].
      + split; [exact Hless|intros _; apply in_app_iff; right; left; reflexivity].
      + destruct (Hle k ltac:(lia) Hu) as [Hkb Hin]. split; [exact Hkb|].
        intros He. apply in_app_iff. left. apply Hin. exact He.
    - destruct m2 as [j|].
      + destruct Hm2 as (Hj & Hju & Hjn & Hk). repeat split; [lia|exact Hju| |].
        * intros Hin. apply in_app_iff in Hin as [Hin|[<-|[]]]; [contradiction|lia].
        * intros k Hk' Hu Hnot. apply Hk; [|exact Hu|].
          -- destruct (Nat.eq_dec k i) as [->|]; [|lia].
             exfalso. apply Hnot. apply in_app_iff. right. left. reflexivity.
          -- intros Hin. apply Hnot. apply in_app_iff. left. exact Hin.
      + intros k Hk Hu. apply in_app_iff. destruct (Nat.eq_dec k i) as [->|Hne].
        * right. left. reflexivity.
        * left. apply Hm2; [lia|exact Hu]. }
  (* a child above the best *)
  assert (Hnoti : ~ In i (b0 :: best')).
  { intros Hin. destruct (Hbest i Hin) as (? & _). lia. }
  assert (Hkeep : forall k, (k < S i)%nat -> isUnlockedAt n k = true ->
            PN.ltb (cval k) bc = false /\ (PN.eqb (cval k) bc = true -> In k (b0 :: best'))).
  { intros k Hk Hu. destruct (Nat.eq_dec k i) as [->|Hne].
    - split; [exact Hless|congruence].
    - apply Hle; [lia|exact Hu]. }
  assert (Hbest' : forall b, In b (b0 :: best') ->
            (b < S i)%nat /\ isUnlockedAt n b = true /\ PN.eqb (cval b) bc = true).
  { intros b Hb. destruct (Hbest b Hb) as (? & ? & ?). repeat split; auto. }
  destruct m2 as [j|].
  - destruct Hm2 as (Hj & Hju & Hjn & Hk).
    rewrite (Hc j (isUnlockedAt_lt j Hju)). unfold mbind, Res_bind. cbv beta iota.
    destruct (PN.ltb (cval i) (cval j)) eqn:Hij.
    + exists (b0 :: best', Some i, bc). split; [reflexivity|].
      split; [exact Hnd|]. split; [exact Hbest'|]. split; [discriminate|].
      split; [exact Hkeep|]. repeat split; [lia|exact Hun|exact Hnoti|].
      intros k Hk' Hu Hnot. destruct (Nat.eq_dec k i) as [->|Hne]; [apply PN_ltb_irrefl|].
      apply (PN_lt_le_not _ _ _ Hij). apply Hk; [lia|exact Hu|exact Hnot].
    + exists (b0 :: best', Some j, bc). split; [reflexivity|].
      split; [exact Hnd|]. split; [exact Hbest'|]. split; [discriminate|].
      split; [exact Hkeep|]. repeat split; [lia|exact Hju|exact Hjn|].
      intros k Hk' Hu Hnot. destruct (Nat.eq_dec k i) as [->|Hne]; [exact Hij|].
      apply Hk; [lia|exact Hu|exact Hnot].
  - exists (b0 :: best', Some i, bc). split; [reflexivity|].
    split; [exact Hnd|]. split; [exact Hbest'|]. split; [discriminate|].
    split; [exact Hkeep|]. repeat split; [lia|exact Hun|exact Hnoti|].
    intros k Hk' Hu Hnot. destruct (Nat.eq_dec k i) as [->|Hne]; [apply PN_ltb_irrefl|].
    exfalso. apply Hnot. apply Hm2; [lia|exact Hu].
Qed.

Lemma mpnLoop_selInv (count : nat) :
  forall (i : nat) (st : list nat * option nat * PN.value_type),
    (i + count)%nat = length (children n) -> selInv cval n i st ->
    exists st', PnsNode.mpnLoop complexity n landSwitching count i st = Ok st'
                /\ selInv cval n (length (children n)) st'.
Proof.
  induction count as [|count IH]; intros i st Hlen Hinv.
  - exists st. split; [reflexivity|]. replace (length (children n)) with i by lia. exact Hinv.
  - assert (Hi : (i < length (children n))%nat) by lia.
    destruct (lookup_lt_is_Some_2 _ _ Hi) as [child Hchild].
    destruct (selInv_step i child st Hchild Hinv) as (st1 & Hstep & Hinv1).
    cbn [PnsNode.mpnLoop]. unfold PnsNode.getChild. rewrite Hchild.
    unfold mbind at 1, Res_bind at 1. cbv beta iota.
    destruct (negb (childIsLocked child)) eqn:Hun.
    + destruct st as [[best m2] bc].
      rewrite (Hc i Hi) in Hstep |- *.
      unfold mbind, Res_bind in Hstep |- *. cbv beta iota in Hstep |- *.
      rewrite Hstep. rewrite Hfull. apply IH; [lia|exact Hinv1].
    + injection Hstep as <-. apply IH; [lia|exact Hinv1].
Qed.

Lemma selInv_start : selInv cval n 0 ([], None, PN.INF).
Proof.
  split; [constructor|]. split; [intros b []|]. split; [|split].
  - intros _. split; [reflexivity|]. intros k Hk. lia.
  - intros k Hk. lia.
  - intros k Hk. lia.
Qed.

(** X14.  [getMpnIdx] on a node whose selection runs over all children (no
    land switching in a multi-land node), with [cval k] the complexity of
    child [k].  It fails its assertion when no child is unlocked.  Otherwise
    it returns an unlocked child of the least complexity among the unlocked
    children and, as second choice, an unlocked child other than the first
    that is least among the remaining unlocked children; there is no second
    choice exactly when the first is the only unlocked child. *)
Theorem getMpnIdx_selects_least (rng : PnsNode.Rng) :
  ((forall k, isUnlockedAt n k = false) ->
   PnsNode.getMpnIdx complexity rng landSwitching n = Throw assertion_failure)
  /\ (forall k0, isUnlockedAt n k0 = true ->
      exists i j,
        PnsNode.getMpnIdx complexity rng landSwitching n = Ok (i, j)
        /\ isUnlockedAt n i = true
        /\ (forall k, isUnlockedAt n k = true -> PN.ltb (cval k) (cval i) = false)
        /\ match j with
           | Some j =>
               j <> i /\ isUnlockedAt n j = true
               /\ forall k, isUnlockedAt n k = true -> k <> i ->
                            PN.ltb (cval k) (cval j) = false
           | None => forall k, isUnlockedAt n k = true -> k = i
           end).
Proof.
  destruct (mpnLoop_selInv (length (children n)) 0 ([], None, PN.INF) eq_refl selInv_start)
    as ([[best m2] bc] & Hloop & Hnd & Hbest & Hnil & Hle & Hm2).
  unfold PnsNode.getMpnIdx. rewrite Hloop. unfold mbind, Res_bind. cbv beta iota.
  split.
  - intros Hnone. destruct best as [|b0 best']; [reflexivity|].
    destruct (Hbest b0 (or_introl eq_refl)) as (_ & Hu & _). rewrite Hnone in Hu. discriminate.
  - intros k0 Hk0. destruct best as [|first others].
    { destruct (Hnil eq_refl) as [_ Hnone].
      rewrite (Hnone k0 (isUnlockedAt_lt k0 Hk0)) in Hk0. discriminate. }
    set (mpnIdx := match rng, others with
                   | Some draw, _ :: _ =>
                       nth (draw (length (first :: others)) mod length (first :: others))%nat
                           (first :: others) first
                   | _, _ => first
                   end).
    assert (Hin : In mpnIdx (first :: others)).
    { subst mpnIdx. destruct rng as [draw|]; [|left; reflexivity].
      destruct others as [|o others']; [left; reflexivity|].
      apply nth_In. apply Nat.mod_upper_bound. simpl. lia. }
    destruct (Hbest mpnIdx Hin) as (Hmi & Hmu & Hmc).
    assert (Hleast : forall k, isUnlockedAt n k = true -> PN.ltb (cval k) (cval mpnIdx) = false).
    { intros k Hu. destruct (Hle k (isUnlockedAt_lt k Hu) Hu) as [Hkb _].
      apply (PN_eqb_le _ _ _ Hmc Hkb). }
    destruct others as [|o others'].
    + (* one best child *)
      assert (Hmf : mpnIdx = first) by (destruct Hin as [<-|[]]; reflexivity).
      exists mpnIdx, m2. split; [subst mpnIdx; destruct rng; reflexivity|].
      split; [exact Hmu|]. split; [exact Hleast|].
      destruct m2 as [j|].
      * destruct Hm2 as (Hj & Hju & Hjn & Hk). split; [|split; [exact Hju|]].
        -- intros ->. apply Hjn. exact Hin.
        -- intros k Hu Hne. apply Hk; [exact (isUnlockedAt_lt k Hu)|exact Hu|].
           intros [<-|[]]. congruence.
      * intros k Hu. destruct (Hm2 k (isUnlockedAt_lt k Hu) Hu) as [<-|[]]. congruence.
    + (* several best children *)
      destruct (List.find (fun idx => negb (Nat.eqb idx mpnIdx)) (first :: o :: others'))
        as [idx|] eqn:Hfind.
      * exists mpnIdx, (Some idx). split.
        { revert Hfind. subst mpnIdx. destruct rng as [draw|]; cbv beta iota;
            intros Hfind; rewrite Hfind; reflexivity. }
        apply find_some in Hfind as [Hidx Hne]. apply negb_true_iff, Nat.eqb_neq in Hne.
        destruct (Hbest idx Hidx) as (_ & Hiu & Hic).
        split; [exact Hmu|].
        split; [exact Hleast|]. split; [exact Hne|]. split; [exact Hiu|].
        intros k Hu _. destruct (Hle k (isUnlockedAt_lt k Hu) Hu) as [Hkb _].
        apply (PN_eqb_le _ _ _ Hic Hkb).
      * exfalso.
        assert (Hall : forall x, In x (first :: o :: others') -> x = mpnIdx).
        { intros x Hx. pose proof (find_none _ _ Hfind x Hx) as Hx'. cbv beta in Hx'.
          apply negb_false_iff, Nat.eqb_eq in Hx'. exact Hx'. }
        inversion Hnd as [|? ? Hnotin _]; subst. apply Hnotin.
        rewrite (Hall first (or_introl eq_refl)).
        rewrite <- (Hall o (or_intror (or_introl eq_refl))). left. reflexivity.
Qed.
End SelectionFacts.


(** ** The comparers as orderings *)
Section ComparerFacts.
Context `{G : Game}.
Import ComparerSpec.

Lemma String_ltb_irrefl (s : string) : String.ltb s s = false.
Proof.
  unfold String.ltb. destruct (String.compare s s) eqn:E; try reflexivity.
  pose proof (String.compare_antisym s s) as H. rewrite E in H. discriminate.
Qed.

Lemma String_ltb_trans (a b c : string) :
  String.ltb a b = true -> String.ltb b c = true -> String.ltb a c = true.
Proof.
  unfold String.ltb. intros Hab Hbc.
  destruct (String.compare a b) eqn:Eab; try discriminate.
  destruct (String.compare b c) eqn:Ebc; try discriminate.
  apply OrderedTypeEx.String_as_OT.cmp_lt in Eab, Ebc.
  pose proof (OrderedTypeEx.String_as_OT.lt_trans _ _ _ Eab Ebc) as H.
  apply OrderedTypeEx.String_as_OT.cmp_lt in H.
  unfold OrderedTypeEx.String_as_OT.cmp in H. rewrite H. reflexivity.
Qed.

Lemma String_ltb_total (a b : string) :
  String.ltb a b = false -> String.ltb b a = false -> a = b.
Proof.
  unfold String.ltb. rewrite (String.compare_antisym b a).
  destruct (String.compare a b) eqn:E; simpl; try discriminate.
  intros _ _. apply String.compare_eq_iff. exact E.
Qed.

Lemma String_ltb_negtrans (a b c : string) :
  String.ltb a b = false -> String.ltb b c = false -> String.ltb a c = false.
Proof.
  intros Hab Hbc. destruct (String.ltb a c) eqn:Hac; [|reflexivity].
  destruct (String.ltb b a) eqn:Hba.
  - rewrite (String_ltb_trans b a c Hba Hac) in Hbc. discriminate.
  - rewrite (String_ltb_total a b Hab Hba) in Hac. congruence.
Qed.

Section Lexicographic.
  Context {A B : Type} (eqbA ltA : A -> A -> bool) (ltB : B -> B -> bool).
  Hypothesis eqbA_eq : forall x y, eqbA x y = true <-> x = y.
  Hypothesis ltA_irrefl : forall x, ltA x x = false.
  Hypothesis ltA_trans : forall x y z, ltA x y = true -> ltA y z = true -> ltA x z = true.
  Hypothesis ltA_total : forall x y, ltA x y = false -> ltA y x = false -> x = y.
  Hypothesis ltB_strict : strictWeak ltB.

Lemma ltA_asym (x y : A) : ltA x y = true -> ltA y x = false.
Proof.
  intros H. destruct (ltA y x) eqn:E; [|reflexivity].
  rewrite <- (ltA_irrefl x). symmetry. apply (ltA_trans x y x); assumption.
Qed.

Lemma lexLt_unfold (p q : A * B) :
  lexLt eqbA ltA ltB p q = true
  <-> ltA (fst p) (fst q) = true \/ (fst p = fst q /\ ltB (snd p) (snd q) = true).
Proof.
  unfold lexLt. destruct (eqbA (fst p) (fst q)) eqn:E; cbn [negb].
  - apply eqbA_eq in E. split; [auto|]. intros [H|[_ H]]; [|exact H].
    rewrite E, ltA_irrefl in H. discriminate.
  - split; [auto|]. intros [H|[H _]]; [exact H|].
    apply eqbA_eq in H. congruence.
Qed.

Lemma lexLt_false (p q : A * B) :
  lexLt eqbA ltA ltB p q = false
  <-> ltA (fst q) (fst p) = true \/ (fst p = fst q /\ ltB (snd p) (snd q) = false).
Proof.
  unfold lexLt. destruct (eqbA (fst p) (fst q)) eqn:E; cbn [negb].
  - apply eqbA_eq in E. split; [auto|]. intros [H|[_ H]]; [|exact H].
    rewrite E, ltA_irrefl in H. discriminate.
  - assert (Hne : fst p <> fst q) by (intros H; apply eqbA_eq in H; congruence).
    split.
    + intros H. left. destruct (ltA (fst q) (fst p)) eqn:E'; [reflexivity|].
      exfalso. apply Hne. apply ltA_total; assumption.
    + intros [H|[H _]]; [apply ltA_asym; exact H|contradiction].
Qed.

Lemma lexLt_strict : strictWeak (lexLt eqbA ltA ltB).
Proof.
  destruct ltB_strict as (Birr & Basym & Btrans & Bneg).
  split; [|split; [|split]].
  - intros p. apply lexLt_false. right. split; [reflexivity|apply Birr].
  - intros p q H. apply lexLt_unfold in H. apply lexLt_false.
    destruct H as [H|[H1 H2]]; [left; exact H|right; split; [symmetry; exact H1|apply Basym; exact H2]].
  - intros p q r H1 H2. apply lexLt_unfold in H1, H2. apply lexLt_unfold.
    destruct H1 as [H1|[E1 H1]], H2 as [H2|[E2 H2]].
    + left. apply (ltA_trans _ _ _ H1 H2).
    + left. rewrite <- E2. exact H1.
    + left. rewrite E1. exact H2.
    + right. split; [congruence|apply (Btrans _ _ _ H1 H2)].
  - intros p q r H1 H2. apply lexLt_false in H1, H2. apply lexLt_false.
    destruct H1 as [H1|[E1 H1]], H2 as [H2|[E2 H2]].
    + left. apply (ltA_trans _ _ _ H2 H1).
    + left. rewrite <- E2. exact H1.
    + left. rewrite E1. exact H2.
    + right. split; [congruence|apply (Bneg _ _ _ H1 H2)].
Qed.
End Lexicographic.

Lemma String_ltb_strict : strictWeak String.ltb.
Proof.
  split; [exact String_ltb_irrefl|]. split; [exact String_ltb_asym|].
  split; [exact String_ltb_trans|exact String_ltb_negtrans].
Qed.

Lemma keyLt_strict : strictWeak keyLt.
Proof.
  assert (Hs : strictWeak
                 (lexLt Z.eqb Z.ltb
                    (lexLt N.eqb (fun x y => N.ltb y x)
                       (lexLt N.eqb N.ltb String.ltb)))).
  { apply lexLt_strict.
    - intros x y. apply Z.eqb_eq.
    - intros x. apply Z.ltb_irrefl.
    - intros x y z H1 H2. apply Z.ltb_lt in H1, H2. apply Z.ltb_lt. lia.
    - intros x y H1 H2. apply Z.ltb_ge in H1, H2. lia.
    - apply lexLt_strict.
      + intros x y. apply N.eqb_eq.
      + intros x. apply N.ltb_irrefl.
      + intros x y z H1 H2. apply N.ltb_lt in H1, H2. apply N.ltb_lt. lia.
      + intros x y H1 H2. apply N.ltb_ge in H1, H2. lia.
      + apply lexLt_strict.
        * intros x y. apply N.eqb_eq.
        * intros x. apply N.ltb_irrefl.
        * intros x y z H1 H2. apply N.ltb_lt in H1, H2. apply N.ltb_lt. lia.
        * intros x y H1 H2. apply N.ltb_ge in H1, H2. lia.
        * exact String_ltb_strict. }
  assert (Heq : forall a b : SortKey,
             keyLt a b
             = lexLt Z.eqb Z.ltb
                 (lexLt N.eqb (fun x y => N.ltb y x) (lexLt N.eqb N.ltb String.ltb))
                 (nested a) (nested b)).
  { intros [[[z1 l1] e1] s1] [[[z2 l2] e2] s2]. reflexivity. }
  destruct Hs as (Hirr & Hasym & Htrans & Hneg).
  split; [|split; [|split]].
  - intros a. rewrite Heq. apply Hirr.
  - intros a b. rewrite !Heq. apply Hasym.
  - intros a b c. rewrite !Heq. apply Htrans.
  - intros a b c. rewrite !Heq. apply Hneg.
Qed.

Lemma DefaultGameComparer_key (a b : list Land) :
  Heuristics.DefaultGameComparer a b = keyLt (gameKey a) (gameKey b).
Proof. reflexivity. Qed.

Lemma DefaultCoupleComparer_key (a b : Couple) :
  Couple.DefaultCoupleComparer a b = keyLt (coupleKey a) (coupleKey b).
Proof.
  unfold Couple.DefaultCoupleComparer, coupleKey, keyLt. cbv zeta.
  destruct isNormalImpartial; cbn [andb]; [reflexivity|].
  rewrite N.eqb_refl. reflexivity.
Qed.

(** X15.  [DefaultGameComparer] is a strict weak ordering, as [std::sort]
    requires: irreflexive, asymmetric, transitive, and with a transitive
    incomparability. *)
Theorem game_comparer_is_strict_weak_order : strictWeak Heuristics.DefaultGameComparer.
Proof.
  destruct keyLt_strict as (Hirr & Hasym & Htrans & Hneg).
  split; [|split; [|split]].
  - intros a. rewrite DefaultGameComparer_key. apply Hirr.
  - intros a b. rewrite !DefaultGameComparer_key. apply Hasym.
  - intros a b c. rewrite !DefaultGameComparer_key. apply Htrans.
  - intros a b c. rewrite !DefaultGameComparer_key. apply Hneg.
Qed.

(** X16.  [DefaultCoupleComparer] is a strict weak ordering, for normal
    impartial games and for the others. *)
Theorem couple_comparer_is_strict_weak_order : strictWeak Couple.DefaultCoupleComparer.
Proof.
  destruct keyLt_strict as (Hirr & Hasym & Htrans & Hneg).
  split; [|split; [|split]].
  - intros a. rewrite DefaultCoupleComparer_key. apply Hirr.
  - intros a b. rewrite !DefaultCoupleComparer_key. apply Hasym.
  - intros a b c. rewrite !DefaultCoupleComparer_key. apply Htrans.
  - intros a b c. rewrite !DefaultCoupleComparer_key. apply Hneg.
Qed.
End ComparerFacts.


(** ** The depth-first solver *)
Section DfsFacts.
Context `{G : Game}.
Import DfsSpec.

Lemma keeps_refl (s : DfsSolver.t) : keeps s s.
Proof. split; reflexivity. Qed.

Lemma keeps_trans (s1 s2 s3 : DfsSolver.t) : keeps s1 s2 -> keeps s2 s3 -> keeps s1 s3.
Proof. intros [H1 H1'] [H2 H2']. split; [etransitivity; eassumption|congruence]. Qed.

Lemma keeps_insertNimber (s : DfsSolver.t) (c : Couple) : keeps s (DfsSolver.insertNimber s c).
Proof.
  split; cbn; [|reflexivity].
  rewrite dom_insert. apply union_subseteq_r.
Qed.

Lemma keeps_tick (s : DfsSolver.t) (n : N) :
  keeps s (DfsSolver.mk (DfsSolver.nimberDatabase s) n).
Proof. split; reflexivity. Qed.

Lemma childrenLoop_keeps solve (Hsolve : decides solve) (cs : list Couple) :
  forall s o0 s' o,
    DfsSolver.childrenLoop solve s cs o0 = Ok (s', o) -> keeps s s'.
Proof.
  induction cs as [|child rest IH]; intros s o0 s' o H; cbn in H.
  - inversion H; subst. apply keeps_refl.
  - destruct (solve s child) as [[s1 o1]| |] eqn:E; cbn in H; try discriminate.
    apply Hsolve in E as [_ Hk].
    destruct (Outcome_eqb o1 Loss).
    + inversion H; subst. exact Hk.
    + apply (keeps_trans _ _ _ Hk). eapply IH; eassumption.
Qed.

Lemma nimberLoop_keeps solve (Hsolve : decides solve) (tries : nat) :
  forall s position nimber s' n,
    DfsSolver.nimberLoop solve tries s position nimber = Ok (s', n) -> keeps s s'.
Proof.
  induction tries as [|tries IH]; intros s position nimber s' n H; cbn in H; [discriminate|].
  destruct (solve s _) as [[s1 o1]| |] eqn:E; cbn in H; try discriminate.
  apply Hsolve in E as [_ Hk].
  destruct (Outcome_eqb o1 Loss).
  - inversion H; subst. exact Hk.
  - apply (keeps_trans _ _ _ Hk). eapply IH; eassumption.
Qed.

Lemma computeNimberWith_keeps solve (Hsolve : decides solve) (tries : nat) s position s' n :
  DfsSolver.computeNimberWith solve tries s position = Ok (s', n) -> keeps s s'.
Proof.
  unfold DfsSolver.computeNimberWith.
  destruct (NimberDatabase.get _ _).
  - intros H; inversion H; subst. apply keeps_refl.
  - apply nimberLoop_keeps, Hsolve.
Qed.

Lemma landsLoop_keeps nimberOf
      (Hn : forall s p s' n, nimberOf s p = Ok (s', n) -> keeps s s') (subgames : list (list Land)) :
  forall s merged s' m final,
    DfsSolver.landsLoop nimberOf s subgames merged = Ok (s', m, final) -> keeps s s'.
Proof.
  induction subgames as [|subgame rest IH]; intros s merged s' m final H; [discriminate|].
  destruct rest as [|next rest].
  - cbn in H. inversion H; subst. apply keeps_refl.
  - cbn [DfsSolver.landsLoop] in H.
    destruct (nimberOf s subgame) as [[s1 n1]| |] eqn:E; cbn in H; try discriminate.
    apply Hn in E. apply (keeps_trans _ _ _ E). eapply IH. exact H.
Qed.

Lemma computeAndMergeExtraLandsWith_keeps solve (Hsolve : decides solve) tries s c s' c' :
  DfsSolver.computeAndMergeExtraLandsWith solve tries s c = Ok (s', c') -> keeps s s'.
Proof.
  unfold DfsSolver.computeAndMergeExtraLandsWith.
  destruct (negb _).
  - intros H; inversion H; subst. apply keeps_refl.
  - cbv zeta.
    destruct (DfsSolver.landsLoop _ _ _ _) as [[[s1 m] final]| |] eqn:E; cbn;
      intros H; try discriminate.
    inversion H; subst.
    apply landsLoop_keeps in E.
    + eapply keeps_trans; [apply keeps_tick|exact E].
    + intros ? ? ? ?. apply computeNimberWith_keeps, Hsolve.
Qed.

Lemma computeSingleLandCoupleOutcomeWith_decides solve (Hsolve : decides solve) s c s' o :
  DfsSolver.computeSingleLandCoupleOutcomeWith solve s c = Ok (s', o) ->
  o <> Unknown /\ keeps s s'.
Proof.
  unfold DfsSolver.computeSingleLandCoupleOutcomeWith.
  destruct (Couple.computeChildren _ c) as [[| |] children].
  - intros H; inversion H; subst. split; [discriminate|apply keeps_refl].
  - intros H; inversion H; subst. split; [discriminate|apply keeps_insertNimber].
  - cbv zeta.
    destruct (DfsSolver.childrenLoop _ _ _ _) as [[s1 o1]| |] eqn:E; cbn;
      intros H; try discriminate.
    apply childrenLoop_keeps in E; [|exact Hsolve].
    assert (Hk : keeps s s1) by (eapply keeps_trans; [apply keeps_tick|exact E]).
    destruct (Outcome_eqb o1 Loss); inversion H; subst.
    + split; [discriminate|exact Hk].
    + split; [discriminate|]. eapply keeps_trans; [exact Hk|apply keeps_insertNimber].
Qed.

Lemma computeCoupleOutcome_decides (fuel : nat) : decides (DfsSolver.computeCoupleOutcome fuel).
Proof.
  induction fuel as [|fuel IH]; intros s c s' o H; [discriminate|].
  cbn [DfsSolver.computeCoupleOutcome] in H. cbv zeta in H.
  destruct (DfsSolver.computeAndMergeExtraLandsWith _ _ _ _) as [[s1 c1]| |] eqn:E;
    cbn in H; try discriminate.
  apply computeAndMergeExtraLandsWith_keeps in E; [|exact IH].
  destruct (Couple.getOutcome _) eqn:Eo.
  - inversion H; subst. split; [discriminate|exact E].
  - inversion H; subst. split; [discriminate|exact E].
  - apply computeSingleLandCoupleOutcomeWith_decides in H as [Ho Hk]; [|exact IH].
    split; [exact Ho|]. eapply keeps_trans; eassumption.
Qed.

(** X17.  When the depth-first solver returns, its answer is [Win] or
    [Loss], never [Unknown]; every position that was stored in its nimber
    database before the call is still stored, and the tracking flag of the
    database is unchanged. *)
Theorem dfs_answers_win_or_loss (fuel : nat) (s : DfsSolver.t) (couple : Couple)
        (s' : DfsSolver.t) (o : Outcome) :
  DfsSolver.solveCouple fuel s couple = Ok (s', o) ->
  (o = Win \/ o = Loss)
  /\ (forall k, is_Some (NimberDatabase.get (DfsSolver.nimberDatabase s) k) ->
                is_Some (NimberDatabase.get (DfsSolver.nimberDatabase s') k))
  /\ NimberDatabase.trackNew (DfsSolver.nimberDatabase s')
     = NimberDatabase.trackNew (DfsSolver.nimberDatabase s).
Proof.
  intros H. apply computeCoupleOutcome_decides in H as [Ho [Hdom Htrack]].
  split; [destruct o; auto; contradiction|].
  split; [|exact Htrack].
  intros k Hk. unfold NimberDatabase.get in *.
  apply elem_of_dom. apply Hdom. apply elem_of_dom. exact Hk.
Qed.
End DfsFacts.

Section DfsExamplesFacts.
Import SolverRuns ChainGame.

Lemma dfs_answers_win_or_loss_witness :
  exists s' o,
    DfsSolver.solveCouple 100 (DfsSolver.mk (NimberDatabase.create true) 0) (chain 3)
    = Ok (s', o)
    /\ (o = Win \/ o = Loss)
    /\ NimberDatabase.trackNew (DfsSolver.nimberDatabase s') = true.
Proof.
  eexists. eexists.
  split; [vm_compute; reflexivity|].
  destruct (dfs_answers_win_or_loss 100 (DfsSolver.mk (NimberDatabase.create true) 0) (chain 3)
              _ _ eq_refl) as (Ho & _ & Ht).
  split; [exact Ho|exact Ht].
Defined.
End DfsExamplesFacts.


(** ** The statements above on concrete tables and nodes *)
Section MoreExamplesFacts.
Import ChainGame CoupleExamples TableExamples NodeExamples MoreExamples.
Import TableSpec BucketSpec ChildrenSpec SelectionSpec NodeSpec.

Lemma merged_nimber_ignores_land_order_witness :
  nimber (snd (Couple.mergeComputedLands chainDb (mkCouple [1%nat; 2%nat] 0)))
  = nimber (snd (Couple.mergeComputedLands chainDb (mkCouple [2%nat; 1%nat] 0)))
  /\ nimber (snd (Couple.mergeComputedLands chainDb (mkCouple [2%nat; 1%nat] 0))) = 1.
Proof.
  split; [|vm_compute; reflexivity].
  apply (merged_nimber_ignores_land_order (G := ChainGame.game) chainDb [1%nat; 2%nat] [2%nat; 1%nat] 0).
  - reflexivity.
  - apply perm_swap.
Defined.

Lemma insert_then_find_witness :
  exists e,
    BucketTable.find (fst (BucketTable.insert smallTable (chainKey 1) (unproved 9))) (chainKey 1)
    = Some e
    /\ BucketTable.value e = unproved 9.
Proof.
  assert (Hne : BucketTable.data smallTable <> []) by (vm_compute; discriminate).
  assert (Hfull : fullBuckets smallTable) by (repeat constructor).
  assert (Hk : keyEqb (chainKey 1) (chainKey 1) = true) by (vm_compute; reflexivity).
  destruct (insert_then_find smallTable (chainKey 1) (unproved 9) Hne Hfull Hk)
    as (_ & (e & Hfind & _ & _ & Hval) & _).
  exists e. split; [exact Hfind|]. rewrite Hval. vm_compute. reflexivity.
Defined.

Lemma unmark_after_mark_witness :
  fullBuckets markedTable
  /\ BucketTable.unmark (BucketTable.mark markedTable (chainKey 1) 7) (chainKey 1) 7
     = BucketTable.unmark markedTable (chainKey 1) 7.
Proof.
  assert (Hfull : fullBuckets markedTable) by (vm_compute; repeat constructor).
  split; [exact Hfull|].
  exact (proj1 (unmark_after_mark markedTable (chainKey 1) 7 Hfull)).
Defined.

Lemma single_land_children_rule_witness :
  PnsNode.updateChildren 10 (DfpnSolver.childFactory dfpnConfig solver)
    (DfpnSolver.nimberDatabase solver) expandedNode
  = Ok (PnsNode.withChildren expandedNode (openChildren (children expandedNode)))
  /\ length (openChildren (children expandedNode)) = 3%nat.
Proof.
  assert (Hp : PnsNode.isProved expandedNode = false) by (vm_compute; reflexivity).
  assert (He : PnsNode.isExpanded expandedNode = true) by (vm_compute; reflexivity).
  assert (Hm : PnsNode.isMultiLandNode expandedNode = false) by (vm_compute; reflexivity).
  split; [|vm_compute; reflexivity].
  destruct (single_land_children_rule 10 (DfpnSolver.childFactory dfpnConfig solver)
              (DfpnSolver.nimberDatabase solver) expandedNode Hp He Hm)
    as (_ & _ & Hopen).
  apply Hopen.
  - vm_compute. reflexivity.
  - vm_compute. discriminate.
Defined.

Lemma getMpnIdx_selects_least_witness :
  exists i j,
    PnsNode.getMpnIdx PnsNode.getChildComplexity None false expandedNode = Ok (i, j)
    /\ isUnlockedAt expandedNode i = true
    /\ PN.ltb (complexityOf expandedNode 2) (complexityOf expandedNode i) = false.
Proof.
  assert (Hc : forall k, (k < length (children expandedNode))%nat ->
                         PnsNode.getChildComplexity expandedNode k
                         = Ok (complexityOf expandedNode k)).
  { intros k Hk.
    assert (Hlen : length (children expandedNode) = 3%nat) by (vm_compute; reflexivity).
    rewrite Hlen in Hk. destruct k as [|[|[|k]]]; [vm_compute; reflexivity ..|lia]. }
  assert (Hfull : negb false && PnsNode.isMultiLandNode expandedNode = false)
    by (vm_compute; reflexivity).
  destruct (getMpnIdx_selects_least PnsNode.getChildComplexity (complexityOf expandedNode)
              expandedNode false Hc Hfull None) as [_ Hsel].
  destruct (Hsel 0%nat) as (i & j & Hrun & Hu & Hleast & _); [vm_compute; reflexivity|].
  exists i, j. split; [exact Hrun|]. split; [exact Hu|].
  apply Hleast. vm_compute. reflexivity.
Defined.
End MoreExamplesFacts.
